(** * Vector and Matrix algebra of [main.py], embedded over an object store

    [Vector] and [Matrix] are subclasses of Python's [list]: objects with an
    identity, a class and a mutable sequence of items.  The embedding keeps
    all three.  A program state is a store of objects plus the trace of the
    item accesses made so far; every method is a computation in a state and
    exception monad over that state.

    The file has three parts: the program, the lemmas about it, and the
    properties of the specification, numbered as there. *)

From Stdlib Require Import ZArith Reals Lra String.
From stdpp Require Import base list.

(** ** Scalars

    The methods never look at what their numbers are: they only add,
    subtract and multiply them, and [sum] starts from the integer [0].
    The operations are collected in a class.  [Z] with its exact arithmetic
    is Python's [int]; [of_int] is the conversion Python applies when an
    [int] meets a number of another kind.  [R] stands in for [float] where
    [math.cos] and [math.sin] are needed. *)

Class Scalar (S : Type) := {
  of_int : Z -> S;
  sadd : S -> S -> S;
  ssub : S -> S -> S;
  smul : S -> S -> S;
  sneg : S -> S
}.

(** [math.cos] and [math.sin]. *)
Class Trig (S : Type) := {
  scos : S -> S;
  ssin : S -> S
}.

(** The handful of identities that the unit laws of the identity matrix rest
    on. *)
Class ScalarLaws (S : Type) `{Scalar S} : Prop := {
  sadd_0_l : forall x, sadd (of_int 0) x = x;
  sadd_0_r : forall x, sadd x (of_int 0) = x;
  smul_1_l : forall x, smul (of_int 1) x = x;
  smul_0_l : forall x, smul (of_int 0) x = of_int 0
}.

#[export] Instance Z_scalar : Scalar Z := {
  of_int := fun z => z;
  sadd := Z.add;
  ssub := Z.sub;
  smul := Z.mul;
  sneg := Z.opp
}.

#[export] Instance R_scalar : Scalar R := {
  of_int := IZR;
  sadd := Rplus;
  ssub := Rminus;
  smul := Rmult;
  sneg := Ropp
}.

#[export] Instance R_trig : Trig R := {
  scos := cos;
  ssin := sin
}.

(** ** Objects, store and the monad *)

(** Addresses of objects. *)
Abbreviation loc := nat (only parsing).

(** The classes of the objects at hand: [list], [Vector] and [Matrix]. *)
Inductive cls := CList | CVector | CMatrix.

Definition cls_eqb (c d : cls) : bool :=
  match c, d with
  | CList, CList | CVector, CVector | CMatrix, CMatrix => true
  | _, _ => false
  end.

(** Exceptions.  [TypeError msg] is a [raise TypeError(msg)] of the
    program; [IndexError] is the interpreter's answer to an index past the
    end of a list and [NotSequence] its [TypeError] for a number that is
    measured, indexed or iterated over. *)
Inductive exn :=
| TypeError (msg : string)
| IndexError
| NotSequence.

(** What [_ensure_compatibility] hands back. *)
Inductive retval := RNone | NotImplemented.

(** Accesses to the items of the object at [l]: [l[i]] read, [l[i]]
    assigned to, [l] created. *)
Inductive event :=
| EvRead (l : loc) (i : nat)
| EvWrite (l : loc) (i : nat)
| EvNew (l : loc).

(** A computation returns, raises, or leaves the fragment of Python that
    is embedded here; nothing is stated about the last case. *)
Inductive outcome (A : Type) :=
| Ok (a : A)
| Raise (e : exn)
| Unmodelled.

Arguments Ok {A} a.
Arguments Raise {A} e.
Arguments Unmodelled {A}.

Section Store.
Context {S : Type}.

(** A value is a number or a reference to an object. *)
Inductive value :=
| VNum (x : S)
| VRef (l : loc).

Record obj := Obj { obj_cls : cls; obj_items : list value }.

(** The object at address [l] is [heap !! l]. *)
Record state := State { heap : list obj; trace : list event }.

Definition M (A : Type) : Type := state -> outcome A * state.

Definition ret {A} (a : A) : M A := fun st => (Ok a, st).

Definition bind {A B} (m : M A) (k : A -> M B) : M B :=
  fun st =>
    match m st with
    | (Ok a, st') => k a st'
    | (Raise e, st') => (Raise e, st')
    | (Unmodelled, st') => (Unmodelled, st')
    end.

Definition raise {A} (e : exn) : M A := fun st => (Raise e, st).

Definition unmodelled {A} : M A := fun st => (Unmodelled, st).

Definition log (ev : event) : M unit :=
  fun st => (Ok tt, State (heap st) (trace st ++ [ev])).

End Store.

Arguments value S : clear implicits.
Arguments obj S : clear implicits.
Arguments state S : clear implicits.
Arguments M S A : clear implicits.

Declare Scope py_scope.
Delimit Scope py_scope with py.
Notation "x <- m ;; k" := (bind m (fun x => k))
  (at level 20, m at level 99, k at level 200, only parsing) : py_scope.
Notation "m ;;; k" := (bind m (fun _ => k))
  (at level 100, k at level 200, only parsing, right associativity) : py_scope.
Open Scope py_scope.

Section Primitives.
Context {S : Type} `{Scalar S}.

(** A reference that names no object cannot arise in Python. *)
Definition deref (l : loc) : M S (obj S) :=
  fun st =>
    match heap st !! l with
    | Some o => (Ok o, st)
    | None => (Unmodelled, st)
    end.

(** [isinstance(v, c)] for the three classes at hand; [Vector] and [Matrix]
    both derive from [list] and neither from the other. *)
Definition isinstance (v : value S) (c : cls) : M S bool :=
  match v with
  | VNum _ => ret false
  | VRef l => o <- deref l ;; ret (cls_eqb (obj_cls o) c)
  end.

(** [len(v)]: no item is touched. *)
Definition py_len (v : value S) : M S nat :=
  match v with
  | VNum _ => raise NotSequence
  | VRef l => o <- deref l ;; ret (length (obj_items o))
  end.

(** [v[i]] for an index produced by [range]. *)
Definition getitem (v : value S) (i : nat) : M S (value S) :=
  match v with
  | VNum _ => raise NotSequence
  | VRef l =>
      o <- deref l ;;
      match obj_items o !! i with
      | Some x => log (EvRead l i) ;;; ret x
      | None => raise IndexError
      end
  end.

(** [v[i] = x]. *)
Definition setitem (v : value S) (i : nat) (x : value S) : M S unit :=
  match v with
  | VNum _ => raise NotSequence
  | VRef l =>
      o <- deref l ;;
      if decide (i < length (obj_items o)) then
        fun st =>
          (Ok tt,
           State (<[l := Obj (obj_cls o) (<[i := x]> (obj_items o))]> (heap st))
                 (trace st ++ [EvWrite l i]))
      else raise IndexError
  end.

(** [c(items)]: a new object of class [c].  The object is entered in the
    store once the generator that feeds it is exhausted; its address is the
    next free one. *)
Definition new (c : cls) (items : list (value S)) : M S (value S) :=
  fun st =>
    (Ok (VRef (length (heap st))),
     State (heap st ++ [Obj c items]) (trace st ++ [EvNew (length (heap st))])).

(** [x op y] on two items.  Between numbers it is the scalar operation.
    Between anything else Python dispatches on the operand classes again;
    that is outside the fragment embedded here. *)
Definition arith (op : S -> S -> S) (a b : value S) : M S (value S) :=
  match a, b with
  | VNum x, VNum y => ret (VNum (op x y))
  | _, _ => unmodelled
  end.

Fixpoint mapM {A B} (f : A -> M S B) (l : list A) : M S (list B) :=
  match l with
  | [] => ret []
  | x :: l' => b <- f x ;; bs <- mapM f l' ;; ret (b :: bs)
  end.

Fixpoint foldM {A B} (f : B -> A -> M S B) (b : B) (l : list A) : M S B :=
  match l with
  | [] => ret b
  | x :: l' => b' <- f b x ;; foldM f b' l'
  end.

(** [range(n)]. *)
Definition range (n : nat) : list nat := seq 0 n.

(** [for x1, x2 in zip(self, other)]: both iterators are created first,
    which fails on a number; each round reads [self[i]] and then
    [other[i]] and stops as soon as one of them is exhausted.  When [other]
    is the shorter one, [self] has already handed out one more item. *)
Definition zip_next (self other : value S) (i : nat) : M S (value S * value S) :=
  x1 <- getitem self i ;; x2 <- getitem other i ;; ret (x1, x2).

Definition zip_stop (self : value S) (n1 n2 : nat) : M S unit :=
  if decide (n2 < n1) then getitem self n2 ;;; ret tt else ret tt.

(** [Vector(body for x1, x2 in zip(self, other))], items only. *)
Definition zip_mapM (body : value S -> value S -> M S (value S))
    (self other : value S) : M S (list (value S)) :=
  n1 <- py_len self ;;
  n2 <- py_len other ;;
  items <- mapM (fun i => p <- zip_next self other i ;; body p.1 p.2)
                (range (n1 `min` n2)) ;;
  zip_stop self n1 n2 ;;;
  ret items.

(** [sum(body for x1, x2 in zip(self, other))]: the running total starts
    from the integer [0]. *)
Definition zip_sumM (body : value S -> value S -> M S (value S))
    (self other : value S) : M S (value S) :=
  n1 <- py_len self ;;
  n2 <- py_len other ;;
  total <- foldM (fun acc i =>
                    p <- zip_next self other i ;;
                    y <- body p.1 p.2 ;;
                    arith sadd acc y)
                 (VNum (of_int 0)) (range (n1 `min` n2)) ;;
  zip_stop self n1 n2 ;;;
  ret total.

End Primitives.

(** ** class Vector(list) *)

Module Vector.
Section Methods.
Context {S : Type} `{Scalar S}.

Definition msg_length : string := "Can not add vectors of different length"%string.

(** The guard answers [NotImplemented] for an operand that is no [Vector],
    raises on two [Vector]s of different length and otherwise falls off its
    end. *)
Definition _ensure_compatibility (self other : value S) : M S retval :=
  b <- isinstance other CVector ;;
  if negb b then ret NotImplemented
  else
    n1 <- py_len self ;;
    n2 <- py_len other ;;
    if decide (n1 <> n2) then raise (TypeError msg_length) else ret RNone.

Definition size (self : value S) : M S nat := py_len self.

(** Every caller drops what the guard returns. *)
Definition __add__ (self other : value S) : M S (value S) :=
  _ensure_compatibility self other ;;;
  items <- zip_mapM (arith sadd) self other ;;
  new CVector items.

Definition __iadd__ (self other : value S) : M S (value S) :=
  _ensure_compatibility self other ;;;
  n <- size self ;;
  foldM (fun (_ : unit) i =>
           x <- getitem self i ;;
           y <- getitem other i ;;
           z <- arith sadd x y ;;
           setitem self i z)
        tt (range n) ;;;
  ret self.

Definition __sub__ (self other : value S) : M S (value S) :=
  _ensure_compatibility self other ;;;
  items <- zip_mapM (arith ssub) self other ;;
  new CVector items.

Definition __isub__ (self other : value S) : M S (value S) :=
  _ensure_compatibility self other ;;;
  n <- size self ;;
  foldM (fun (_ : unit) i =>
           x <- getitem self i ;;
           y <- getitem other i ;;
           z <- arith ssub x y ;;
           setitem self i z)
        tt (range n) ;;;
  ret self.

Definition scalar_prod (self other : value S) : M S (value S) :=
  _ensure_compatibility self other ;;;
  zip_sumM (arith smul) self other.

End Methods.
End Vector.

(** ** class Matrix(list): a list of columns *)

Module Matrix.
Section Methods.
Context {S : Type} `{Scalar S}.

Definition msg_sizes : string :=
  "Matrix of different sizes are not supported in this context"%string.
Definition msg_matrix : string := "other must be Matrix"%string.
Definition msg_operand : string := "other must be Matrix of Vector"%string.
Definition msg_shape : string :=
  "Number of columns in left operand of multiplication must be equal to number of rows in right operand"%string.

Definition cols (self : value S) : M S nat := py_len self.

Definition rows (self : value S) : M S nat :=
  c0 <- getitem self 0 ;; py_len c0.

Definition _ensure_same_size (self other : value S) : M S unit :=
  c1 <- cols self ;;
  c2 <- cols other ;;
  if decide (c1 <> c2) then raise (TypeError msg_sizes)
  else
    r1 <- rows self ;;
    r2 <- rows other ;;
    if decide (r1 <> r2) then raise (TypeError msg_sizes) else ret tt.

Definition _ensure_addable (self other : value S) : M S unit :=
  b <- isinstance other CMatrix ;;
  if negb b then raise (TypeError msg_matrix)
  else _ensure_same_size self other.

Definition _ensure_multiplicable (self other : value S) : M S unit :=
  bm <- isinstance other CMatrix ;;
  size <- (if bm then rows other
           else
             bv <- isinstance other CVector ;;
             if bv then Vector.size other
             else raise (TypeError msg_operand)) ;;
  c <- cols self ;;
  if decide (c <> size) then raise (TypeError msg_shape) else ret tt.

(** [v1 + v2] on two columns: [Vector.__add__] when [v1] is a [Vector]. *)
Definition add_columns (v1 v2 : value S) : M S (value S) :=
  b <- isinstance v1 CVector ;;
  if b then Vector.__add__ v1 v2 else arith sadd v1 v2.

Definition __add__ (self other : value S) : M S (value S) :=
  _ensure_addable self other ;;;
  items <- zip_mapM add_columns self other ;;
  new CMatrix items.

(** [Vector(self[j][i] for j in range(self.cols))]: row [i] of [self]. *)
Definition row_vector (self : value S) (i : nat) : M S (value S) :=
  c <- cols self ;;
  items <- mapM (fun j => col <- getitem self j ;; getitem col i) (range c) ;;
  new CVector items.

(** [Vector(row(i).scalar_prod(rhs) for i in range(self.rows))], where
    [rhs] is evaluated anew for every [i]. *)
Definition product_column (self : value S) (rhs : M S (value S)) : M S (value S) :=
  r <- rows self ;;
  items <- mapM (fun i =>
                   row <- row_vector self i ;;
                   arg <- rhs ;;
                   Vector.scalar_prod row arg)
                (range r) ;;
  new CVector items.

(** The [Matrix(... for k in range(other.cols))] that [__mul__] binds to
    [m]. *)
Definition product_matrix (self other : value S) : M S (value S) :=
  oc <- cols other ;;
  items <- mapM (fun k => product_column self (getitem other k)) (range oc) ;;
  new CMatrix items.

Definition __mul__ (self other : value S) : M S (value S) :=
  _ensure_multiplicable self other ;;;
  b <- isinstance other CVector ;;
  if b then product_column self (ret other)
  else
    m <- product_matrix self other ;;
    mc <- cols m ;;
    if decide (mc = 1) then getitem m 0 else ret m.

(** [vector * matrix] reaches this method: [list] has no multiplication by
    a [Matrix] of its own, so Python hands the product to the right
    operand. *)
Definition __rmul__ (self other : value S) : M S (value S) :=
  b <- isinstance other CVector ;;
  if negb b then raise (TypeError msg_operand)
  else
    items <- mapM (fun _ => ret other) (range 1) ;;
    other' <- new CMatrix items ;;
    __mul__ other' self.

Definition identity (size : Z) : M S (value S) :=
  items <- mapM (fun i =>
                   col <- mapM (fun j =>
                                  ret (VNum (of_int (if decide (j = i) then 1 else 0))))
                               (range (Z.to_nat size)) ;;
                   new CVector col)
                (range (Z.to_nat size)) ;;
  new CMatrix items.

(** [v1 - v2] on two columns. *)
Definition sub_columns (v1 v2 : value S) : M S (value S) :=
  b <- isinstance v1 CVector ;;
  if b then Vector.__sub__ v1 v2 else arith ssub v1 v2.

Definition __sub__ (self other : value S) : M S (value S) :=
  _ensure_addable self other ;;;
  items <- zip_mapM sub_columns self other ;;
  new CMatrix items.

(** [x += y] on two columns: [Vector.__iadd__] when [x] is a [Vector]; its
    result is what the caller stores back. *)
Definition iadd_columns (x y : value S) : M S (value S) :=
  b <- isinstance x CVector ;;
  if b then Vector.__iadd__ x y else arith sadd x y.

Definition isub_columns (x y : value S) : M S (value S) :=
  b <- isinstance x CVector ;;
  if b then Vector.__isub__ x y else arith ssub x y.

Definition __iadd__ (self other : value S) : M S (value S) :=
  _ensure_addable self other ;;;
  c <- cols self ;;
  foldM (fun (_ : unit) i =>
           x <- getitem self i ;;
           y <- getitem other i ;;
           z <- iadd_columns x y ;;
           setitem self i z)
        tt (range c) ;;;
  ret self.

Definition __isub__ (self other : value S) : M S (value S) :=
  _ensure_addable self other ;;;
  c <- cols self ;;
  foldM (fun (_ : unit) i =>
           x <- getitem self i ;;
           y <- getitem other i ;;
           z <- isub_columns x y ;;
           setitem self i z)
        tt (range c) ;;;
  ret self.

End Methods.
End Matrix.

(** ** Module level functions *)

Section Functions.
Context {S : Type} `{Scalar S}.

(** [a + b] as the interpreter dispatches it on the class of [a]. *)
Definition py_add (a b : value S) : M S (value S) :=
  bv <- isinstance a CVector ;;
  if bv then Vector.__add__ a b
  else
    bm <- isinstance a CMatrix ;;
    if bm then Matrix.__add__ a b else arith sadd a b.

(** [Matrix.identity(n) * x] *)
Definition identity_times (n : Z) (x : value S) : M S (value S) :=
  i <- Matrix.identity n ;; Matrix.__mul__ i x.

(** [a * b] as the interpreter dispatches it: on the class of [a] first; a
    left operand that is no [Matrix] leaves the product to the [Matrix] on
    the right. *)
Definition py_mul (a b : value S) : M S (value S) :=
  bm <- isinstance a CMatrix ;;
  if bm then Matrix.__mul__ a b
  else
    bm' <- isinstance b CMatrix ;;
    if bm' then Matrix.__rmul__ b a else unmodelled.

(** [(a * b) * v] and [a * (b * v)] *)
Definition mul_mul (a b v : value S) : M S (value S) :=
  p <- py_mul a b ;; py_mul p v.

Definition mul_of_mul (a b v : value S) : M S (value S) :=
  w <- py_mul b v ;; py_mul a w.

(** [(a + b) - b] *)
Definition add_then_sub (a b : value S) : M S (value S) :=
  s <- Vector.__add__ a b ;; Vector.__sub__ s b.

(** [a += b; a -= b], where [a] is bound to what [+=] returns. *)
Definition iadd_then_isub (a b : value S) : M S (value S) :=
  a' <- Vector.__iadd__ a b ;; Vector.__isub__ a' b.

(** [x * Matrix.identity(n)] *)
Definition times_identity (x : value S) (n : Z) : M S (value S) :=
  i <- Matrix.identity n ;; Matrix.__mul__ x i.

Definition create_rotation_matrix `{Trig S} (angle : S) : M S (value S) :=
  c0 <- new CVector [VNum (scos angle); VNum (ssin angle)] ;;
  c1 <- new CVector [VNum (sneg (ssin angle)); VNum (scos angle)] ;;
  new CMatrix [c0; c1].

Definition convert (v m dv : value S) : M S (value S) :=
  p <- Matrix.__mul__ m v ;;
  py_add p dv.

End Functions.

(** ** The loop of [main]

    [main] keeps the square in the list [figure] and the points in the list
    [dots], whose length is [TOTAL_STEPS], and overwrites their items step
    by step.  Drawing and printing only read the two lists. *)

Section Driver.
Context {S : Type} `{Scalar S}.

Definition TOTAL_STEPS : nat := 8.

(** [for i in range(lo, hi): xs[i] = convert(xs[i], m, dv)] *)
Definition convert_range (xs : value S) (lo hi : nat) (m dv : value S) : M S unit :=
  foldM (fun (_ : unit) i =>
           p <- getitem xs i ;;
           q <- convert p m dv ;;
           setitem xs i q)
        tt (seq lo (hi - lo)).

(** [for step in range(1, TOTAL_STEPS): ...] *)
Definition main_loop (figure dots m dv : value S) : M S unit :=
  foldM (fun (_ : unit) step =>
           n <- py_len figure ;;
           convert_range figure 0 n m dv ;;;
           convert_range dots step TOTAL_STEPS m dv)
        tt (seq 1 (TOTAL_STEPS - 1)).

End Driver.

(** ** Drawing

    The canvas is the list of the items created on it so far, oldest
    first.  A function that draws takes the canvas and hands back the
    longer one. *)

Definition MAX_H : Z := 500.
Definition MAX_W : Z := 500.
Definition COLORS : list string :=
  ["red"; "green"; "blue"; "orange"; "magenta"; "cyan"; "brown"; "olive";
   "yellow"]%string.
Definition BG_COLOR : string := "white"%string.

(** The local constant of [draw_dots]. *)
Definition THICKNESS : Z := 1.

Section Drawing.
Context {S : Type} `{Scalar S}.

Inductive command :=
| create_line (x0 y0 x1 y1 : value S) (fill : string)
| create_polygon (coords : list (value S)) (outline fill : string)
| create_oval (x0 y0 x1 y1 : value S) (outline fill : string).

(** An integer literal or constant as an item. *)
Definition int (z : Z) : value S := VNum (of_int z).

(** [-x] on an item. *)
Definition neg (a : value S) : M S (value S) :=
  match a with
  | VNum x => ret (VNum (sneg x))
  | VRef _ => unmodelled
  end.

(** [t[i]] on a tuple, for any integer [i]: a negative index counts from
    the end. *)
Definition tuple_item {A} (t : list A) (i : Z) : M S A :=
  let j := if decide (i < 0)%Z then (i + Z.of_nat (length t))%Z else i in
  if decide (j < 0)%Z then raise IndexError
  else
    match t !! Z.to_nat j with
    | Some x => ret x
    | None => raise IndexError
    end.

(** [range(lo, hi, step)] for a positive [step]. *)
Definition range_step (lo hi step : nat) : list nat :=
  (fun k => lo + step * k) <$> seq 0 ((hi - lo + step - 1) / step).

(** The tuple is built from left to right. *)
Definition to_graphic_coords (pos : value S) : M S (value S * value S) :=
  x <- getitem pos 0 ;;
  gx <- arith sadd x (int (Z.shiftr MAX_W 1)) ;;
  y <- getitem pos 1 ;;
  ny <- neg y ;;
  gy <- arith sadd ny (int (Z.shiftr MAX_H 1)) ;;
  ret (gx, gy).

Definition construct_figure (xsize ysize : Z) : M S (value S) :=
  let xs := Z.shiftr xsize 1 in
  let ys := Z.shiftr ysize 1 in
  p0 <- new CVector [int xs; int ys] ;;
  p1 <- new CVector [int (- xs); int ys] ;;
  p2 <- new CVector [int (- xs); int (- ys)] ;;
  p3 <- new CVector [int xs; int (- ys)] ;;
  new CList [p0; p1; p2; p3].

(** What [tuple(convert_figure_for_draw(figure))] collects: the generator
    is only ever run to its end by [tuple]. *)
Definition convert_figure_for_draw (figure : value S) : M S (list (value S)) :=
  n <- py_len figure ;;
  pairs <- mapM (fun i => pos <- getitem figure i ;; to_graphic_coords pos)
                (range n) ;;
  ret (concat ((fun p : value S * value S => [p.1; p.2]) <$> pairs)).

Definition draw_figure (figure : value S) (color : string) (canvas : list command)
    : M S (list command) :=
  coords <- convert_figure_for_draw figure ;;
  ret (canvas ++ [create_polygon coords color BG_COLOR]).

(** [coords[i] - THICKNESS] and [coords[i] + THICKNESS]. *)
Definition shifted (op : S -> S -> S) (coords : list (value S)) (i : Z)
    : M S (value S) :=
  c <- tuple_item coords i ;; arith op c (int THICKNESS).

(** The two calls of [canvas.create_oval] in [draw_dots] differ in the
    index [i] and in the index [ci] of the colour only. *)
Definition oval_at (coords : list (value S)) (i ci : Z) (canvas : list command)
    : M S (list command) :=
  x0 <- shifted ssub coords i ;;
  y0 <- shifted ssub coords (i + 1) ;;
  x1 <- shifted sadd coords i ;;
  y1 <- shifted sadd coords (i + 1) ;;
  outline <- tuple_item COLORS ci ;;
  fill <- tuple_item COLORS ci ;;
  ret (canvas ++ [create_oval x0 y0 x1 y1 outline fill]).

Definition draw_dots (dots : value S) (canvas : list command) : M S (list command) :=
  coords <- convert_figure_for_draw dots ;;
  canvas <- oval_at coords 0 0 canvas ;;
  foldM (fun canvas n =>
           let i := Z.of_nat n in
           let color_i := (Z.shiftr i 1 `mod` Z.of_nat (length COLORS))%Z in
           x0 <- shifted ssub coords (i - 2) ;;
           y0 <- shifted ssub coords (i - 1) ;;
           x1 <- shifted sadd coords i ;;
           y1 <- shifted sadd coords (i + 1) ;;
           fill <- tuple_item COLORS (color_i - 1) ;;
           oval_at coords i color_i (canvas ++ [create_line x0 y0 x1 y1 fill]))
        canvas (range_step 2 (length coords) 2).

(** [main] from its first call of [draw_figure] to its call of
    [draw_dots]; what it prints is left out. *)
Definition main_drawing (figure dots m dv : value S) (canvas : list command)
    : M S (list command) :=
  color <- tuple_item COLORS 0 ;;
  canvas <- draw_figure figure color canvas ;;
  canvas <- foldM (fun canvas step =>
                     n <- py_len figure ;;
                     convert_range figure 0 n m dv ;;;
                     convert_range dots step TOTAL_STEPS m dv ;;;
                     color <- tuple_item COLORS
                                (Z.of_nat step `mod` Z.of_nat (length COLORS)) ;;
                     draw_figure figure color canvas)
                  canvas (seq 1 (TOTAL_STEPS - 1)) ;;
  draw_dots dots canvas.

End Drawing.

Arguments command S : clear implicits.

(** ** What the store holds, and the arithmetic the methods carry out *)

Section Reading.
Context {S : Type} `{Scalar S}.

(** [l] is a [Vector] of the numbers [xs]. *)
Definition vec_at (h : list (obj S)) (l : loc) (xs : list S) : Prop :=
  h !! l = Some (Obj CVector (VNum <$> xs)).

(** [l] is a [Matrix] whose columns are [Vector]s of the numbers [cs]. *)
Definition mat_at (h : list (obj S)) (l : loc) (cs : list (list S)) : Prop :=
  exists ls, h !! l = Some (Obj CMatrix (VRef <$> ls)) /\ Forall2 (vec_at h) ls cs.

(** [l] is a plain list of [Vector]s. *)
Definition points_at (h : list (obj S)) (l : loc) (ps : list (list S)) : Prop :=
  exists ls, h !! l = Some (Obj CList (VRef <$> ls)) /\ Forall2 (vec_at h) ls ps.

(** What holds of the store between two assignments of the loop of [main]:
    the transform is in place, [X] is the list being overwritten and holds
    points of [n] numbers, [Y] is the other list. *)
Definition scene (n : nat) (m dv : loc) (cs : list (list S)) (ds : list S)
    (X Y : loc) (qs ps : list (list S)) (h : list (obj S)) : Prop :=
  mat_at h m cs /\ vec_at h dv ds /\ points_at h X ps /\ points_at h Y qs /\
  Forall (fun p => length p = n) ps.

(** [cs] has [c] columns of [r] numbers each. *)
Definition shape (r c : nat) (cs : list (list S)) : Prop :=
  length cs = c /\ Forall (fun col => length col = r) cs.

(** [==] of two objects is [list.__eq__]: the classes play no part, the
    lengths must agree and so must the items, pair by pair. *)
#[warnings="-register-all"] Inductive py_eq (h : list (obj S)) : value S -> value S -> Prop :=
| py_eq_num x : py_eq h (VNum x) (VNum x)
| py_eq_obj l1 l2 o1 o2 :
    h !! l1 = Some o1 -> h !! l2 = Some o2 ->
    Forall2 (py_eq h) (obj_items o1) (obj_items o2) ->
    py_eq h (VRef l1) (VRef l2).

(** The store only grows and no object in it changes. *)
Definition heap_ext (st st' : state S) : Prop := heap st `prefix_of` heap st'.

(** [m] returns from [st], and its result and the store it leaves satisfy
    [Q]. *)
Definition returns {A} (m : M S A) (st : state S)
    (Q : A -> list (obj S) -> Prop) : Prop :=
  exists a st', m st = (Ok a, st') /\ Q a (heap st').

(** Whatever [m] does, it leaves a store that extends the one it started
    from. *)
Definition grows {A} (m : M S A) : Prop :=
  forall st, heap st `prefix_of` heap (m st).2.

(** [m] raises [e] from [st]. *)
Definition raises {A} (m : M S A) (st : state S) (e : exn) : Prop :=
  exists st', m st = (Raise e, st').

(** [sum(x1 * x2 for x1, x2 in zip(xs, ys))] *)
Definition dot (xs ys : list S) : S :=
  fold_left (fun acc p => sadd acc (smul p.1 p.2)) (zip xs ys) (of_int 0).

(** Row [i] of the columns [cs]. *)
Definition row (cs : list (list S)) (i : nat) : list S :=
  (fun col => nth i col (of_int 0)) <$> cs.

Definition mat_vec (r : nat) (cs : list (list S)) (xs : list S) : list S :=
  (fun i => dot (row cs i) xs) <$> seq 0 r.

Definition mat_mul (r : nat) (a b : list (list S)) : list (list S) :=
  mat_vec r a <$> b.

Definition identity_cols (n : nat) : list (list S) :=
  (fun i => (fun j => of_int (if decide (j = i) then 1 else 0)%Z) <$> seq 0 n) <$> seq 0 n.

(** One round of the sum that multiplies row [i] of the identity matrix
    with a vector whose item [j] is [f j]. *)
Definition unit_term (i : nat) (f : nat -> S) (acc : S) (j : nat) : S :=
  sadd acc (smul (of_int (if decide (i = j) then 1 else 0)%Z) (f j)).

(** What [for i in range(lo, hi): xs[i] = f(xs[i])] makes of the list
    [xs]. *)
Definition apply_range {A} (f : A -> A) (lo hi : nat) (xs : list A) : list A :=
  fold_left (fun acc i => alter f i acc) (seq lo (hi - lo)) xs.

(** What the steps [1 .. total - 1] of the loop of [main] make of the
    square and of the points. *)
Definition advance {A} (f : A -> A) (total : nat) (xs : list A) : list A :=
  fold_left (fun acc _ => apply_range f 0 (length acc) acc) (seq 1 (total - 1)) xs.

Definition stagger {A} (f : A -> A) (total : nat) (xs : list A) : list A :=
  fold_left (fun acc step => apply_range f step total acc) (seq 1 (total - 1)) xs.

(** How often item [i] of the object [l] has been assigned to. *)
Definition is_write_at (l : loc) (i : nat) (ev : event) : bool :=
  match ev with
  | EvWrite l' i' => (l =? l') && (i =? i')
  | _ => false
  end.

Definition assignments (l : loc) (i : nat) (tr : list event) : nat :=
  length (List.filter (is_write_at l i) tr).

(** In how many of the steps [s .. s + len - 1] the second loop of [main]
    reaches index [i]. *)
Definition steps_reaching (total i s len : nat) : nat :=
  length (List.filter (fun step => (step <=? i) && (i <? step + (total - step)))
                      (seq s len)).

(** [m] assigns to no item. *)
Definition silent {A} (m : M S A) : Prop :=
  forall st l i, assignments l i (trace (m st).2) = assignments l i (trace st).

(** [m] raises [e] from [st] and leaves a store that satisfies [Q]. *)
Definition raises_with {A} (m : M S A) (st : state S) (e : exn)
    (Q : list (obj S) -> Prop) : Prop :=
  exists st', m st = (Raise e, st') /\ Q (heap st').

(** The items of a vector after the first [n] rounds of
    [self[i] op= other[i]]. *)
Fixpoint updated_prefix (op : S -> S -> S) (n : nat) (xs ys : list S) : list S :=
  match n, xs, ys with
  | Datatypes.S n', x :: xs', y :: ys' => op x y :: updated_prefix op n' xs' ys'
  | _, _, _ => xs
  end.

(** [m * v + dv] on the numbers. *)
Definition affine (r : nat) (m : list (list S)) (d v : list S) : list S :=
  zip_with sadd (mat_vec r m v) d.

(** [m] changes no object that is in the store and assigns to no item,
    however it ends. *)
Definition frame {A} (m : M S A) : Prop := grows m /\ silent m.

(** Whatever [m] does, an object whose address is not in [X] is found as it
    was. *)
Definition changes_only {A} (X : list loc) (m : M S A) : Prop :=
  forall st l o, l ∉ X -> heap st !! l = Some o -> heap (m st).2 !! l = Some o.

(** The store [h'] after the rounds [0 .. k - 1] of [self[i] op= other[i]]
    on two matrices, started in the store [h], where the columns of [self]
    were the objects [la] with the numbers [A] and those of [other] held
    [B]. *)
Definition columns_updated (op : S -> S -> S) (h : list (obj S)) (la : list loc)
    (A B : list (list S)) (k : nat) (h' : list (obj S)) : Prop :=
  length h' = length h /\
  (forall l, l ∉ la -> h' !! l = h !! l) /\
  (forall i l, la !! i = Some l ->
     vec_at h' l (if decide (i < k) then zip_with op (nth i A []) (nth i B [])
                  else nth i A [])).

(** The sum of [f j] over the indices [l], accumulated from the integer
    [0] as [sum] does. *)
Definition sum_over (f : nat -> S) (l : list nat) : S :=
  fold_left (fun acc j => sadd acc (f j)) l (of_int 0).

End Reading.

(** ** What is drawn *)

Section Drawn.
Context {S : Type} `{Scalar S}.

(** Where the point [p] lands on the canvas. *)
Definition graphic_x (p : list S) : S :=
  sadd (nth 0 p (of_int 0)) (of_int (Z.shiftr MAX_W 1)).

Definition graphic_y (p : list S) : S :=
  sadd (sneg (nth 1 p (of_int 0))) (of_int (Z.shiftr MAX_H 1)).

Definition graphic_coords (ps : list (list S)) : list S :=
  concat ((fun p => [graphic_x p; graphic_y p]) <$> ps).

(** The colour of dot [k]. *)
Definition color_of (k : nat) : string :=
  nth (k mod length COLORS) COLORS EmptyString.

(** The oval around the point [p] and the line from [p] to [q], both
    widened by [THICKNESS]. *)
Definition oval_around (p : list S) (color : string) : command S :=
  create_oval (VNum (ssub (graphic_x p) (of_int THICKNESS)))
              (VNum (ssub (graphic_y p) (of_int THICKNESS)))
              (VNum (sadd (graphic_x p) (of_int THICKNESS)))
              (VNum (sadd (graphic_y p) (of_int THICKNESS)))
              color color.

Definition line_between (p q : list S) (color : string) : command S :=
  create_line (VNum (ssub (graphic_x p) (of_int THICKNESS)))
              (VNum (ssub (graphic_y p) (of_int THICKNESS)))
              (VNum (sadd (graphic_x q) (of_int THICKNESS)))
              (VNum (sadd (graphic_y q) (of_int THICKNESS)))
              color.

(** What one round of the loop of [draw_dots] creates for the dot
    [k + 1]. *)
Definition dot_round (ps : list (list S)) (k : nat) : list (command S) :=
  [line_between (nth k ps []) (nth (Datatypes.S k) ps []) (color_of k);
   oval_around (nth (Datatypes.S k) ps []) (color_of (Datatypes.S k))].

(** What [draw_dots] creates for the dots [ps]. *)
Definition dots_commands (ps : list (list S)) : list (command S) :=
  match ps with
  | [] => []
  | p :: _ =>
      oval_around p (color_of 0) :: concat (dot_round ps <$> seq 0 (length ps - 1))
  end.

(** What [draw_figure] creates for the points [ps]. *)
Definition polygon (ps : list (list S)) (color : string) : command S :=
  create_polygon (VNum <$> graphic_coords ps) color BG_COLOR.

(** What one step of the loop of [main] makes of the square, of the dots
    and of the items it has drawn so far. *)
Definition drawing_step (f : list S -> list S) (total : nat)
    (c : list (list S) * list (list S) * list (command S)) (step : nat)
    : list (list S) * list (list S) * list (command S) :=
  let fs := apply_range f 0 (length c.1.1) c.1.1 in
  (fs, apply_range f step total c.1.2, c.2 ++ [polygon fs (color_of step)]).

End Drawn.

(** A scene to run the loop on: the identity transform shifted by
    [(1, 0)], a square of four points and eight points at the origin. *)
Definition demo_scene : state Z :=
  State [Obj CVector [VNum 1%Z; VNum 0%Z]; Obj CVector [VNum 0%Z; VNum 1%Z];
         Obj CMatrix [VRef 0; VRef 1];
         Obj CVector [VNum 1%Z; VNum 0%Z];
         Obj CVector [VNum 2%Z; VNum 2%Z]; Obj CVector [VNum (-2)%Z; VNum 2%Z];
         Obj CVector [VNum (-2)%Z; VNum (-2)%Z]; Obj CVector [VNum 2%Z; VNum (-2)%Z];
         Obj CList [VRef 4; VRef 5; VRef 6; VRef 7];
         Obj CVector [VNum 0%Z; VNum 0%Z]; Obj CVector [VNum 0%Z; VNum 0%Z];
         Obj CVector [VNum 0%Z; VNum 0%Z]; Obj CVector [VNum 0%Z; VNum 0%Z];
         Obj CVector [VNum 0%Z; VNum 0%Z]; Obj CVector [VNum 0%Z; VNum 0%Z];
         Obj CVector [VNum 0%Z; VNum 0%Z]; Obj CVector [VNum 0%Z; VNum 0%Z];
         Obj CList [VRef 9; VRef 10; VRef 11; VRef 12; VRef 13; VRef 14; VRef 15; VRef 16]]
        [].

Definition demo_square : list (list Z) :=
  [[2; 2]; [-2; 2]; [-2; -2]; [2; -2]]%Z.

Definition demo_dots : list (list Z) := replicate 8 [0; 0]%Z.

(** * Proofs *)

#[export] Instance Z_laws : ScalarLaws Z.
Proof. split; intros; simpl; lia. Qed.

(** ** Rules for computations that return *)

Section Rules.
Context {S : Type} `{Scalar S}.
Implicit Types (st : state S) (h : list (obj S)) (l : loc).

Lemma returns_ret {A} (a : A) h st Q :
  heap st = h -> Q a h -> returns (ret a) st Q.
Proof. intros <- HQ. exists a, st. done. Qed.

Lemma returns_bind {A B} (m : M S A) (k : A -> M S B) st Q :
  returns m st (fun a h' => forall st', heap st' = h' -> returns (k a) st' Q) ->
  returns (bind m k) st Q.
Proof.
  intros (a & st1 & Hm & Hk).
  destruct (Hk st1 eq_refl) as (b & st2 & Hb & HQ).
  exists b, st2. unfold bind. rewrite Hm. done.
Qed.

Lemma returns_mono {A} (m : M S A) st (Q Q' : A -> list (obj S) -> Prop) :
  returns m st Q -> (forall a h, Q a h -> Q' a h) -> returns m st Q'.
Proof. intros (a & st' & Hm & HQ) Himp. exists a, st'. auto. Qed.

Lemma returns_len l o h st Q :
  heap st = h -> h !! l = Some o -> Q (length (obj_items o)) h ->
  returns (py_len (VRef l)) st Q.
Proof.
  intros <- Hl HQ. exists (length (obj_items o)), st.
  unfold py_len, bind, deref, ret. rewrite Hl. done.
Qed.

Lemma returns_isinstance l o c h st Q :
  heap st = h -> h !! l = Some o -> Q (cls_eqb (obj_cls o) c) h ->
  returns (isinstance (VRef l) c) st Q.
Proof.
  intros <- Hl HQ. exists (cls_eqb (obj_cls o) c), st.
  unfold isinstance, bind, deref, ret. rewrite Hl. done.
Qed.

Lemma returns_getitem l o i x h st Q :
  heap st = h -> h !! l = Some o -> obj_items o !! i = Some x -> Q x h ->
  returns (getitem (VRef l) i) st Q.
Proof.
  intros <- Hl Hi HQ. exists x, (State (heap st) (trace st ++ [EvRead l i])).
  unfold getitem, bind, deref, ret, log. rewrite Hl, Hi. done.
Qed.

Lemma returns_new c items h st Q :
  heap st = h -> Q (VRef (length h)) (h ++ [Obj c items]) ->
  returns (new c items) st Q.
Proof. intros <- HQ. eexists _, _. split; [reflexivity | done]. Qed.

Lemma returns_arith op x y h st Q :
  heap st = h -> Q (VNum (op x y)) h ->
  returns (arith op (VNum x) (VNum y)) st Q.
Proof. intros <- HQ. exists (VNum (op x y)), st. done. Qed.

(** The same steps as equations, for computations that raise. *)
Lemma bind_ok {A B} (m : M S A) (k : A -> M S B) st a st' :
  m st = (Ok a, st') -> bind m k st = k a st'.
Proof. intros Hm. unfold bind. by rewrite Hm. Qed.

Lemma bind_raise {A B} (m : M S A) (k : A -> M S B) st e st' :
  m st = (Raise e, st') -> bind m k st = (Raise e, st').
Proof. intros Hm. unfold bind. by rewrite Hm. Qed.

Lemma bind_inv {A B} (m : M S A) (k : A -> M S B) st b st' :
  bind m k st = (Ok b, st') ->
  exists a st1, m st = (Ok a, st1) /\ k a st1 = (Ok b, st').
Proof.
  unfold bind. destruct (m st) as [[a| |] st1]; [|done..].
  intros Hk. by exists a, st1.
Qed.

Lemma isinstance_ref l o c st :
  heap st !! l = Some o ->
  isinstance (VRef l) c st = (Ok (cls_eqb (obj_cls o) c), st).
Proof. intros Hl. unfold isinstance, bind, deref, ret. by rewrite Hl. Qed.

Lemma py_len_ref l o st :
  heap st !! l = Some o -> py_len (VRef l) st = (Ok (length (obj_items o)), st).
Proof. intros Hl. unfold py_len, bind, deref, ret. by rewrite Hl. Qed.

Lemma getitem_ref l o i x st :
  heap st !! l = Some o -> obj_items o !! i = Some x ->
  getitem (VRef l) i st = (Ok x, State (heap st) (trace st ++ [EvRead l i])).
Proof.
  intros Hl Hi. unfold getitem, bind, deref, ret, log. by rewrite Hl, Hi.
Qed.

Lemma raises_bind {A B} (m : M S A) (k : A -> M S B) st e :
  returns m st (fun a h' => forall st', heap st' = h' -> raises (k a) st' e) ->
  raises (bind m k) st e.
Proof.
  intros (a & st1 & Hm & Hk). destruct (Hk st1 eq_refl) as (st2 & Hraise).
  exists st2. by rewrite (bind_ok _ _ _ _ _ Hm).
Qed.

Lemma raises_first {A B} (m : M S A) (k : A -> M S B) st e :
  raises m st e -> raises (bind m k) st e.
Proof. intros (st' & Hm). exists st'. by apply bind_raise. Qed.

Lemma raises_raise {A} e st : raises (raise e : M S A) st e.
Proof. by exists st. Qed.

(** A loop whose rounds leave the store alone. *)
Lemma returns_mapM_pure {A B} (f : A -> M S B) (g : A -> B) (xs : list A) h :
  (forall x st, x ∈ xs -> heap st = h ->
     returns (f x) st (fun b h' => h' = h /\ b = g x)) ->
  forall st, heap st = h ->
    returns (mapM f xs) st (fun bs h' => h' = h /\ bs = g <$> xs).
Proof.
  induction xs as [|x xs IH]; intros Hf st Hst.
  - by eapply returns_ret.
  - simpl. apply returns_bind.
    eapply returns_mono; [apply Hf; [left | done] |].
    intros b h' [-> ->] st1 Hst1. apply returns_bind.
    eapply returns_mono; [apply IH; [|done] |].
    + intros y st2 Hy. apply Hf. by right.
    + intros bs h' [-> ->] st2 Hst2. by eapply returns_ret.
Qed.

Lemma returns_foldM_pure {A B C} (inj : C -> B) (f : B -> A -> M S B)
    (g : C -> A -> C) (xs : list A) h :
  (forall c x st, x ∈ xs -> heap st = h ->
     returns (f (inj c) x) st (fun b h' => h' = h /\ b = inj (g c x))) ->
  forall c st, heap st = h ->
    returns (foldM f (inj c) xs) st
            (fun b h' => h' = h /\ b = inj (fold_left g xs c)).
Proof.
  induction xs as [|x xs IH]; intros Hf c st Hst.
  - by eapply returns_ret.
  - simpl. apply returns_bind.
    eapply returns_mono; [apply Hf; [left | done] |].
    intros b h' [-> ->] st1 Hst1.
    apply IH; [|done]. intros c' y st2 Hy. apply Hf. by right.
Qed.

(** A loop whose rounds may allocate: what a round established survives
    the later ones when it is stable under growth of the store. *)
Lemma returns_mapM_grow {A B} (f : A -> M S B)
    (R : A -> B -> list (obj S) -> Prop) (xs : list A) h0 :
  (forall x b h h', R x b h -> h `prefix_of` h' -> R x b h') ->
  (forall x st, x ∈ xs -> h0 `prefix_of` heap st ->
     returns (f x) st (fun b h' => heap st `prefix_of` h' /\ R x b h')) ->
  forall st, h0 `prefix_of` heap st ->
    returns (mapM f xs) st
            (fun bs h' => heap st `prefix_of` h' /\ Forall2 (fun x b => R x b h') xs bs).
Proof.
  intros Hstable.
  induction xs as [|x xs IH]; intros Hf st Hst.
  - eapply returns_ret; [done |]. split; [done | constructor].
  - simpl. apply returns_bind.
    eapply returns_mono; [apply Hf; [left | done] |].
    intros b h1 [Hext HR] st1 Hst1. subst h1. apply returns_bind.
    eapply returns_mono; [apply IH |].
    + intros y st2 Hy. apply Hf. by right.
    + by etrans.
    + intros bs h2 [Hext2 HF] st2 Hst2. subst h2.
      eapply returns_ret; [done |]. split; [by etrans |].
      constructor; [by eapply Hstable | done].
Qed.

End Rules.

(** ** Lists read by index *)

Section Indexing.

Lemma zip_with_by_index {A B C} (f : A -> B -> C) (da : A) (db : B) xs ys n :
  length xs = n -> length ys = n ->
  zip_with f xs ys = (fun i => f (nth i xs da) (nth i ys db)) <$> seq 0 n.
Proof.
  intros Hx Hy. apply list_eq. intros i.
  rewrite lookup_zip_with, list_lookup_fmap.
  destruct (decide (i < n)) as [Hi|Hi].
  - rewrite lookup_seq_lt by done. simpl.
    destruct (lookup_lt_is_Some_2 xs i) as [x Ex]; [lia|].
    destruct (lookup_lt_is_Some_2 ys i) as [y Ey]; [lia|].
    rewrite Ex, Ey. simpl.
    by rewrite (nth_lookup_Some _ _ _ _ Ex), (nth_lookup_Some _ _ _ _ Ey).
  - rewrite lookup_seq_ge by lia. simpl.
    rewrite (lookup_ge_None_2 xs i) by lia. done.
Qed.

Lemma fold_zip_by_index {A B C} (f : C -> A -> B -> C) (da : A) (db : B) xs ys n c :
  length xs = n -> length ys = n ->
  fold_left (fun acc p => f acc p.1 p.2) (zip xs ys) c
  = fold_left (fun acc i => f acc (nth i xs da) (nth i ys db)) (seq 0 n) c.
Proof.
  intros Hx Hy.
  pose proof (zip_with_by_index pair da db xs ys n Hx Hy) as Hzip.
  rewrite Hzip. clear Hzip.
  generalize (seq 0 n) c. intros ks. induction ks as [|i ks IH]; intros c'; [done|].
  simpl. apply IH.
Qed.

End Indexing.

(** ** Vector *)

Section VectorProofs.
Context {S : Type} `{Scalar S}.
Implicit Types (st : state S) (h : list (obj S)).

Lemma vec_item h l xs i x :
  vec_at h l xs -> xs !! i = Some x ->
  exists o, h !! l = Some o /\ obj_items o !! i = Some (VNum x).
Proof.
  intros Hl Hx. eexists. split; [exact Hl|]. simpl.
  by rewrite list_lookup_fmap, Hx.
Qed.

Lemma returns_vec_item h st l xs i Q :
  heap st = h -> vec_at h l xs -> i < length xs ->
  Q (VNum (nth i xs (of_int 0%Z))) h ->
  returns (getitem (VRef l) i) st Q.
Proof.
  intros Hst Hl Hi HQ.
  destruct (lookup_lt_is_Some_2 xs i Hi) as [x Hx].
  destruct (vec_item _ _ _ _ _ Hl Hx) as (o & Ho & Hoi).
  rewrite (nth_lookup_Some _ _ _ _ Hx) in HQ.
  by eapply returns_getitem.
Qed.

Lemma returns_ensure_compatibility h st a b xs ys Q :
  heap st = h -> vec_at h a xs -> vec_at h b ys -> length xs = length ys ->
  Q RNone h ->
  returns (Vector._ensure_compatibility (VRef a) (VRef b)) st Q.
Proof.
  intros Hst Ha Hb Hlen HQ. unfold Vector._ensure_compatibility.
  apply returns_bind. eapply returns_isinstance; [done..|]. simpl.
  intros st1 Hst1. apply returns_bind. eapply returns_len; [done..|].
  intros st2 Hst2. apply returns_bind. eapply returns_len; [done..|].
  intros st3 Hst3. simpl. rewrite !length_fmap.
  destruct (decide _) as [Hne|_]; [done|]. by eapply returns_ret.
Qed.

Lemma returns_zip_mapM op h st a b xs ys :
  heap st = h -> vec_at h a xs -> vec_at h b ys -> length xs = length ys ->
  returns (zip_mapM (arith op) (VRef a) (VRef b)) st
          (fun items h' => h' = h /\ items = VNum <$> zip_with op xs ys).
Proof.
  intros Hst Ha Hb Hlen. unfold zip_mapM.
  apply returns_bind. eapply returns_len; [done..|].
  intros st1 Hst1. apply returns_bind. eapply returns_len; [done..|].
  intros st2 Hst2. simpl. rewrite !length_fmap, <- Hlen, Nat.min_id.
  apply returns_bind.
  eapply returns_mono.
  { apply (returns_mapM_pure _
             (fun i => VNum (op (nth i xs (of_int 0%Z)) (nth i ys (of_int 0%Z)))) _ h);
      [|done].
    intros i st3 Hi%elem_of_seq Hst3. apply returns_bind. unfold zip_next.
    apply returns_bind. eapply returns_vec_item; [done.. | lia |].
    intros st4 Hst4. apply returns_bind.
    eapply returns_vec_item; [done.. | lia |].
    intros st5 Hst5. eapply returns_ret; [done|].
    intros st6 Hst6. simpl. by eapply returns_arith. }
  intros items h' [-> ->] st3 Hst3. apply returns_bind.
  unfold zip_stop. destruct (decide _) as [Hlt|_]; [lia|].
  eapply returns_ret; [done|]. intros st4 Hst4.
  eapply returns_ret; [done|]. split; [done|].
  rewrite (zip_with_by_index op (of_int 0%Z) (of_int 0%Z) xs ys (length xs)) by done.
  by rewrite <- list_fmap_compose.
Qed.

Lemma returns_zip_sumM h st a b xs ys :
  heap st = h -> vec_at h a xs -> vec_at h b ys -> length xs = length ys ->
  returns (zip_sumM (arith smul) (VRef a) (VRef b)) st
          (fun total h' => h' = h /\ total = VNum (dot xs ys)).
Proof.
  intros Hst Ha Hb Hlen. unfold zip_sumM.
  apply returns_bind. eapply returns_len; [done..|].
  intros st1 Hst1. apply returns_bind. eapply returns_len; [done..|].
  intros st2 Hst2. simpl. rewrite !length_fmap, <- Hlen, Nat.min_id.
  apply returns_bind.
  eapply returns_mono.
  { apply (returns_foldM_pure VNum _
             (fun acc i => sadd acc (smul (nth i xs (of_int 0%Z)) (nth i ys (of_int 0%Z))))
             _ h); [|done].
    intros acc i st3 Hi%elem_of_seq Hst3. apply returns_bind. unfold zip_next.
    apply returns_bind. eapply returns_vec_item; [done.. | lia |].
    intros st4 Hst4. apply returns_bind.
    eapply returns_vec_item; [done.. | lia |].
    intros st5 Hst5. eapply returns_ret; [done|].
    intros st6 Hst6. simpl. apply returns_bind. eapply returns_arith; [done|].
    intros st7 Hst7. by eapply returns_arith. }
  intros total h' [-> ->] st3 Hst3. apply returns_bind.
  unfold zip_stop. destruct (decide _) as [Hlt|_]; [lia|].
  eapply returns_ret; [done|]. intros st4 Hst4.
  eapply returns_ret; [done|]. split; [done|]. f_equal. unfold dot.
  by rewrite (fold_zip_by_index (fun acc x y => sadd acc (smul x y))
                (of_int 0%Z) (of_int 0%Z) xs ys (length xs)).
Qed.

Lemma returns_add h st a b xs ys :
  heap st = h -> vec_at h a xs -> vec_at h b ys -> length xs = length ys ->
  returns (Vector.__add__ (VRef a) (VRef b)) st
          (fun r h' => r = VRef (length h) /\
                       h' = h ++ [Obj CVector (VNum <$> zip_with sadd xs ys)]).
Proof.
  intros Hst Ha Hb Hlen. unfold Vector.__add__.
  apply returns_bind. eapply returns_ensure_compatibility; [done..|].
  intros st1 Hst1. apply returns_bind.
  eapply returns_mono; [by eapply returns_zip_mapM|].
  intros items h' [-> ->] st2 Hst2. by eapply returns_new.
Qed.

Lemma returns_scalar_prod h st a b xs ys :
  heap st = h -> vec_at h a xs -> vec_at h b ys -> length xs = length ys ->
  returns (Vector.scalar_prod (VRef a) (VRef b)) st
          (fun r h' => h' = h /\ r = VNum (dot xs ys)).
Proof.
  intros Hst Ha Hb Hlen. unfold Vector.scalar_prod.
  apply returns_bind. eapply returns_ensure_compatibility; [done..|].
  intros st1 Hst1. by eapply returns_zip_sumM.
Qed.

Lemma vec_at_grow h h' l xs : vec_at h l xs -> h `prefix_of` h' -> vec_at h' l xs.
Proof. intros Hl Hp. by eapply prefix_lookup_Some. Qed.

Lemma vec_at_new h xs : vec_at (h ++ [Obj CVector (VNum <$> xs)]) (length h) xs.
Proof. unfold vec_at. by rewrite lookup_app_r, Nat.sub_diag. Qed.

End VectorProofs.

(** ** Matrix *)

Section MatrixProofs.
Context {S : Type} `{Scalar S}.
Implicit Types (st : state S) (h : list (obj S)) (cs : list (list S)).

Lemma fmap_by_index {A B} (f : A -> B) (d : A) (xs : list A) :
  f <$> xs = (fun j => f (nth j xs d)) <$> seq 0 (length xs).
Proof.
  apply list_eq. intros i. rewrite !list_lookup_fmap.
  destruct (decide (i < length xs)) as [Hi|Hi].
  - rewrite lookup_seq_lt by done. simpl.
    destruct (lookup_lt_is_Some_2 xs i Hi) as [x Hx].
    by rewrite Hx, (nth_lookup_Some _ _ _ _ Hx).
  - rewrite lookup_seq_ge by lia. by rewrite lookup_ge_None_2 by lia.
Qed.

Lemma Forall2_results {A B} (g : A -> B) (xs : list A) (bs : list B) :
  Forall2 (fun x b => b = g x) xs bs -> bs = g <$> xs.
Proof. induction 1 as [|x b xs bs -> _ ->]; by simpl. Qed.

Lemma Forall2_vectors {A} h n (g : A -> list S) (xs : list A) (bs : list (value S)) :
  Forall2 (fun x b => exists l, b = VRef l /\ n <= l /\ vec_at h l (g x)) xs bs ->
  exists ls, bs = VRef <$> ls /\ Forall2 (vec_at h) ls (g <$> xs) /\
             Forall (fun l => n <= l) ls.
Proof.
  induction 1 as [|x b xs bs (l & -> & Hn & Hl) _ (ls & -> & IH & Hall)].
  - exists []. repeat split; constructor.
  - exists (l :: ls). repeat split; simpl; by constructor.
Qed.

Lemma mat_at_grow h h' m cs : mat_at h m cs -> h `prefix_of` h' -> mat_at h' m cs.
Proof.
  intros (ls & Hm & Hcols) Hp. exists ls. split.
  - by eapply prefix_lookup_Some.
  - eapply Forall2_impl; [exact Hcols|]. intros l c Hl. by eapply vec_at_grow.
Qed.

Lemma mat_at_length h m cs o :
  mat_at h m cs -> h !! m = Some o -> length (obj_items o) = length cs.
Proof.
  intros (ls & Hm & Hcols) Ho. rewrite Hm in Ho. injection Ho as <-. simpl.
  rewrite length_fmap. by eapply Forall2_length.
Qed.

Lemma mat_col h m cs j col :
  mat_at h m cs -> cs !! j = Some col ->
  exists o l, h !! m = Some o /\ obj_items o !! j = Some (VRef l) /\ vec_at h l col.
Proof.
  intros (ls & Hm & Hcols) Hj.
  destruct (Forall2_lookup_r _ _ _ _ _ Hcols Hj) as (l & Hl & Hv).
  exists (Obj CMatrix (VRef <$> ls)), l. repeat split; [done | | done].
  simpl. by rewrite list_lookup_fmap, Hl.
Qed.

Lemma returns_cols h st m cs Q :
  heap st = h -> mat_at h m cs -> Q (length cs) h ->
  returns (Matrix.cols (VRef m)) st Q.
Proof.
  intros Hst Hm HQ. pose proof Hm as (ls & Ho & _).
  unfold Matrix.cols. eapply returns_len; [done..|].
  by rewrite (mat_at_length _ _ _ _ Hm Ho).
Qed.

Lemma returns_column h st m cs j col Q :
  heap st = h -> mat_at h m cs -> cs !! j = Some col ->
  (forall l, vec_at h l col -> Q (VRef l) h) ->
  returns (getitem (VRef m) j) st Q.
Proof.
  intros Hst Hm Hj HQ.
  destruct (mat_col _ _ _ _ _ Hm Hj) as (o & l & Ho & Hoj & Hl).
  eapply returns_getitem; [done..|]. by apply HQ.
Qed.

Lemma shape_col r c cs j col : shape r c cs -> cs !! j = Some col -> length col = r.
Proof.
  intros [_ Hall] Hj. rewrite Forall_lookup in Hall. by eapply Hall.
Qed.

Lemma shape_lookup r c cs j :
  shape r c cs -> j < c -> exists col, cs !! j = Some col /\ length col = r.
Proof.
  intros Hs Hj. pose proof Hs as [Hc _].
  destruct (lookup_lt_is_Some_2 cs j) as [col Hcol]; [lia|].
  exists col. split; [done|]. by eapply shape_col.
Qed.

Lemma returns_rows h st m cs r c Q :
  heap st = h -> mat_at h m cs -> shape r c cs -> 0 < c -> Q r h ->
  returns (Matrix.rows (VRef m)) st Q.
Proof.
  intros Hst Hm Hs Hc HQ. unfold Matrix.rows.
  destruct (shape_lookup _ _ _ 0 Hs Hc) as (col & Hcol & Hlen).
  apply returns_bind. eapply returns_column; [done..|].
  intros l Hl st1 Hst1. eapply returns_len; [done..|].
  simpl. by rewrite length_fmap, Hlen.
Qed.

Lemma returns_row_vector h st m cs r c i :
  heap st = h -> mat_at h m cs -> shape r c cs -> i < r ->
  returns (Matrix.row_vector (VRef m) i) st
          (fun v h' => v = VRef (length h) /\
                       h' = h ++ [Obj CVector (VNum <$> row cs i)]).
Proof.
  intros Hst Hm Hs Hi. unfold Matrix.row_vector.
  apply returns_bind. eapply returns_cols; [done..|].
  intros st1 Hst1. apply returns_bind.
  eapply returns_mono.
  { apply (returns_mapM_pure _
             (fun j => VNum (nth i (nth j cs []) (of_int 0%Z))) _ h); [|done].
    intros j st2 Hj%elem_of_seq Hst2.
    destruct (shape_lookup r (length cs) cs j) as (col & Hcol & Hlen);
      [by destruct Hs | lia |].
    apply returns_bind. eapply returns_column; [done..|].
    intros l Hl st3 Hst3. eapply returns_vec_item; [done.. | lia |].
    split; [done|]. by rewrite (nth_lookup_Some _ _ _ _ Hcol). }
  intros items h' [-> ->] st2 Hst2. eapply returns_new; [done|].
  split; [done|]. do 3 f_equal. unfold row.
  rewrite (fmap_by_index (fun col => nth i col (of_int 0%Z)) []).
  by rewrite <- list_fmap_compose.
Qed.

Lemma length_row cs i : length (row cs i) = length cs.
Proof. unfold row. by rewrite length_fmap. Qed.

Lemma length_identity_cols n : length (identity_cols n : list (list S)) = n.
Proof. unfold identity_cols. by rewrite length_fmap, length_seq. Qed.

Lemma shape_identity_cols n : shape n n (identity_cols n : list (list S)).
Proof.
  split; [apply length_identity_cols|].
  unfold identity_cols. apply Forall_fmap, Forall_forall. intros i _. simpl.
  by rewrite length_fmap, length_seq.
Qed.

Lemma length_mat_vec r cs xs : length (mat_vec r cs xs) = r.
Proof. unfold mat_vec. by rewrite length_fmap, length_seq. Qed.

(** One column of a product.  [rhs] hands out the same [Vector] of [ys]
    in every round without touching the store. *)
Lemma returns_product_column h st m cs r c (rhs : M S (value S)) ys :
  heap st = h -> mat_at h m cs -> shape r c cs -> 0 < c -> length ys = c ->
  (forall st1, h `prefix_of` heap st1 ->
     returns rhs st1 (fun v h' => h' = heap st1 /\ exists b, v = VRef b /\ vec_at h' b ys)) ->
  returns (Matrix.product_column (VRef m) rhs) st
          (fun v h' => h `prefix_of` h' /\
                       exists l, v = VRef l /\ length h <= l /\
                                 vec_at h' l (mat_vec r cs ys)).
Proof.
  intros Hst Hm Hs Hc Hys Hrhs. unfold Matrix.product_column.
  apply returns_bind. eapply returns_rows; [done..|].
  intros st1 Hst1. apply returns_bind.
  eapply returns_mono.
  { apply (returns_mapM_grow _ (fun i b _ => b = VNum (dot (row cs i) ys)) _ h).
    - done.
    - intros i st2 Hi%elem_of_seq Hst2. apply returns_bind.
      eapply returns_mono.
      { eapply returns_row_vector; [reflexivity | by eapply mat_at_grow | done | lia]. }
      intros v h1 [-> ->] st3 Hst3. apply returns_bind.
      eapply returns_mono.
      { apply Hrhs. rewrite Hst3. etrans; [done|]. by apply prefix_app_r. }
      intros v h2 (-> & b & -> & Hb) st4 Hst4.
      eapply returns_mono.
      { eapply returns_scalar_prod; [done | | done |].
        - rewrite Hst3. apply vec_at_new.
        - rewrite length_row. destruct Hs as [-> _]. done. }
      intros v h3 [-> ->]. split; [|done]. rewrite Hst3. by apply prefix_app_r.
    - by rewrite Hst1. }
  intros items h1 [Hext Hitems] st2 Hst2.
  apply Forall2_results in Hitems. subst items.
  eapply returns_new; [done|]. rewrite Hst1 in Hext. split.
  - etrans; [done|]. by apply prefix_app_r.
  - exists (length h1). repeat split.
    + by apply prefix_length.
    + unfold mat_vec, vec_at. rewrite lookup_app_r, Nat.sub_diag by done.
      simpl. by rewrite <- list_fmap_compose.
Qed.

Lemma returns_product_matrix h st a b A B r c :
  heap st = h -> mat_at h a A -> shape r c A -> 0 < c ->
  mat_at h b B -> Forall (fun col => length col = c) B ->
  returns (Matrix.product_matrix (VRef a) (VRef b)) st
          (fun v h' => h `prefix_of` h' /\
             exists p ls, v = VRef p /\ length h <= p /\
                          Forall (fun l => length h <= l) ls /\
                          h' !! p = Some (Obj CMatrix (VRef <$> ls)) /\
                          Forall2 (vec_at h') ls (mat_mul r A B)).
Proof.
  intros Hst Ha Hs Hc Hb HB. unfold Matrix.product_matrix.
  apply returns_bind. eapply returns_cols; [done..|].
  intros st1 Hst1. apply returns_bind.
  eapply returns_mono.
  { apply (returns_mapM_grow _
             (fun k v h' => exists l, v = VRef l /\ length h <= l /\
                                      vec_at h' l (mat_vec r A (nth k B []))) _ h).
    - intros k v h1 h2 (l & -> & Hl & Hv) Hext. exists l.
      repeat split; [done|]. by eapply vec_at_grow.
    - intros k st2 Hk%elem_of_seq Hst2.
      destruct (lookup_lt_is_Some_2 B k) as [ys Hys]; [lia|].
      eapply returns_mono.
      { eapply (returns_product_column (heap st2) st2 a A r c _ ys);
          [done | by eapply mat_at_grow | done | done | |].
        - rewrite Forall_lookup in HB. by eapply HB.
        - intros st3 Hst3. eapply returns_column; [done | | done |].
          + eapply mat_at_grow; [exact Hb | by etrans].
          + intros l Hl. split; [done|]. by exists l. }
      intros v h1 (Hext & l & -> & Hl & Hv). split; [done|].
      exists l. rewrite (nth_lookup_Some _ _ _ _ Hys).
      repeat split; [|done]. apply prefix_length in Hst2. lia.
    - by rewrite Hst1. }
  intros items h1 [Hext Hitems] st2 Hst2. rewrite Hst1 in Hext.
  apply Forall2_vectors in Hitems as (ls & -> & Hcols & Hfresh).
  eapply returns_new; [done|]. split.
  - etrans; [done|]. by apply prefix_app_r.
  - exists (length h1), ls. repeat split.
    + by apply prefix_length.
    + done.
    + by rewrite lookup_app_r, Nat.sub_diag.
    + unfold mat_mul. rewrite (fmap_by_index (mat_vec r A) []).
      eapply Forall2_impl; [exact Hcols|]. intros l col Hl.
      eapply vec_at_grow; [done|]. by apply prefix_app_r.
Qed.

Lemma returns_ensure_multiplicable_vector h st a v A xs Q :
  heap st = h -> mat_at h a A -> vec_at h v xs -> length xs = length A ->
  Q tt h ->
  returns (Matrix._ensure_multiplicable (VRef a) (VRef v)) st Q.
Proof.
  intros Hst Ha Hv Hlen HQ. unfold Matrix._ensure_multiplicable.
  apply returns_bind. eapply returns_isinstance; [done..|]. simpl.
  intros st1 Hst1. apply returns_bind. apply returns_bind.
  eapply returns_isinstance; [done..|]. simpl.
  intros st2 Hst2. unfold Vector.size. eapply returns_len; [done..|]. simpl.
  intros st3 Hst3. apply returns_bind. eapply returns_cols; [done..|].
  intros st4 Hst4. rewrite length_fmap.
  destruct (decide _) as [Hne|_]; [done|]. by eapply returns_ret.
Qed.

Lemma returns_ensure_multiplicable_matrix h st a b A B c k Q :
  heap st = h -> mat_at h a A -> length A = c ->
  mat_at h b B -> shape c k B -> 0 < k ->
  Q tt h ->
  returns (Matrix._ensure_multiplicable (VRef a) (VRef b)) st Q.
Proof.
  intros Hst Ha HA Hb HB Hk HQ. unfold Matrix._ensure_multiplicable.
  pose proof Hb as (ls & Hob & _).
  apply returns_bind. eapply returns_isinstance; [done..|]. simpl.
  intros st1 Hst1. apply returns_bind. eapply returns_rows; [done..|].
  intros st2 Hst2. apply returns_bind. eapply returns_cols; [done..|].
  intros st3 Hst3.
  destruct (decide _) as [Hne|_]; [done|]. by eapply returns_ret.
Qed.

(** [matrix * vector] *)
Lemma returns_mul_vector h st a v A xs r c :
  heap st = h -> mat_at h a A -> shape r c A -> 0 < c ->
  vec_at h v xs -> length xs = c ->
  returns (Matrix.__mul__ (VRef a) (VRef v)) st
          (fun w h' => h `prefix_of` h' /\
                       exists l, w = VRef l /\ length h <= l /\
                                 vec_at h' l (mat_vec r A xs)).
Proof.
  intros Hst Ha Hs Hc Hv Hlen. unfold Matrix.__mul__.
  apply returns_bind.
  eapply returns_ensure_multiplicable_vector; [done.. | by destruct Hs as [-> _] |].
  intros st1 Hst1. apply returns_bind.
  eapply returns_isinstance; [done..|]. simpl.
  intros st2 Hst2.
  eapply returns_product_column; [done..|].
  intros st3 Hst3. eapply returns_ret; [done|]. split; [done|].
  exists v. split; [done|]. by eapply vec_at_grow.
Qed.

(** [matrix * matrix]: the product [p] is built in full and then handed
    out whole, or by its only column. *)
Lemma returns_mul_matrix h st a b A B r c k :
  heap st = h -> mat_at h a A -> shape r c A -> 0 < c ->
  mat_at h b B -> shape c k B -> 0 < k ->
  returns (Matrix.__mul__ (VRef a) (VRef b)) st
          (fun w h' => h `prefix_of` h' /\
             exists p ls, length h <= p /\
                          Forall (fun l => length h <= l) ls /\
                          h' !! p = Some (Obj CMatrix (VRef <$> ls)) /\
                          Forall2 (vec_at h') ls (mat_mul r A B) /\
                          w = if decide (k = 1) then nth 0 (VRef <$> ls) (VRef p)
                              else VRef p).
Proof.
  intros Hst Ha Hs Hc Hb HB Hk. unfold Matrix.__mul__.
  pose proof Hb as (lsb & Hob & _).
  apply returns_bind.
  eapply (returns_ensure_multiplicable_matrix h st a b A B c k);
    [done | done | by destruct Hs | done | done | done |].
  intros st1 Hst1. apply returns_bind.
  eapply returns_isinstance; [done..|]. simpl.
  intros st2 Hst2. apply returns_bind.
  eapply returns_mono.
  { eapply returns_product_matrix; [done..|]. by destruct HB. }
  intros v h1 (Hext & p & ls & -> & Hp & Hfresh & Hobj & Hcols) st3 Hst3.
  assert (length ls = k) as Hlen.
  { apply Forall2_length in Hcols. unfold mat_mul in Hcols.
    rewrite length_fmap in Hcols. destruct HB as [HB _]. lia. }
  apply returns_bind. unfold Matrix.cols.
  eapply returns_len; [exact Hst3 | exact Hobj |].
  intros st4 Hst4. simpl. rewrite length_fmap, Hlen.
  destruct (decide (k = 1)) as [->|Hk1].
  - destruct ls as [|l0 [|? ?]]; simplify_eq/=.
    eapply returns_getitem; [exact Hst4 | exact Hobj | reflexivity |].
    split; [done|]. by exists p, [l0].
  - eapply returns_ret; [done|]. split; [done|].
    by exists p, ls.
Qed.

Lemma returns_identity h st n :
  heap st = h ->
  returns (Matrix.identity (Z.of_nat n)) st
          (fun v h' => h `prefix_of` h' /\
                       exists l, v = VRef l /\ length h <= l /\
                                 mat_at h' l (identity_cols n)).
Proof.
  intros Hst. unfold Matrix.identity. rewrite Nat2Z.id.
  apply returns_bind.
  eapply returns_mono.
  { apply (returns_mapM_grow _
             (fun i v h' => exists l, v = VRef l /\ length h <= l /\
                vec_at h' l ((fun j => of_int (if decide (j = i) then 1 else 0)%Z)
                               <$> seq 0 n)) _ h).
    - intros i v h1 h2 (l & -> & Hl & Hv) Hext. exists l.
      repeat split; [done|]. by eapply vec_at_grow.
    - intros i st1 _ Hst1. apply returns_bind.
      eapply returns_mono.
      { apply (returns_mapM_pure _
                 (fun j => VNum (of_int (if decide (j = i) then 1 else 0)%Z))
                 _ (heap st1)); [|done].
        intros j st2 _ Hst2. by eapply returns_ret. }
      intros col h1 [-> ->] st2 Hst2. eapply returns_new; [done|].
      split; [by apply prefix_app_r|].
      exists (length (heap st1)). repeat split.
      + by apply prefix_length.
      + unfold vec_at. rewrite lookup_app_r, Nat.sub_diag by done.
        simpl. by rewrite <- list_fmap_compose.
    - by rewrite Hst. }
  intros items h1 [Hext Hitems] st1 Hst1. rewrite Hst in Hext.
  apply Forall2_vectors in Hitems as (ls & -> & Hcols & Hfresh).
  eapply returns_new; [done|]. split.
  - etrans; [done|]. by apply prefix_app_r.
  - exists (length h1). repeat split; [by apply prefix_length|].
    exists ls. split.
    + by rewrite lookup_app_r, Nat.sub_diag.
    + eapply Forall2_impl; [exact Hcols|]. intros l col Hl.
      eapply vec_at_grow; [done|]. by apply prefix_app_r.
Qed.

End MatrixProofs.

(** ** The identity matrix on the numbers *)

Section IdentityLaws.
Context {S : Type} `{ScalarLaws S}.

Lemma fold_left_ext_in {A B} (f g : B -> A -> B) (xs : list A) (b : B) :
  (forall acc x, x ∈ xs -> f acc x = g acc x) ->
  fold_left f xs b = fold_left g xs b.
Proof.
  revert b. induction xs as [|x xs IH]; intros b Hfg; [done|].
  simpl. rewrite Hfg by left. apply IH. intros acc y Hy. apply Hfg. by right.
Qed.

Lemma unit_fold_miss i f k m acc :
  ~ (k <= i < k + m) -> fold_left (unit_term i f) (seq k m) acc = acc.
Proof.
  revert k acc. induction m as [|m IH]; intros k acc Hi; [done|].
  simpl. rewrite IH by lia. unfold unit_term.
  rewrite decide_False by lia. by rewrite smul_0_l, sadd_0_r.
Qed.

Lemma unit_fold_hit i f k m :
  k <= i < k + m -> fold_left (unit_term i f) (seq k m) (of_int 0%Z) = f i.
Proof.
  revert k. induction m as [|m IH]; intros k Hi; [lia|].
  simpl. destruct (decide (i = k)) as [->|Hne].
  - rewrite unit_fold_miss by lia. unfold unit_term.
    rewrite decide_True by done. by rewrite smul_1_l, sadd_0_l.
  - replace (unit_term i f (of_int 0%Z) k) with (of_int 0%Z : S).
    + apply IH. lia.
    + unfold unit_term. rewrite decide_False by done.
      by rewrite smul_0_l, sadd_0_l.
Qed.

Lemma row_identity n i :
  i < n ->
  row (identity_cols n) i
  = (fun j => of_int (if decide (i = j) then 1 else 0)%Z) <$> seq 0 n.
Proof.
  intros Hi. unfold row, identity_cols. rewrite <- list_fmap_compose.
  apply list_fmap_ext. intros k j Hj. simpl.
  apply lookup_seq in Hj as [-> Hj].
  erewrite nth_lookup_Some; [done|].
  rewrite list_lookup_fmap, lookup_seq_lt by done. done.
Qed.

Lemma dot_unit n i xs :
  length xs = n -> i < n ->
  dot (row (identity_cols n) i) xs = nth i xs (of_int 0%Z).
Proof.
  intros Hlen Hi. unfold dot.
  rewrite (fold_zip_by_index (fun acc x y => sadd acc (smul x y))
             (of_int 0%Z) (of_int 0%Z) _ xs n);
    [| by rewrite length_row, length_identity_cols | done].
  rewrite (fold_left_ext_in _ (unit_term i (fun j => nth j xs (of_int 0%Z)))).
  - apply unit_fold_hit. lia.
  - intros acc j Hj%elem_of_seq. unfold unit_term. do 2 f_equal.
    rewrite row_identity by done.
    erewrite nth_lookup_Some; [done|].
    rewrite list_lookup_fmap, lookup_seq_lt by lia. done.
Qed.

Lemma mat_vec_identity n xs :
  length xs = n -> mat_vec n (identity_cols n) xs = xs.
Proof.
  intros Hlen. unfold mat_vec.
  transitivity (fmap (M:=list) (@Datatypes.id S) xs); [|apply list_fmap_id].
  rewrite (fmap_by_index (@Datatypes.id S) (of_int 0%Z) xs), Hlen.
  apply list_fmap_ext. intros k i Hi. apply lookup_seq in Hi as [-> Hi].
  by apply dot_unit.
Qed.

Lemma mat_mul_identity n k cs :
  shape n k cs -> mat_mul n (identity_cols n) cs = cs.
Proof.
  intros [_ Hall]. unfold mat_mul.
  transitivity (fmap (M:=list) (@Datatypes.id (list S)) cs); [|apply list_fmap_id].
  apply list_fmap_ext. intros j col Hcol.
  apply mat_vec_identity. rewrite Forall_lookup in Hall. by eapply Hall.
Qed.

End IdentityLaws.

(** ** Equality of objects *)

Section Equality.
Context {S : Type} `{Scalar S}.
Implicit Types (h : list (obj S)).

Lemma py_eq_numbers h (xs : list S) : Forall2 (py_eq h) (VNum <$> xs) (VNum <$> xs).
Proof. induction xs; simpl; constructor; [constructor | done]. Qed.

Lemma py_eq_vectors h l l' xs :
  vec_at h l xs -> vec_at h l' xs -> py_eq h (VRef l) (VRef l').
Proof.
  intros Hl Hl'. eapply py_eq_obj; [exact Hl | exact Hl' |]. apply py_eq_numbers.
Qed.

Lemma py_eq_matrices h l l' cs :
  mat_at h l cs -> mat_at h l' cs -> py_eq h (VRef l) (VRef l').
Proof.
  intros (ls & Hl & Hcols) (ls' & Hl' & Hcols').
  eapply py_eq_obj; [exact Hl | exact Hl' |]. simpl.
  clear Hl Hl'. revert ls' Hcols'.
  induction Hcols as [|c col ls cs Hc _ IH]; intros ls' Hcols'.
  - inversion Hcols'. constructor.
  - inversion Hcols' as [|c' ? ls'' ? Hc' Hrest]; subst. simpl.
    constructor; [by eapply py_eq_vectors | by apply IH].
Qed.

End Equality.

(** ** A vector wrapped as a matrix *)

Section WrappedVector.
Context {S : Type} `{Scalar S}.

Lemma mat_vec_single (xs col : list S) :
  length col = 1 ->
  mat_vec (length xs) [xs] col
  = (fun x => sadd (of_int 0%Z) (smul x (nth 0 col (of_int 0%Z)))) <$> xs.
Proof.
  intros Hcol. destruct col as [|y [|? ?]]; simplify_eq/=.
  unfold mat_vec.
  by rewrite (fmap_by_index (fun x => sadd (of_int 0%Z) (smul x y)) (of_int 0%Z) xs).
Qed.

Lemma rmul_delegates (st : state S) (m v : loc) (xs : list S) :
  vec_at (heap st) v xs ->
  Matrix.__rmul__ (VRef m) (VRef v) st
  = (w <- new CMatrix [VRef v] ;; Matrix.__mul__ w (VRef m)) st.
Proof.
  intros Hv. unfold Matrix.__rmul__.
  by rewrite (bind_ok _ _ _ _ _ (isinstance_ref _ _ CVector _ Hv)).
Qed.

Lemma mat_at_wrapped (h : list (obj S)) (v : loc) (xs : list S) :
  vec_at h v xs -> mat_at (h ++ [Obj CMatrix [VRef v]]) (length h) [xs].
Proof.
  intros Hv. exists [v]. split.
  - by rewrite lookup_app_r, Nat.sub_diag.
  - constructor; [|constructor]. eapply vec_at_grow; [done|]. by apply prefix_app_r.
Qed.

End WrappedVector.

(** ** Computations that only extend the store *)

Section Growth.
Context {S : Type} `{Scalar S}.

Lemma grows_ret {A} (a : A) : grows (ret a : M S A).
Proof. by intros st. Qed.

Lemma grows_raise {A} e : grows (raise e : M S A).
Proof. by intros st. Qed.

Lemma grows_unmodelled {A} : grows (unmodelled : M S A).
Proof. by intros st. Qed.

Lemma grows_bind {A B} (m : M S A) (k : A -> M S B) :
  grows m -> (forall a, grows (k a)) -> grows (bind m k).
Proof.
  intros Hm Hk st. unfold bind. specialize (Hm st).
  destruct (m st) as [[a| |] st1]; simpl in *; [|done..].
  etrans; [exact Hm | apply Hk].
Qed.

Lemma grows_if {A} (b : bool) (m1 m2 : M S A) :
  grows m1 -> grows m2 -> grows (if b then m1 else m2).
Proof. by destruct b. Qed.

Lemma grows_decide {A} P `{Decision P} (m1 m2 : M S A) :
  grows m1 -> grows m2 -> grows (if decide P then m1 else m2).
Proof. by destruct (decide P). Qed.

Lemma grows_deref l : grows (deref l : M S (obj S)).
Proof. intros st. unfold deref. by destruct (heap st !! l). Qed.

Lemma grows_log ev : grows (log ev : M S unit).
Proof. by intros st. Qed.

Lemma grows_new c items : grows (new c items : M S (value S)).
Proof. intros st. simpl. by apply prefix_app_r. Qed.

Lemma grows_isinstance (v : value S) c : grows (isinstance v c : M S bool).
Proof.
  destruct v; simpl; [apply grows_ret|].
  apply grows_bind; [apply grows_deref | intros; apply grows_ret].
Qed.

Lemma grows_len (v : value S) : grows (py_len v : M S nat).
Proof.
  destruct v; simpl; [apply grows_raise|].
  apply grows_bind; [apply grows_deref | intros; apply grows_ret].
Qed.

Lemma grows_getitem (v : value S) i : grows (getitem v i : M S (value S)).
Proof.
  destruct v; simpl; [apply grows_raise|].
  apply grows_bind; [apply grows_deref|]. intros o.
  destruct (obj_items o !! i); [|apply grows_raise].
  apply grows_bind; [apply grows_log | intros; apply grows_ret].
Qed.

Lemma grows_arith op (a b : value S) : grows (arith op a b).
Proof. destruct a, b; simpl; first [apply grows_ret | apply grows_unmodelled]. Qed.

Lemma grows_mapM {A B} (f : A -> M S B) xs :
  (forall x, grows (f x)) -> grows (mapM f xs).
Proof.
  intros Hf. induction xs as [|x xs IH]; simpl; [apply grows_ret|].
  apply grows_bind; [done|]. intros b.
  apply grows_bind; [done|]. intros bs. apply grows_ret.
Qed.

Lemma grows_foldM {A B} (f : B -> A -> M S B) xs b :
  (forall b x, grows (f b x)) -> grows (foldM f b xs).
Proof.
  intros Hf. revert b. induction xs as [|x xs IH]; intros b; simpl;
    [apply grows_ret|].
  apply grows_bind; [done|]. intros b'. apply IH.
Qed.

Create HintDb grows.

#[local] Hint Resolve grows_ret grows_raise grows_unmodelled grows_deref grows_log
  grows_new grows_isinstance grows_len grows_getitem grows_arith : grows.

Ltac grows_steps :=
  repeat first
    [ progress intros
    | apply grows_bind
    | apply grows_if
    | apply grows_decide
    | apply grows_mapM
    | apply grows_foldM
    | solve [auto with grows] ].

Lemma grows_zip_mapM body (v w : value S) :
  (forall x y, grows (body x y)) -> grows (zip_mapM body v w).
Proof. intros Hbody. unfold zip_mapM, zip_next, zip_stop. grows_steps. Qed.

Lemma grows_zip_sumM body (v w : value S) :
  (forall x y, grows (body x y)) -> grows (zip_sumM body v w).
Proof. intros Hbody. unfold zip_sumM, zip_next, zip_stop. grows_steps. Qed.

Lemma grows_vector_add (v w : value S) : grows (Vector.__add__ v w).
Proof. unfold Vector.__add__. grows_steps. Qed.

Lemma grows_matrix_add (v w : value S) : grows (Matrix.__add__ v w).
Proof. unfold Matrix.__add__. grows_steps. Qed.

Lemma grows_mul (v w : value S) : grows (Matrix.__mul__ v w).
Proof. unfold Matrix.__mul__. grows_steps. Qed.

Lemma grows_py_add (v w : value S) : grows (py_add v w).
Proof.
  unfold py_add. grows_steps; first [apply grows_vector_add | apply grows_matrix_add].
Qed.

Lemma grows_convert (v m dv : value S) : grows (convert v m dv).
Proof.
  unfold convert. grows_steps; first [apply grows_mul | apply grows_py_add].
Qed.

Lemma grows_ensure_multiplicable (v w : value S) :
  grows (Matrix._ensure_multiplicable v w).
Proof. unfold Matrix._ensure_multiplicable. grows_steps. Qed.

Lemma grows_product_column (v : value S) rhs :
  grows rhs -> grows (Matrix.product_column v rhs).
Proof. intros Hrhs. unfold Matrix.product_column. grows_steps. Qed.

Lemma grows_ok {A} (m : M S A) st a st' :
  grows m -> m st = (Ok a, st') -> heap st `prefix_of` heap st'.
Proof. intros Hm Hrun. specialize (Hm st). by rewrite Hrun in Hm. Qed.

(** What the results of a loop that returned have in common. *)
Lemma mapM_ok_Forall {A B} (f : A -> M S B) (P : B -> list (obj S) -> Prop) xs :
  (forall b h h', P b h -> h `prefix_of` h' -> P b h') ->
  (forall x, grows (f x)) ->
  (forall x st b st', f x st = (Ok b, st') -> P b (heap st')) ->
  forall st bs st', mapM f xs st = (Ok bs, st') ->
    Forall (fun b => P b (heap st')) bs /\ length bs = length xs.
Proof.
  intros Hstable Hgrows Hf. induction xs as [|x xs IH]; intros st bs st' Hrun.
  - injection Hrun as <- <-. by split; [constructor|].
  - cbn [mapM] in Hrun.
    apply bind_inv in Hrun as (b & st1 & Hb & Hrun).
    apply bind_inv in Hrun as (bs' & st2 & Hbs & Hrun).
    injection Hrun as <- <-.
    destruct (IH _ _ _ Hbs) as [Hall Hlen]. split; [|simpl; by rewrite Hlen].
    constructor; [|done]. eapply Hstable; [by eapply Hf|].
    eapply grows_ok; [|exact Hbs]. by apply grows_mapM.
Qed.

Lemma Forall_vector_refs (h : list (obj S)) (items : list (value S)) :
  Forall (fun v => exists l its, v = VRef l /\ h !! l = Some (Obj CVector its)) items ->
  exists ls, items = VRef <$> ls /\
             Forall (fun l => exists its, h !! l = Some (Obj CVector its)) ls.
Proof.
  induction 1 as [|v items (l & its & -> & Hl) _ (ls & -> & IH)].
  - exists []. by split; [|constructor].
  - exists (l :: ls). split; [done|]. constructor; [by exists its | done].
Qed.

(** A column of a product, once returned, is a [Vector] that its
    computation created. *)
Lemma product_column_ok (v : value S) rhs st w st' :
  grows rhs ->
  Matrix.product_column v rhs st = (Ok w, st') ->
  exists l items, w = VRef l /\ length (heap st) <= l /\
                  heap st' !! l = Some (Obj CVector items).
Proof.
  intros Hrhs Hrun. unfold Matrix.product_column in Hrun.
  apply bind_inv in Hrun as (r & st1 & Hrows & Hrun).
  apply bind_inv in Hrun as (items & st2 & Hitems & Hnew).
  injection Hnew as <- <-. exists (length (heap st2)), items. repeat split.
  - simpl. transitivity (length (heap st1)).
    + apply prefix_length. eapply grows_ok; [|exact Hrows]. unfold Matrix.rows.
      grows_steps.
    + apply prefix_length. eapply grows_ok; [|exact Hitems].
      apply grows_mapM. intros i. grows_steps.
  - simpl. by rewrite lookup_app_r, Nat.sub_diag.
Qed.

End Growth.

(** ** The affine step *)

Section AffineStep.
Context {S : Type} `{Scalar S}.

Lemma returns_convert h (st : state S) v m dv cs xs ds r c :
  heap st = h -> mat_at h m cs -> shape r c cs -> 0 < c ->
  vec_at h v xs -> length xs = c -> vec_at h dv ds -> length ds = r ->
  returns (convert (VRef v) (VRef m) (VRef dv)) st
          (fun w h' => h `prefix_of` h' /\
                       exists l, w = VRef l /\ length h <= l /\
                                 vec_at h' l (affine r cs ds xs)).
Proof.
  intros Hst Hm Hs Hc Hv Hxs Hdv Hds. unfold convert.
  apply returns_bind.
  eapply returns_mono; [by eapply returns_mul_vector|].
  intros p h1 (Hext & l & -> & Hl & Hp) st1 Hst1. unfold py_add.
  apply returns_bind. eapply returns_isinstance; [exact Hst1 | exact Hp |].
  simpl. intros st2 Hst2.
  eapply returns_mono.
  { eapply (returns_add h1 st2 l dv (mat_vec r cs xs) ds);
      [done | done | by eapply vec_at_grow | by rewrite length_mat_vec]. }
  intros w h2 [-> ->]. split.
  - etrans; [done|]. by apply prefix_app_r.
  - exists (length h1). repeat split.
    + by apply prefix_length.
    + apply vec_at_new.
Qed.

End AffineStep.

(** ** The loop of [main] *)

Section PureLoop.
Context {A : Type} (f : A -> A).

Lemma lookup_fold_alter lo len (xs : list A) i :
  fold_left (fun acc k => alter f k acc) (seq lo len) xs !! i
  = if decide (lo <= i < lo + len) then f <$> xs !! i else xs !! i.
Proof.
  revert lo xs. induction len as [|len IH]; intros lo xs.
  - simpl. by rewrite decide_False by lia.
  - simpl. rewrite IH. destruct (decide (i = lo)) as [->|Hne].
    + rewrite decide_False, decide_True by lia. apply list_lookup_alter_eq.
    + rewrite list_lookup_alter_ne by done. by repeat case_decide; try lia.
Qed.

Lemma lookup_apply_range lo hi (xs : list A) i :
  apply_range f lo hi xs !! i
  = if decide (lo <= i < hi) then f <$> xs !! i else xs !! i.
Proof.
  unfold apply_range. rewrite lookup_fold_alter.
  by repeat case_decide; try lia.
Qed.

Lemma length_apply_range lo hi (xs : list A) : length (apply_range f lo hi xs) = length xs.
Proof.
  unfold apply_range. generalize (seq lo (hi - lo)). intros ks. revert xs.
  induction ks as [|k ks IH]; intros xs; [done|].
  simpl. by rewrite IH, length_alter.
Qed.

Lemma apply_range_all (xs : list A) : apply_range f 0 (length xs) xs = f <$> xs.
Proof.
  apply list_eq. intros i. rewrite lookup_apply_range, list_lookup_fmap.
  case_decide; [done|]. by rewrite lookup_ge_None_2 by lia.
Qed.

Lemma advance_steps start len (xs : list A) :
  fold_left (fun acc _ => apply_range f 0 (length acc) acc) (seq start len) xs
  = Nat.iter len f <$> xs.
Proof.
  revert start xs. induction len as [|len IH]; intros start xs.
  - exact (eq_sym (list_fmap_id xs)).
  - simpl. rewrite IH, apply_range_all, <- list_fmap_compose.
    apply list_fmap_ext. intros i x _.
    exact (eq_sym (Nat.iter_succ_r len f x)).
Qed.

Lemma advance_iter total (xs : list A) :
  advance f total xs = Nat.iter (total - 1) f <$> xs.
Proof. apply advance_steps. Qed.

Lemma lookup_stagger_steps total (xs : list A) s i :
  s < total ->
  fold_left (fun acc step => apply_range f step total acc) (seq 1 s) xs !! i
  = Nat.iter (if decide (i < total) then i `min` s else 0) f <$> xs !! i.
Proof.
  intros Hs. induction s as [|s IH].
  - simpl. rewrite Nat.min_0_r. destruct (decide _); simpl;
      by destruct (xs !! i).
  - rewrite seq_S, fold_left_app. simpl.
    rewrite lookup_apply_range, IH by lia.
    destruct (decide (i < total)) as [Hi|Hi].
    + destruct (decide (S s <= i < total)) as [Hin|Hout].
      * replace (i `min` s) with s by lia. replace (i `min` S s) with (S s) by lia.
        by destruct (xs !! i).
      * by replace (i `min` S s) with (i `min` s) by lia.
    + by rewrite decide_False by lia.
Qed.

(** Point [i] of [total] points ends up with [f] applied to it [i] times. *)
Lemma lookup_stagger total (xs : list A) i x :
  length xs = total -> xs !! i = Some x ->
  stagger f total xs !! i = Some (Nat.iter i f x).
Proof.
  intros Hlen Hx. pose proof (lookup_lt_Some _ _ _ Hx) as Hi.
  unfold stagger. rewrite lookup_stagger_steps by lia.
  rewrite decide_True by lia. rewrite Hx. simpl.
  by replace (i `min` (total - 1)) with i by lia.
Qed.

End PureLoop.

Section LoopProofs.
Context {S : Type} `{Scalar S}.
Implicit Types (st : state S) (h : list (obj S)).

Lemma returns_setitem l o i x h st Q :
  heap st = h -> h !! l = Some o -> i < length (obj_items o) ->
  Q tt (<[l := Obj (obj_cls o) (<[i := x]> (obj_items o))]> h) ->
  returns (setitem (VRef l) i x) st Q.
Proof.
  intros <- Hl Hi HQ. unfold returns, setitem, bind, deref. rewrite Hl.
  rewrite decide_True by done. eexists _, _. split; [reflexivity | done].
Qed.

(** A loop that carries no value of its own, with an invariant [I] over
    what it has made of [c] so far. *)
Lemma returns_foldM_inv {A C} (f : unit -> A -> M S unit) (g : C -> A -> C)
    (I : C -> list (obj S) -> Prop) (xs : list A) :
  (forall c x st, x ∈ xs -> I c (heap st) ->
     returns (f tt x) st (fun _ h' => I (g c x) h')) ->
  forall c st, I c (heap st) ->
    returns (foldM f tt xs) st (fun _ h' => I (fold_left g xs c) h').
Proof.
  induction xs as [|x xs IH]; intros Hf c st Hc.
  - by eapply returns_ret.
  - simpl. apply returns_bind.
    eapply returns_mono; [apply Hf; [left | done] |].
    intros [] h' Hg st1 Hst1. apply IH; [|by rewrite Hst1].
    intros c' y st2 Hy. apply Hf. by right.
Qed.

(** Assigning to an item of a plain list changes no [Vector] and no
    [Matrix]. *)
Lemma vec_at_update h X its o' l xs :
  vec_at h l xs -> h !! X = Some (Obj CList its) -> vec_at (<[X := o']> h) l xs.
Proof.
  intros Hl HX. unfold vec_at. rewrite list_lookup_insert_ne; [done|].
  intros ->. unfold vec_at in Hl. rewrite HX in Hl. discriminate.
Qed.

Lemma vectors_update h X its o' ls (cs : list (list S)) :
  Forall2 (vec_at h) ls cs -> h !! X = Some (Obj CList its) ->
  Forall2 (vec_at (<[X := o']> h)) ls cs.
Proof.
  intros Hall HX. eapply Forall2_impl; [exact Hall|].
  intros l xs Hl. by eapply vec_at_update.
Qed.

Lemma mat_at_update h X its o' m cs :
  mat_at h m cs -> h !! X = Some (Obj CList its) -> mat_at (<[X := o']> h) m cs.
Proof.
  intros (ls & Hm & Hcols) HX. exists ls. split; [|by eapply vectors_update].
  rewrite list_lookup_insert_ne; [done|]. intros ->. rewrite HX in Hm. discriminate.
Qed.

Lemma points_at_update h X its o' Y ps :
  points_at h Y ps -> X <> Y -> h !! X = Some (Obj CList its) ->
  points_at (<[X := o']> h) Y ps.
Proof.
  intros (ls & HY & Hps) Hne HX. exists ls. split; [|by eapply vectors_update].
  by rewrite list_lookup_insert_ne.
Qed.

Lemma length_affine n cs ds (xs : list S) :
  length ds = n -> length (affine n cs ds xs) = n.
Proof. intros Hds. unfold affine. rewrite length_zip_with, length_mat_vec. lia. Qed.

Section Scene.
Variables (n : nat) (m dv : loc) (cs : list (list S)) (ds : list S).
Hypothesis Hshape : shape n n cs.
Hypothesis Hn : 0 < n.
Hypothesis Hds : length ds = n.

(** [xs[i] = convert(xs[i], m, dv)] *)
Lemma returns_assign h st X Y ps qs i p :
  heap st = h -> mat_at h m cs -> vec_at h dv ds ->
  points_at h X ps -> points_at h Y qs -> X <> Y ->
  ps !! i = Some p -> length p = n ->
  returns (p <- getitem (VRef X) i ;;
           q <- convert p (VRef m) (VRef dv) ;;
           setitem (VRef X) i q) st
          (fun _ h' => mat_at h' m cs /\ vec_at h' dv ds /\
                       points_at h' X (alter (affine n cs ds) i ps) /\
                       points_at h' Y qs).
Proof.
  intros Hst Hm Hdv (ls & HX & Hps) HY Hne Hi Hp.
  destruct (Forall2_lookup_r _ _ _ _ _ Hps Hi) as (lp & Hlp & Hvp).
  apply returns_bind. eapply returns_getitem; [exact Hst | exact HX | |].
  { simpl. by rewrite list_lookup_fmap, Hlp. }
  intros st1 Hst1. apply returns_bind.
  eapply returns_mono; [by eapply (returns_convert h st1 lp m dv cs p ds n n)|].
  intros q h1 (Hext & l & -> & Hl & Hq) st2 Hst2.
  assert (h1 !! X = Some (Obj CList (VRef <$> ls))) as HX1
    by (by eapply prefix_lookup_Some).
  eapply returns_setitem; [exact Hst2 | exact HX1 | |].
  { simpl. rewrite length_fmap. by eapply lookup_lt_Some. }
  simpl. split; [|split; [|split]].
  - eapply mat_at_update; [|exact HX1]. by eapply mat_at_grow.
  - eapply vec_at_update; [|exact HX1]. by eapply vec_at_grow.
  - exists (<[i := l]> ls). split.
    + rewrite list_lookup_insert_eq by (by eapply lookup_lt_Some).
      by rewrite list_fmap_insert.
    + rewrite (list_insert_alter ls i l). apply Forall2_alter.
      * eapply vectors_update; [|exact HX1].
        eapply Forall2_impl; [exact Hps|]. intros. by eapply vec_at_grow.
      * intros l' p' _ Hp' _. rewrite Hi in Hp'. injection Hp' as <-.
        by eapply vec_at_update.
  - eapply points_at_update; [|done | exact HX1].
    destruct HY as (ls' & HY & Hqs). exists ls'. split.
    + by eapply prefix_lookup_Some.
    + eapply Forall2_impl; [exact Hqs|]. intros. by eapply vec_at_grow.
Qed.

Lemma returns_convert_range h st X Y ps qs lo hi :
  heap st = h -> scene n m dv cs ds X Y qs ps h -> X <> Y -> hi <= length ps ->
  returns (convert_range (VRef X) lo hi (VRef m) (VRef dv)) st
          (fun _ h' => scene n m dv cs ds X Y qs (apply_range (affine n cs ds) lo hi ps) h').
Proof.
  intros Hst Hscene Hne Hhi. unfold convert_range, apply_range.
  eapply returns_mono.
  { apply (returns_foldM_inv _ (fun acc i => alter (affine n cs ds) i acc)
             (fun acc h' => scene n m dv cs ds X Y qs acc h' /\ length acc = length ps)).
    - intros acc i st1 Hi%elem_of_seq ((Hm & Hdv & HX & HY & Hall) & Hlen).
      destruct (lookup_lt_is_Some_2 acc i) as [p Hp]; [lia|].
      eapply returns_mono.
      { eapply (returns_assign (heap st1) st1 X Y acc qs i p); [done..|].
        rewrite Forall_lookup in Hall. by eapply Hall. }
      intros _ h' (Hm' & Hdv' & HX' & HY'). split; [|by rewrite length_alter].
      repeat split; [done..|].
      apply Forall_alter; [done|]. intros. by apply length_affine.
    - split; [by rewrite Hst | done]. }
  by intros _ h' [Hscene' _].
Qed.

Lemma fold_steps total (fs ps : list (list S)) ks :
  fold_left (fun (c : list (list S) * list (list S)) step =>
               (apply_range (affine n cs ds) 0 (length c.1) c.1,
                apply_range (affine n cs ds) step total c.2)) ks (fs, ps)
  = (fold_left (fun acc _ => apply_range (affine n cs ds) 0 (length acc) acc) ks fs,
     fold_left (fun acc step => apply_range (affine n cs ds) step total acc) ks ps).
Proof. revert fs ps. induction ks as [|k ks IH]; intros fs ps; [done|]. apply IH. Qed.

Lemma returns_main_loop h st figure dots fs ps :
  heap st = h -> mat_at h m cs -> vec_at h dv ds ->
  points_at h figure fs -> Forall (fun p => length p = n) fs ->
  points_at h dots ps -> Forall (fun p => length p = n) ps ->
  length ps = TOTAL_STEPS -> figure <> dots ->
  returns (main_loop (VRef figure) (VRef dots) (VRef m) (VRef dv)) st
          (fun _ h' =>
             points_at h' figure (advance (affine n cs ds) TOTAL_STEPS fs) /\
             points_at h' dots (stagger (affine n cs ds) TOTAL_STEPS ps)).
Proof.
  intros Hst Hm Hdv Hfig Hfs Hdots Hps Hlen Hne. unfold main_loop.
  eapply returns_mono.
  { apply (returns_foldM_inv _
             (fun (c : list (list S) * list (list S)) step =>
                (apply_range (affine n cs ds) 0 (length c.1) c.1,
                 apply_range (affine n cs ds) step TOTAL_STEPS c.2))
             (fun c h' => scene n m dv cs ds figure dots c.2 c.1 h' /\
                          Forall (fun p => length p = n) c.2 /\
                          length c.2 = TOTAL_STEPS)) with (c := (fs, ps)).
    - intros [fs1 ps1] step st1 _ (Hscene & Hall & Hlen1). simpl in *.
      pose proof Hscene as (_ & _ & (lsf & Hobj & Hcols) & _).
      apply returns_bind. eapply returns_len; [done | exact Hobj |].
      intros st2 Hst2. simpl. rewrite length_fmap, (Forall2_length _ _ _ Hcols).
      apply returns_bind.
      eapply returns_mono;
        [by eapply (returns_convert_range _ st2 figure dots fs1 ps1 0 (length fs1))|].
      intros _ h1 (Hm1 & Hdv1 & Hfig1 & Hdots1 & Hall1) st3 Hst3.
      eapply returns_mono.
      { eapply (returns_convert_range h1 st3 dots figure ps1 _ step TOTAL_STEPS);
          [done | by repeat split | done | lia]. }
      intros _ h2 (Hm2 & Hdv2 & Hdots2 & Hfig2 & Hall2).
      repeat split; [done.. | by rewrite length_apply_range].
    - simpl. rewrite Hst. by repeat split. }
  intros _ h' ((_ & _ & Hfig' & Hdots' & _) & _). rewrite fold_steps in *.
  done.
Qed.

End Scene.
End LoopProofs.

(** ** Counting assignments in the trace *)

Section Assignments.
Context {S : Type} `{Scalar S}.
Implicit Types (st : state S).

Lemma assignments_snoc l i tr ev :
  assignments l i (tr ++ [ev])
  = assignments l i tr + (if is_write_at l i ev then 1 else 0).
Proof.
  unfold assignments. rewrite List.filter_app, length_app. simpl.
  by destruct (is_write_at l i ev).
Qed.

Lemma silent_ok {A} (m : M S A) st a st' l i :
  silent m -> m st = (Ok a, st') ->
  assignments l i (trace st') = assignments l i (trace st).
Proof. intros Hm Hrun. specialize (Hm st l i). by rewrite Hrun in Hm. Qed.

Lemma silent_ret {A} (a : A) : silent (ret a : M S A).
Proof. by intros st l i. Qed.

Lemma silent_raise {A} e : silent (raise e : M S A).
Proof. by intros st l i. Qed.

Lemma silent_unmodelled {A} : silent (unmodelled : M S A).
Proof. by intros st l i. Qed.

Lemma silent_bind {A B} (m : M S A) (k : A -> M S B) :
  silent m -> (forall a, silent (k a)) -> silent (bind m k).
Proof.
  intros Hm Hk st l i. unfold bind. specialize (Hm st l i).
  destruct (m st) as [[a| |] st1]; simpl in *; [|done..].
  by rewrite Hk.
Qed.

Lemma silent_if {A} (b : bool) (m1 m2 : M S A) :
  silent m1 -> silent m2 -> silent (if b then m1 else m2).
Proof. by destruct b. Qed.

Lemma silent_decide {A} P `{Decision P} (m1 m2 : M S A) :
  silent m1 -> silent m2 -> silent (if decide P then m1 else m2).
Proof. by destruct (decide P). Qed.

Lemma silent_deref l : silent (deref l : M S (obj S)).
Proof. intros st l' i. unfold deref. by destruct (heap st !! l). Qed.

Lemma silent_new c items : silent (new c items : M S (value S)).
Proof. intros st l i. simpl. rewrite assignments_snoc. simpl. lia. Qed.

Lemma silent_isinstance (v : value S) c : silent (isinstance v c).
Proof.
  destruct v; simpl; [apply silent_ret|].
  apply silent_bind; [apply silent_deref | intros; apply silent_ret].
Qed.

Lemma silent_len (v : value S) : silent (py_len v).
Proof.
  destruct v; simpl; [apply silent_raise|].
  apply silent_bind; [apply silent_deref | intros; apply silent_ret].
Qed.

Lemma silent_getitem (v : value S) j : silent (getitem v j).
Proof.
  destruct v as [x|l]; simpl; [apply silent_raise|].
  apply silent_bind; [apply silent_deref|]. intros o.
  destruct (obj_items o !! j); [|apply silent_raise].
  apply silent_bind; [|intros; apply silent_ret].
  intros st l' i. simpl. rewrite assignments_snoc. simpl. lia.
Qed.

Lemma silent_arith op (a b : value S) : silent (arith op a b).
Proof. destruct a, b; simpl; first [apply silent_ret | apply silent_unmodelled]. Qed.

Lemma silent_mapM {A B} (f : A -> M S B) xs :
  (forall x, silent (f x)) -> silent (mapM f xs).
Proof.
  intros Hf. induction xs as [|x xs IH]; simpl; [apply silent_ret|].
  apply silent_bind; [done|]. intros b.
  apply silent_bind; [done|]. intros bs. apply silent_ret.
Qed.

Lemma silent_foldM {A B} (f : B -> A -> M S B) xs b :
  (forall b x, silent (f b x)) -> silent (foldM f b xs).
Proof.
  intros Hf. revert b. induction xs as [|x xs IH]; intros b; simpl;
    [apply silent_ret|].
  apply silent_bind; [done|]. intros b'. apply IH.
Qed.

Create HintDb silent.

#[local] Hint Resolve silent_ret silent_raise silent_unmodelled silent_deref
  silent_new silent_isinstance silent_len silent_getitem silent_arith : silent.

Ltac silent_steps :=
  repeat first
    [ progress intros
    | apply silent_bind
    | apply silent_if
    | apply silent_decide
    | apply silent_mapM
    | apply silent_foldM
    | solve [auto with silent] ].

Lemma silent_vector_add (v w : value S) : silent (Vector.__add__ v w).
Proof. unfold Vector.__add__. silent_steps. Qed.

Lemma silent_matrix_add (v w : value S) : silent (Matrix.__add__ v w).
Proof. unfold Matrix.__add__. silent_steps. Qed.

Lemma silent_mul (v w : value S) : silent (Matrix.__mul__ v w).
Proof. unfold Matrix.__mul__. silent_steps. Qed.

Lemma silent_convert (v m dv : value S) : silent (convert v m dv).
Proof.
  unfold convert, py_add.
  silent_steps;
    first [apply silent_mul | apply silent_vector_add | apply silent_matrix_add].
Qed.

Lemma setitem_assignments X j (x : value S) st st' l i :
  setitem (VRef X) j x st = (Ok tt, st') ->
  assignments l i (trace st')
  = assignments l i (trace st) + (if is_write_at l i (EvWrite X j) then 1 else 0).
Proof.
  unfold setitem, bind, deref. destruct (heap st !! X) as [o|]; [|done].
  destruct (decide _); [|done]. intros [= <-]. simpl. apply assignments_snoc.
Qed.

Lemma convert_range_assignments X (m dv : value S) l i len :
  forall lo st st',
    foldM (fun (_ : unit) k =>
             p <- getitem (VRef X) k ;;
             q <- convert p m dv ;;
             setitem (VRef X) k q) tt (seq lo len) st = (Ok tt, st') ->
    assignments l i (trace st')
    = assignments l i (trace st)
      + (if (l =? X) && (lo <=? i) && (i <? lo + len) then 1 else 0).
Proof.
  induction len as [|len IH]; intros lo st st' Hrun.
  - injection Hrun as <-. rewrite Nat.add_0_r.
    destruct (Nat.eqb_spec l X), (Nat.leb_spec lo i), (Nat.ltb_spec i lo);
      cbn [andb]; lia.
  - cbn [seq foldM] in Hrun.
    apply bind_inv in Hrun as ([] & st1 & Hbody & Hrest).
    apply bind_inv in Hbody as (p & sta & Hget & Hbody).
    apply bind_inv in Hbody as (q & stb & Hconv & Hset).
    rewrite (IH _ _ _ Hrest), (setitem_assignments _ _ _ _ _ _ _ Hset).
    rewrite (silent_ok _ _ _ _ l i (silent_convert _ _ _) Hconv).
    rewrite (silent_ok _ _ _ _ l i (silent_getitem _ _) Hget).
    unfold is_write_at.
    destruct (Nat.eqb_spec l X), (Nat.eqb_spec i lo),
      (Nat.leb_spec (Datatypes.S lo) i), (Nat.ltb_spec i (Datatypes.S lo + len)),
      (Nat.leb_spec lo i), (Nat.ltb_spec i (lo + Datatypes.S len));
      cbn [andb]; lia.
Qed.

Lemma main_loop_assignments (figure dots : loc) (m dv : value S) i len :
  figure <> dots ->
  forall s st st',
    foldM (fun (_ : unit) step =>
             n <- py_len (VRef figure) ;;
             convert_range (VRef figure) 0 n m dv ;;;
             convert_range (VRef dots) step TOTAL_STEPS m dv) tt (seq s len) st
    = (Ok tt, st') ->
    assignments dots i (trace st')
    = assignments dots i (trace st) + steps_reaching TOTAL_STEPS i s len.
Proof.
  intros Hne. induction len as [|len IH]; intros s st st' Hrun.
  - injection Hrun as <-. unfold steps_reaching. simpl. lia.
  - cbn [seq foldM] in Hrun.
    apply bind_inv in Hrun as ([] & st1 & Hbody & Hrest).
    apply bind_inv in Hbody as (n & sta & Hlen & Hbody).
    apply bind_inv in Hbody as ([] & stb & Hfig & Hdots).
    rewrite (IH _ _ _ Hrest).
    rewrite (convert_range_assignments _ _ _ dots i _ _ _ _ Hdots).
    rewrite (convert_range_assignments _ _ _ dots i _ _ _ _ Hfig).
    rewrite (silent_ok _ _ _ _ dots i (silent_len _) Hlen).
    rewrite (proj2 (Nat.eqb_neq dots figure)) by done.
    rewrite Nat.eqb_refl. unfold steps_reaching. cbn [seq List.filter andb].
    rewrite Nat.add_0_r.
    destruct ((s <=? i) && (i <? s + (TOTAL_STEPS - s))); cbn [length]; lia.
Qed.

Lemma steps_reaching_total i :
  i < TOTAL_STEPS -> steps_reaching TOTAL_STEPS i 1 (TOTAL_STEPS - 1) = i.
Proof.
  intros Hi. unfold TOTAL_STEPS in *.
  do 8 (destruct i as [|i]; [reflexivity|]). lia.
Qed.

End Assignments.

(** * The claims *)

Section VectorClaims.
Context {S : Type} `{Scalar S}.

(** C7.  Two [Vector]s of unequal size: [+], [-] and [scalar_prod] each
    raise the [TypeError] of the length guard, and the state they raise in
    is the state they were called in: nothing has been allocated, no item
    has been read and none written. *)
Theorem unequal_sizes_raise_first (st : state S) (a b : loc)
    (ia ib : list (value S)) :
  heap st !! a = Some (Obj CVector ia) ->
  heap st !! b = Some (Obj CVector ib) ->
  length ia <> length ib ->
  Vector.__add__ (VRef a) (VRef b) st = (Raise (TypeError Vector.msg_length), st) /\
  Vector.__sub__ (VRef a) (VRef b) st = (Raise (TypeError Vector.msg_length), st) /\
  Vector.scalar_prod (VRef a) (VRef b) st = (Raise (TypeError Vector.msg_length), st).
Proof.
  intros Ha Hb Hne.
  assert (Vector._ensure_compatibility (VRef a) (VRef b) st
          = (Raise (TypeError Vector.msg_length), st)) as Hguard.
  { unfold Vector._ensure_compatibility.
    rewrite (bind_ok _ _ _ _ _ (isinstance_ref _ _ CVector _ Hb)). simpl.
    rewrite (bind_ok _ _ _ _ _ (py_len_ref _ _ _ Ha)).
    rewrite (bind_ok _ _ _ _ _ (py_len_ref _ _ _ Hb)). simpl.
    by rewrite decide_True. }
  unfold Vector.__add__, Vector.__sub__, Vector.scalar_prod.
  by rewrite !(bind_raise _ _ _ _ _ Hguard).
Qed.

(** C8.  Two [Vector]s of equal size [n]: [a + b] returns a [Vector] that
    was not in the store before, of size [n], whose item [i] is
    [a[i] + b[i]] for every [i < n]. *)
Theorem add_elementwise (st : state S) (a b : loc) (xs ys : list S) (n : nat) :
  vec_at (heap st) a xs -> vec_at (heap st) b ys ->
  length xs = n -> length ys = n ->
  exists r zs st',
    Vector.__add__ (VRef a) (VRef b) st = (Ok (VRef r), st') /\
    heap st !! r = None /\
    vec_at (heap st') r zs /\
    length zs = n /\
    forall i, i < n ->
      exists x y, xs !! i = Some x /\ ys !! i = Some y /\ zs !! i = Some (sadd x y).
Proof.
  intros Ha Hb Hx Hy.
  destruct (returns_add (heap st) st a b xs ys) as (w & st' & Hrun & -> & Hheap);
    [done | done | done | congruence |].
  exists (length (heap st)), (zip_with sadd xs ys), st'. repeat split.
  - done.
  - by apply lookup_ge_None_2.
  - rewrite Hheap. apply vec_at_new.
  - rewrite length_zip_with. lia.
  - intros i Hi.
    destruct (lookup_lt_is_Some_2 xs i) as [x Ex]; [lia|].
    destruct (lookup_lt_is_Some_2 ys i) as [y Ey]; [lia|].
    exists x, y. repeat split; [done..|].
    by rewrite lookup_zip_with, Ex, Ey.
Qed.

End VectorClaims.

Lemma unequal_sizes_raise_first_witness :
  let st : state Z :=
    State [Obj CVector [VNum 1%Z; VNum 2%Z]; Obj CVector [VNum 3%Z]] [] in
  (heap st !! 0 = Some (Obj CVector [VNum 1%Z; VNum 2%Z]) /\
   heap st !! 1 = Some (Obj CVector [VNum 3%Z]) /\
   length [VNum 1%Z; VNum 2%Z] <> length [VNum 3%Z]) /\
  Vector.__add__ (VRef 0) (VRef 1) st = (Raise (TypeError Vector.msg_length), st) /\
  Vector.__sub__ (VRef 0) (VRef 1) st = (Raise (TypeError Vector.msg_length), st) /\
  Vector.scalar_prod (VRef 0) (VRef 1) st = (Raise (TypeError Vector.msg_length), st).
Proof.
  intros st. split.
  - repeat split; [simpl; lia].
  - apply (unequal_sizes_raise_first st 0 1 [VNum 1%Z; VNum 2%Z] [VNum 3%Z]);
      [reflexivity | reflexivity | simpl; lia].
Defined.

Lemma add_elementwise_witness :
  let st : state Z :=
    State [Obj CVector [VNum 1%Z; VNum 2%Z]; Obj CVector [VNum 30%Z; VNum 40%Z]] [] in
  (vec_at (heap st) 0 [1%Z; 2%Z] /\ vec_at (heap st) 1 [30%Z; 40%Z]) /\
  exists r zs st',
    Vector.__add__ (VRef 0) (VRef 1) st = (Ok (VRef r), st') /\
    heap st !! r = None /\
    vec_at (heap st') r zs /\
    length zs = 2 /\
    forall i, i < 2 ->
      exists x y, [1%Z; 2%Z] !! i = Some x /\ [30%Z; 40%Z] !! i = Some y /\
                  zs !! i = Some (sadd x y).
Proof.
  intros st. split.
  - split; reflexivity.
  - apply (add_elementwise st 0 1 [1%Z; 2%Z] [30%Z; 40%Z] 2); reflexivity.
Defined.

(** C3.  A [Vector] of two numbers against a plain list of one: the guard
    answers [NotImplemented], the methods go on, and [zip] cuts the longer
    operand short. *)
Theorem plain_list_operand_truncates :
  let st : state Z := State [Obj CVector [VNum 1%Z; VNum 2%Z]; Obj CList [VNum 10%Z]] [] in
  Vector._ensure_compatibility (VRef 0) (VRef 1) st = (Ok NotImplemented, st) /\
  Vector.__add__ (VRef 0) (VRef 1) st
  = (Ok (VRef 2),
     State [Obj CVector [VNum 1%Z; VNum 2%Z]; Obj CList [VNum 10%Z];
            Obj CVector [VNum 11%Z]]
           [EvRead 0 0; EvRead 1 0; EvRead 0 1; EvNew 2]) /\
  Vector.__sub__ (VRef 0) (VRef 1) st
  = (Ok (VRef 2),
     State [Obj CVector [VNum 1%Z; VNum 2%Z]; Obj CList [VNum 10%Z];
            Obj CVector [VNum (-9)%Z]]
           [EvRead 0 0; EvRead 1 0; EvRead 0 1; EvNew 2]) /\
  Vector.scalar_prod (VRef 0) (VRef 1) st
  = (Ok (VNum 10%Z),
     State [Obj CVector [VNum 1%Z; VNum 2%Z]; Obj CList [VNum 10%Z]]
           [EvRead 0 0; EvRead 1 0; EvRead 0 1]).
Proof. repeat split. Qed.

Section MatrixClaims.
Context {S : Type} `{ScalarLaws S}.



(** C6.  [a * b] for two [Matrix] objects.  Whenever the product is
    defined, the method has built a new [Matrix] [p] with one new [Vector]
    per column of [b]; it returns the only column of [p] when [p] has
    exactly one, and [p] itself otherwise.  The product is defined for [a]
    of [r] rows and [c] columns and [b] of [c] rows and [k] columns, [c]
    and [k] not zero, and the columns of [p] then hold the numbers of the
    product. *)
Theorem mul_matrix_collapse (st : state S) (a b : loc) (ia ib : list (value S)) :
  heap st !! a = Some (Obj CMatrix ia) ->
  heap st !! b = Some (Obj CMatrix ib) ->
  (forall w st',
     Matrix.__mul__ (VRef a) (VRef b) st = (Ok w, st') ->
     exists p ls,
       heap st !! p = None /\
       heap st' !! p = Some (Obj CMatrix (VRef <$> ls)) /\
       length ls = length ib /\
       Forall (fun l => exists items, heap st' !! l = Some (Obj CVector items)) ls /\
       (length ls = 1 -> exists l, ls = [l] /\ w = VRef l) /\
       (length ls <> 1 -> w = VRef p)) /\
  (forall A B r c k,
     mat_at (heap st) a A -> shape r c A -> 0 < c ->
     mat_at (heap st) b B -> shape c k B -> 0 < k ->
     exists w st' p ls,
       Matrix.__mul__ (VRef a) (VRef b) st = (Ok w, st') /\
       heap st' !! p = Some (Obj CMatrix (VRef <$> ls)) /\
       Forall2 (vec_at (heap st')) ls (mat_mul r A B) /\
       (k = 1 -> exists l, ls = [l] /\ w = VRef l /\
                           vec_at (heap st') l (mat_vec r A (nth 0 B []))) /\
       (k <> 1 -> w = VRef p)).
Proof.
  intros Ha Hb. split.
  - intros w st' Hrun. unfold Matrix.__mul__ in Hrun.
    apply bind_inv in Hrun as ([] & st1 & Hguard & Hrun).
    pose proof (grows_ok _ _ _ _ (grows_ensure_multiplicable _ _) Hguard) as Hext.
    pose proof (prefix_lookup_Some _ _ _ _ Hb Hext) as Hb1.
    rewrite (bind_ok _ _ _ _ _ (isinstance_ref _ _ CVector _ Hb1)) in Hrun.
    cbn [obj_cls cls_eqb] in Hrun.
    apply bind_inv in Hrun as (m & st2 & Hprod & Hrun).
    unfold Matrix.product_matrix in Hprod.
    apply bind_inv in Hprod as (oc & stA & Hcols & Hprod).
    unfold Matrix.cols in Hcols. rewrite (py_len_ref _ _ _ Hb1) in Hcols.
    injection Hcols as <- <-.
    apply bind_inv in Hprod as (items & stB & Hitems & Hnew).
    pose proof (grows_ok _ _ _ _
                  (grows_mapM _ _ (fun k => grows_product_column _ _ (grows_getitem _ k)))
                  Hitems) as HextB.
    destruct (mapM_ok_Forall
                (fun k => Matrix.product_column (VRef a) (getitem (VRef b) k))
                (fun v h => exists l its, v = VRef l /\ h !! l = Some (Obj CVector its))
                (range (length ib)))
      with (st := st1) (bs := items) (st' := stB) as [Hall Hlen].
    { intros v h h' (l & its & -> & Hl) Hh. exists l, its.
      split; [done|]. by eapply prefix_lookup_Some. }
    { intros k. apply grows_product_column, grows_getitem. }
    { intros k sta v stb Hcol.
      destruct (product_column_ok _ _ _ _ _ (grows_getitem _ _) Hcol)
        as (l & its & -> & _ & Hl). by exists l, its. }
    { exact Hitems. }
    injection Hnew as <- <-.
    set (p := length (heap stB)) in *.
    set (st2 := State (heap stB ++ [Obj CMatrix items]) (trace stB ++ [EvNew p])) in *.
    assert (heap st2 !! p = Some (Obj CMatrix items)) as Hp
      by (subst st2 p; simpl; by rewrite lookup_app_r, Nat.sub_diag).
    apply Forall_vector_refs in Hall as (ls & Hitems_ls & Hls0). subst items.
    assert (Forall (fun l => exists its, heap st2 !! l = Some (Obj CVector its)) ls)
      as Hls.
    { eapply Forall_impl; [exact Hls0|]. intros l [its Hl]. exists its.
      subst st2. simpl. by apply lookup_app_l_Some. }
    rewrite length_fmap in Hlen. unfold range in Hlen. rewrite length_seq in Hlen.
    simpl in Hlen.
    unfold Matrix.cols in Hrun.
    rewrite (bind_ok _ _ _ _ _ (py_len_ref _ _ _ Hp)) in Hrun.
    cbn [obj_items] in Hrun. rewrite length_fmap in Hrun.
    assert (heap st !! p = None) as Hfresh.
    { apply lookup_ge_None_2. subst p.
      apply prefix_length in Hext. apply prefix_length in HextB. lia. }
    destruct (decide (length ls = 1)) as [Hone|Hmany].
    + destruct ls as [|l0 [|? ?]]; [simpl in Hone; lia | | simpl in Hone; lia].
      rewrite (getitem_ref _ _ 0 (VRef l0) _ Hp eq_refl) in Hrun.
      injection Hrun as <- <-. exists p, [l0].
      repeat split; [done..| |done].
      intros _. by exists l0.
    + injection Hrun as <- <-. exists p, ls. by repeat split.
  - intros A B r c k HA Hs Hc HB HsB Hk.
    destruct (returns_mul_matrix (heap st) st a b A B r c k)
      as (w & st' & Hrun & Hext & p & ls & Hp & Hfresh & Hobj & Hcols & ->);
      [done..|].
    exists (if decide (k = 1) then nth 0 (VRef <$> ls) (VRef p) else VRef p), st', p, ls.
    repeat split; [done..| |].
    + intros ->. destruct HsB as [HlenB _].
      destruct B as [|col [|? ?]]; simplify_eq/=.
      inversion Hcols as [|l0 ? ls0 ? Hl0 Hrest]; subst. inversion Hrest; subst.
      exists l0. by repeat split.
    + intros Hk1. by rewrite decide_False.
Qed.

End MatrixClaims.





Lemma mul_matrix_collapse_witness :
  let st : state Z :=
    State [Obj CVector [VNum 1%Z; VNum 2%Z]; Obj CVector [VNum 3%Z; VNum 4%Z];
           Obj CMatrix [VRef 0; VRef 1];
           Obj CVector [VNum 5%Z; VNum 6%Z]; Obj CMatrix [VRef 3]] [] in
  let A := [[1%Z; 2%Z]; [3%Z; 4%Z]] in
  let B := [[5%Z; 6%Z]] in
  (heap st !! 2 = Some (Obj CMatrix [VRef 0; VRef 1]) /\
   heap st !! 4 = Some (Obj CMatrix [VRef 3]) /\
   mat_at (heap st) 2 A /\ shape 2 2 A /\ mat_at (heap st) 4 B /\ shape 2 1 B) /\
  exists w st',
    Matrix.__mul__ (VRef 2) (VRef 4) st = (Ok w, st') /\
    (exists p ls,
       heap st !! p = None /\
       heap st' !! p = Some (Obj CMatrix (VRef <$> ls)) /\
       length ls = 1 /\
       Forall (fun l => exists items, heap st' !! l = Some (Obj CVector items)) ls /\
       (length ls = 1 -> exists l, ls = [l] /\ w = VRef l) /\
       (length ls <> 1 -> w = VRef p)) /\
    (exists p ls,
       heap st' !! p = Some (Obj CMatrix (VRef <$> ls)) /\
       Forall2 (vec_at (heap st')) ls (mat_mul 2 A B) /\
       (1 = 1 -> exists l, ls = [l] /\ w = VRef l /\
                           vec_at (heap st') l (mat_vec 2 A (nth 0 B []))) /\
       (1 <> 1 -> w = VRef p)).
Proof.
  intros st A B.
  assert (mat_at (heap st) 2 A) as Ha.
  { exists [0; 1]. split; [reflexivity | repeat constructor]. }
  assert (shape 2 2 A) as HA.
  { split; [reflexivity | repeat constructor]. }
  assert (mat_at (heap st) 4 B) as Hb.
  { exists [3]. split; [reflexivity | repeat constructor]. }
  assert (shape 2 1 B) as HB.
  { split; [reflexivity | repeat constructor]. }
  split.
  - split; [reflexivity|]. split; [reflexivity|]. split; [exact Ha|].
    split; [exact HA|]. split; [exact Hb | exact HB].
  - destruct (mul_matrix_collapse st 2 4 [VRef 0; VRef 1] [VRef 3] eq_refl eq_refl)
      as [Hshape Hvalues].
    destruct (Hvalues A B 2 2 1 Ha HA (le_S 1 1 (le_n 1)) Hb HB (le_n 1))
      as (w & st' & p & ls & Hrun & Hrest).
    exists w, st'. split; [exact Hrun|]. split.
    + exact (Hshape w st' Hrun).
    + exists p, ls. exact Hrest.
Defined.

Section RightMultiplication.
Context {S : Type} `{Scalar S}.

(** C4, amended.  [v * m] for a [Vector] [v] and a [Matrix] [m] of [r]
    rows and [k >= 1] columns wraps [v] as the only column of a new
    [Matrix] and hands that and [m] to [Matrix.__mul__].  The product is
    defined exactly when [r = 1]; column [j] of it holds, for every item
    [x] of [v], the number [0 + x * m[j][0]], and it is handed out by its
    only column when [k = 1].  When [r <> 1] the shape guard raises.  A
    left operand that is no [Vector] is turned down before anything else
    happens. *)
Theorem rmul_wraps_vector_as_column (st : state S) (m v : loc)
    (cs : list (list S)) (xs : list S) (r k : nat) :
  mat_at (heap st) m cs -> shape r k cs -> 0 < k -> vec_at (heap st) v xs ->
  Matrix.__rmul__ (VRef m) (VRef v) st
  = (w <- new CMatrix [VRef v] ;; Matrix.__mul__ w (VRef m)) st /\
  (r = 1 ->
   exists w st' p ls,
     Matrix.__rmul__ (VRef m) (VRef v) st = (Ok w, st') /\
     heap st' !! p = Some (Obj CMatrix (VRef <$> ls)) /\
     Forall2 (vec_at (heap st')) ls
       ((fun col => (fun x => sadd (of_int 0%Z) (smul x (nth 0 col (of_int 0%Z)))) <$> xs)
          <$> cs) /\
     w = if decide (k = 1) then nth 0 (VRef <$> ls) (VRef p) else VRef p) /\
  (r <> 1 -> raises (Matrix.__rmul__ (VRef m) (VRef v)) st (TypeError Matrix.msg_shape)) /\
  (forall w, isinstance w CVector st = (Ok false, st) ->
     Matrix.__rmul__ (VRef m) w st = (Raise (TypeError Matrix.msg_operand), st)).
Proof.
  intros Hm Hs Hk Hv. split; [by eapply rmul_delegates|]. split; [|split].
  - intros ->.
    assert (returns (w <- new CMatrix [VRef v] ;; Matrix.__mul__ w (VRef m)) st
              (fun w h' => exists p ls,
                 h' !! p = Some (Obj CMatrix (VRef <$> ls)) /\
                 Forall2 (vec_at h') ls (mat_mul (length xs) [xs] cs) /\
                 w = if decide (k = 1) then nth 0 (VRef <$> ls) (VRef p) else VRef p))
      as (w & st' & Hrun & p & ls & Hobj & Hcols & ->).
    { apply returns_bind. eapply returns_new; [done|]. intros st1 Hst1.
      eapply returns_mono.
      { eapply (returns_mul_matrix _ st1 (length (heap st)) m [xs] cs (length xs) 1 k);
          [done | by apply mat_at_wrapped | by repeat constructor | lia | | done | done].
        eapply mat_at_grow; [done|]. by apply prefix_app_r. }
      intros w h' (_ & p & ls & _ & _ & Hobj & Hcols & ->). by exists p, ls. }
    exists (if decide (k = 1) then nth 0 (VRef <$> ls) (VRef p) else VRef p), st', p, ls.
    rewrite (rmul_delegates st m v xs Hv). repeat split; [done..|].
    replace ((fun col => (fun x => sadd (of_int 0%Z) (smul x (nth 0 col (of_int 0%Z))))
                           <$> xs) <$> cs)
      with (mat_mul (length xs) [xs] cs); [done|].
    unfold mat_mul. apply list_fmap_ext. intros j col Hcol.
    apply mat_vec_single. by eapply shape_col.
  - intros Hr. unfold raises. rewrite (rmul_delegates st m v xs Hv).
    apply raises_bind. eapply returns_new; [done|].
    set (h1 := heap st ++ [Obj CMatrix [VRef v]]). intros st1 Hst1.
    assert (mat_at h1 m cs) as Hm1.
    { eapply mat_at_grow; [done|]. by apply prefix_app_r. }
    pose proof Hm1 as (lsm & Hobj & _).
    unfold Matrix.__mul__. apply raises_first.
    unfold Matrix._ensure_multiplicable. apply raises_bind.
    eapply returns_isinstance; [exact Hst1 | exact Hobj |]. simpl. intros st2 Hst2.
    apply raises_bind. eapply returns_rows; [exact Hst2 | exact Hm1 | done..|].
    intros st3 Hst3.
    apply raises_bind. eapply returns_cols; [exact Hst3 | by apply mat_at_wrapped |].
    intros st4 Hst4. simpl. rewrite decide_True by lia. apply raises_raise.
  - intros w Hw. unfold Matrix.__rmul__. by rewrite (bind_ok _ _ _ _ _ Hw).
Qed.

End RightMultiplication.

Lemma rmul_wraps_vector_as_column_witness :
  let st : state Z :=
    State [Obj CVector [VNum 1%Z; VNum 2%Z]; Obj CVector [VNum 2%Z];
           Obj CVector [VNum 3%Z]; Obj CMatrix [VRef 1; VRef 2]] [] in
  let cs := [[2%Z]; [3%Z]] in
  let xs := [1%Z; 2%Z] in
  (mat_at (heap st) 3 cs /\ shape 1 2 cs /\ 0 < 2 /\ vec_at (heap st) 0 xs) /\
  Matrix.__rmul__ (VRef 3) (VRef 0) st
  = (w <- new CMatrix [VRef 0] ;; Matrix.__mul__ w (VRef 3)) st /\
  (1 = 1 ->
   exists w st' p ls,
     Matrix.__rmul__ (VRef 3) (VRef 0) st = (Ok w, st') /\
     heap st' !! p = Some (Obj CMatrix (VRef <$> ls)) /\
     Forall2 (vec_at (heap st')) ls
       ((fun col => (fun x => sadd (of_int 0%Z) (smul x (nth 0 col (of_int 0%Z)))) <$> xs)
          <$> cs) /\
     w = if decide (2 = 1) then nth 0 (VRef <$> ls) (VRef p) else VRef p) /\
  (1 <> 1 -> raises (Matrix.__rmul__ (VRef 3) (VRef 0)) st (TypeError Matrix.msg_shape)) /\
  (forall w, isinstance w CVector st = (Ok false, st) ->
     Matrix.__rmul__ (VRef 3) w st = (Raise (TypeError Matrix.msg_operand), st)).
Proof.
  intros st cs xs.
  assert (mat_at (heap st) 3 cs) as Hm.
  { exists [1; 2]. split; [reflexivity|]. repeat constructor. }
  assert (shape 1 2 cs) as Hs.
  { split; [reflexivity|]. repeat constructor. }
  split.
  - split; [exact Hm|]. split; [exact Hs|]. split; [lia | reflexivity].
  - apply (rmul_wraps_vector_as_column st 3 0 cs xs 1 2);
      [exact Hm | exact Hs | lia | reflexivity].
Defined.

(** C4 as stated fails on a [Vector] of 2 numbers and a 2-by-2 [Matrix]:
    the size of the vector equals the number of rows of the matrix, and the
    product raises. *)
Lemma rmul_square_matrix_raises :
  let st : state Z :=
    State [Obj CVector [VNum 1%Z; VNum 2%Z]; Obj CVector [VNum 1%Z; VNum 0%Z];
           Obj CVector [VNum 0%Z; VNum 1%Z]; Obj CMatrix [VRef 1; VRef 2]] [] in
  let cs := [[1%Z; 0%Z]; [0%Z; 1%Z]] in
  (vec_at (heap st) 0 [1%Z; 2%Z] /\ mat_at (heap st) 3 cs /\ shape 2 2 cs) /\
  ~ exists w st', Matrix.__rmul__ (VRef 3) (VRef 0) st = (Ok w, st').
Proof.
  intros st cs. split.
  - split; [reflexivity|]. split.
    + exists [1; 2]. split; [reflexivity|]. repeat constructor.
    + split; [reflexivity|]. repeat constructor.
  - intros (w & st' & Hrun). vm_compute in Hrun. discriminate.
Qed.

Section ConvertClaims.
Context {S : Type} `{Scalar S}.

(** C10.  [convert(v, m, dv)] never changes an object that is already in
    the store, whatever its operands are and however it ends.  For a
    [Matrix] [m] of [r] rows and [c >= 1] columns, a [Vector] [v] of [c]
    numbers and a [Vector] [dv] of [r] numbers it returns a [Vector] that
    was not in the store before and holds [m * v + dv]; [v], [dv], [m] and
    the columns of [m] are found as they were. *)
Theorem convert_fresh_and_frame (st : state S) (a b d : value S) :
  (forall l o, heap st !! l = Some o -> heap (convert a b d st).2 !! l = Some o) /\
  (forall v m dv cs xs ds r c,
     a = VRef v -> b = VRef m -> d = VRef dv ->
     mat_at (heap st) m cs -> shape r c cs -> 0 < c ->
     vec_at (heap st) v xs -> length xs = c ->
     vec_at (heap st) dv ds -> length ds = r ->
     exists w st',
       convert a b d st = (Ok (VRef w), st') /\
       heap st !! w = None /\
       vec_at (heap st') w (affine r cs ds xs) /\
       vec_at (heap st') v xs /\ vec_at (heap st') dv ds /\ mat_at (heap st') m cs).
Proof.
  split.
  - intros l o Hl. eapply prefix_lookup_Some; [exact Hl | apply grows_convert].
  - intros v m dv cs xs ds r c -> -> -> Hm Hs Hc Hv Hxs Hdv Hds.
    destruct (returns_convert (heap st) st v m dv cs xs ds r c)
      as (w & st' & Hrun & Hext & l & -> & Hl & Hw); [done..|].
    exists l, st'. repeat split; [done | by apply lookup_ge_None_2 | done | ..].
    + by eapply vec_at_grow.
    + by eapply vec_at_grow.
    + by eapply mat_at_grow.
Qed.

End ConvertClaims.

Lemma convert_fresh_and_frame_witness :
  let st : state Z :=
    State [Obj CVector [VNum 1%Z; VNum 2%Z]; Obj CVector [VNum 3%Z; VNum 4%Z];
           Obj CMatrix [VRef 0; VRef 1];
           Obj CVector [VNum 5%Z; VNum 6%Z]; Obj CVector [VNum 10%Z; VNum 20%Z]] [] in
  let cs := [[1%Z; 2%Z]; [3%Z; 4%Z]] in
  (mat_at (heap st) 2 cs /\ shape 2 2 cs /\ 0 < 2 /\
   vec_at (heap st) 3 [5%Z; 6%Z] /\ vec_at (heap st) 4 [10%Z; 20%Z]) /\
  exists w st',
    convert (VRef 3) (VRef 2) (VRef 4) st = (Ok (VRef w), st') /\
    heap st !! w = None /\
    vec_at (heap st') w (affine 2 cs [10%Z; 20%Z] [5%Z; 6%Z]) /\
    vec_at (heap st') 3 [5%Z; 6%Z] /\ vec_at (heap st') 4 [10%Z; 20%Z] /\
    mat_at (heap st') 2 cs.
Proof.
  intros st cs.
  assert (mat_at (heap st) 2 cs) as Hm.
  { exists [0; 1]. split; [reflexivity|]. repeat constructor. }
  assert (shape 2 2 cs) as Hs.
  { split; [reflexivity|]. repeat constructor. }
  split.
  - split; [exact Hm|]. split; [exact Hs|]. split; [lia|]. split; reflexivity.
  - apply (proj2 (convert_fresh_and_frame st (VRef 3) (VRef 2) (VRef 4))
             3 2 4 cs [5%Z; 6%Z] [10%Z; 20%Z] 2 2);
      first [reflexivity | exact Hm | exact Hs | lia].
Defined.

(** C2, amended.  For every angle, [create_rotation_matrix] returns a new
    [Matrix] of two columns: the first is the [Vector] of [cos] and [sin]
    of the angle, the second the [Vector] of [-sin] and [cos]. *)
Theorem rotation_matrix_columns {S : Type} `{Scalar S} `{Trig S}
    (st : state S) (angle : S) :
  exists r st',
    create_rotation_matrix angle st = (Ok (VRef r), st') /\
    heap st !! r = None /\
    heap st `prefix_of` heap st' /\
    mat_at (heap st') r
      [[scos angle; ssin angle]; [sneg (ssin angle); scos angle]].
Proof.
  eexists _, _. split; [reflexivity|]. simpl.
  split; [apply lookup_ge_None_2; rewrite !length_app; simpl; lia|].
  split; [rewrite <- !app_assoc; by apply prefix_app_r|].
  exists [length (heap st); length (heap st ++ [Obj CVector [VNum (scos angle); VNum (ssin angle)]])].
  split.
  - by rewrite lookup_app_r, Nat.sub_diag.
  - rewrite <- !app_assoc. simpl. constructor; [|constructor; [|constructor]].
    + unfold vec_at. by rewrite lookup_app_r, Nat.sub_diag.
    + unfold vec_at. rewrite length_app. simpl.
      rewrite lookup_app_r by lia.
      by replace (length (heap st) + 1 - length (heap st)) with 1 by lia.
Qed.

(** C2 as stated fails at a quarter turn: the first column would have to
    hold [-sin], and [sin (PI / 2)] is [1]. *)
Lemma rotation_quarter_turn_first_column :
  ~ exists r st',
      create_rotation_matrix (PI / 2)%R (State [] []) = (Ok (VRef r), st') /\
      mat_at (heap st') r
        [[cos (PI / 2); - sin (PI / 2)]; [sin (PI / 2); cos (PI / 2)]]%R.
Proof.
  intros (r & st' & Hrun & ls & Hobj & Hcols).
  injection Hrun as <- <-. simpl in Hobj. injection Hobj as Hls.
  destruct ls as [|l0 [|l1 [|? ?]]]; simplify_eq/=.
  inversion Hcols as [|? ? ? ? Hfirst _]; subst.
  unfold vec_at in Hfirst. simpl in Hfirst. injection Hfirst as Hsin.
  rewrite sin_PI2 in Hsin. lra.
Qed.




(** * Further properties of the methods *)

(** ** Vector: subtraction, the scalar product and the in-place operations *)

Section VectorMore.
Context {S : Type} `{Scalar S}.
Implicit Types (st : state S) (h : list (obj S)).

Lemma dot_from_comm (xs ys : list S) (acc : S) :
  (forall x y, smul x y = smul y x) ->
  fold_left (fun acc p => sadd acc (smul p.1 p.2)) (zip xs ys) acc
  = fold_left (fun acc p => sadd acc (smul p.1 p.2)) (zip ys xs) acc.
Proof.
  intros Hcomm. revert ys acc.
  induction xs as [|x xs IH]; intros [|y ys] acc; simpl; try done.
  rewrite (Hcomm x y). apply IH.
Qed.

Lemma updated_prefix_step op i (xs ys : list S) x y :
  xs !! i = Some x -> ys !! i = Some y ->
  <[i := op x y]> (updated_prefix op i xs ys) = updated_prefix op (Datatypes.S i) xs ys.
Proof.
  revert xs ys. induction i as [|i IH]; intros [|x0 xs] [|y0 ys] Hx Hy;
    simplify_eq/=; try done.
  f_equal. by apply IH.
Qed.

Lemma updated_prefix_lookup_ge op n (xs ys : list S) i :
  n <= i -> updated_prefix op n xs ys !! i = xs !! i.
Proof.
  revert xs ys i. induction n as [|n IH]; intros [|x xs] [|y ys] i Hi; simpl; try done.
  destruct i as [|i]; [lia|]. simpl. apply IH. lia.
Qed.

Lemma updated_prefix_length op n (xs ys : list S) :
  length (updated_prefix op n xs ys) = length xs.
Proof.
  revert xs ys. induction n as [|n IH]; intros [|x xs] [|y ys]; simpl; try done.
  by rewrite IH.
Qed.

Lemma updated_prefix_all op (xs ys : list S) :
  length xs = length ys -> updated_prefix op (length xs) xs ys = zip_with op xs ys.
Proof.
  revert ys. induction xs as [|x xs IH]; intros [|y ys] Hlen; simplify_eq/=; try done.
  by rewrite IH.
Qed.

Lemma updated_prefix_short op (xs ys : list S) :
  length ys <= length xs ->
  updated_prefix op (length ys) xs ys = zip_with op xs ys ++ drop (length ys) xs.
Proof.
  revert ys. induction xs as [|x xs IH]; intros [|y ys] Hlen; simpl in *;
    try done; try lia.
  by rewrite IH by lia.
Qed.

Lemma fmap_VNum_inj (xs ys : list S) : VNum <$> xs = VNum <$> ys -> xs = ys.
Proof.
  revert ys. induction xs as [|x xs IH]; intros [|y ys] Heq; simplify_eq/=; try done.
  f_equal. by apply IH.
Qed.

(** The rounds [i .. i + len - 1] of [self[i] op= other[i]], for [self] a
    [Vector] of the numbers [xs] at [a] and [other] an object of any class
    that holds the numbers [ys] at [b]; the two may be one object. *)
Lemma returns_inplace_rounds op h0 a b cb (xs ys : list S) len :
  h0 !! a = Some (Obj CVector (VNum <$> xs)) ->
  h0 !! b = Some (Obj cb (VNum <$> ys)) ->
  forall i st,
    i + len <= length xs -> i + len <= length ys ->
    heap st = <[a := Obj CVector (VNum <$> updated_prefix op i xs ys)]> h0 ->
    returns (foldM (fun (_ : unit) k =>
                      x <- getitem (VRef a) k ;;
                      y <- getitem (VRef b) k ;;
                      z <- arith op x y ;;
                      setitem (VRef a) k z)
                   tt (seq i len)) st
            (fun _ h' =>
               h' = <[a := Obj CVector (VNum <$> updated_prefix op (i + len) xs ys)]> h0).
Proof.
  intros Ha Hb. pose proof (lookup_lt_Some _ _ _ Ha) as Hlt.
  induction len as [|len IH]; intros i st Hx Hy Hst.
  - eapply returns_ret; [done|]. by rewrite Nat.add_0_r.
  - assert (heap st !! a = Some (Obj CVector (VNum <$> updated_prefix op i xs ys))) as Ha1
      by (rewrite Hst; by apply list_lookup_insert_eq).
    destruct (lookup_lt_is_Some_2 xs i) as [x Ex]; [lia|].
    destruct (lookup_lt_is_Some_2 ys i) as [y Ey]; [lia|].
    assert (exists ob, heap st !! b = Some ob /\ obj_items ob !! i = Some (VNum y))
      as (ob & Hb1 & Hy1).
    { destruct (decide (a = b)) as [->|Hne].
      - eexists. split; [exact Ha1|]. simpl.
        rewrite Ha in Hb. injection Hb as _ Hitems.
        apply fmap_VNum_inj in Hitems. subst ys.
        by rewrite list_lookup_fmap, updated_prefix_lookup_ge, Ey by lia.
      - eexists. split; [rewrite Hst; by rewrite list_lookup_insert_ne|].
        simpl. by rewrite list_lookup_fmap, Ey. }
    cbn [seq foldM]. apply returns_bind. apply returns_bind.
    eapply returns_getitem; [reflexivity | exact Ha1 | |].
    { simpl. by rewrite list_lookup_fmap, updated_prefix_lookup_ge, Ex by lia. }
    intros st1 Hst1. apply returns_bind.
    eapply returns_getitem; [exact Hst1 | exact Hb1 | exact Hy1 |].
    intros st2 Hst2. apply returns_bind. eapply returns_arith; [exact Hst2|].
    intros st3 Hst3.
    eapply returns_setitem; [exact Hst3 | exact Ha1 | |].
    { simpl. rewrite length_fmap, updated_prefix_length. lia. }
    intros st4 Hst4.
    eapply returns_mono.
    { apply (IH (Datatypes.S i) st4); [lia | lia |].
      rewrite Hst4, Hst. simpl. rewrite list_insert_insert_eq.
      by rewrite <- list_fmap_insert, (updated_prefix_step op i xs ys x y). }
    intros _ h' ->. by replace (i + Datatypes.S len) with (Datatypes.S i + len) by lia.
Qed.

End VectorMore.

Section VectorExtras.
Context {S : Type} `{Scalar S}.
Implicit Types (st : state S) (h : list (obj S)).

Lemma raises_with_bind {A B} (m : M S A) (k : A -> M S B) st e Q :
  returns m st (fun a h' => forall st', heap st' = h' -> raises_with (k a) st' e Q) ->
  raises_with (bind m k) st e Q.
Proof.
  intros (a & st1 & Hm & Hk). destruct (Hk st1 eq_refl) as (st2 & Hraise & HQ).
  exists st2. by rewrite (bind_ok _ _ _ _ _ Hm).
Qed.

Lemma raises_with_first {A B} (m : M S A) (k : A -> M S B) st e Q :
  raises_with m st e Q -> raises_with (bind m k) st e Q.
Proof. intros (st' & Hm & HQ). exists st'. split; [by apply bind_raise | done]. Qed.

Lemma getitem_past_end l o i st :
  heap st !! l = Some o -> obj_items o !! i = None ->
  getitem (VRef l) i st = (Raise IndexError, st).
Proof. intros Hl Hi. unfold getitem, bind, deref, raise. by rewrite Hl, Hi. Qed.

Lemma foldM_app {A B} (f : B -> A -> M S B) (xs ys : list A) (b : B) st :
  foldM f b (xs ++ ys) st = bind (foldM f b xs) (fun b' => foldM f b' ys) st.
Proof.
  revert b st. induction xs as [|x xs IH]; intros b st; simpl.
  - unfold bind, ret. done.
  - unfold bind. destruct (f b x st) as [[b'| |] st1]; [|done..].
    rewrite IH. done.
Qed.

Lemma raises_with_foldM_app {A B} (f : B -> A -> M S B) (xs ys : list A) b st e Q :
  returns (foldM f b xs) st
          (fun b' h' => forall st', heap st' = h' -> raises_with (foldM f b' ys) st' e Q) ->
  raises_with (foldM f b (xs ++ ys)) st e Q.
Proof.
  intros Hxs. apply raises_with_bind in Hxs. destruct Hxs as (st' & Hrun & HQ).
  exists st'. by rewrite foldM_app.
Qed.

Lemma returns_sub h st a b (xs ys : list S) :
  heap st = h -> vec_at h a xs -> vec_at h b ys -> length xs = length ys ->
  returns (Vector.__sub__ (VRef a) (VRef b)) st
          (fun r h' => r = VRef (length h) /\
                       h' = h ++ [Obj CVector (VNum <$> zip_with ssub xs ys)]).
Proof.
  intros Hst Ha Hb Hlen. unfold Vector.__sub__.
  apply returns_bind. eapply returns_ensure_compatibility; [done..|].
  intros st1 Hst1. apply returns_bind.
  eapply returns_mono; [by eapply returns_zip_mapM|].
  intros items h' [-> ->] st2 Hst2. by eapply returns_new.
Qed.

Lemma returns_inplace op h st a b (xs ys : list S) :
  heap st = h -> vec_at h a xs -> vec_at h b ys -> length xs = length ys ->
  returns (Vector._ensure_compatibility (VRef a) (VRef b) ;;;
           n <- Vector.size (VRef a) ;;
           foldM (fun (_ : unit) i =>
                    x <- getitem (VRef a) i ;;
                    y <- getitem (VRef b) i ;;
                    z <- arith op x y ;;
                    setitem (VRef a) i z)
                 tt (range n) ;;;
           ret (VRef a : value S)) st
          (fun r h' => r = VRef a /\
                       h' = <[a := Obj CVector (VNum <$> zip_with op xs ys)]> h).
Proof.
  intros Hst Ha Hb Hlen.
  apply returns_bind. eapply returns_ensure_compatibility; [done..|].
  intros st1 Hst1. apply returns_bind. unfold Vector.size.
  eapply returns_len; [done..|]. intros st2 Hst2. simpl. rewrite length_fmap.
  apply returns_bind.
  eapply returns_mono.
  { apply (returns_inplace_rounds op h a b CVector xs ys (length xs) Ha Hb 0 st2);
      [lia | lia |].
    rewrite Hst2. simpl. symmetry. apply list_insert_id.
    destruct xs; by destruct ys. }
  intros _ h' -> st3 Hst3. eapply returns_ret; [done|]. split; [done|].
  simpl. by rewrite updated_prefix_all.
Qed.

(** X1.  Two [Vector]s of equal size: [a - b] returns a [Vector] that was
    not in the store before, whose item [i] is [a[i] - b[i]]; the store is
    otherwise as it was. *)
Theorem sub_elementwise (st : state S) (a b : loc) (xs ys : list S) :
  vec_at (heap st) a xs -> vec_at (heap st) b ys -> length xs = length ys ->
  exists st',
    Vector.__sub__ (VRef a) (VRef b) st = (Ok (VRef (length (heap st))), st') /\
    heap st' = heap st ++ [Obj CVector (VNum <$> zip_with ssub xs ys)].
Proof.
  intros Ha Hb Hlen.
  destruct (returns_sub (heap st) st a b xs ys) as (w & st' & Hrun & -> & Hheap);
    [done..|].
  by exists st'.
Qed.

(** X2.  When the multiplication of the numbers commutes, so does the
    scalar product: [a.scalar_prod(b)] and [b.scalar_prod(a)] return the
    same number, the sum of the products of the items started from the
    integer [0], and neither call changes the store. *)
Theorem scalar_prod_commutes (st : state S) (a b : loc) (xs ys : list S) :
  (forall x y : S, smul x y = smul y x) ->
  vec_at (heap st) a xs -> vec_at (heap st) b ys -> length xs = length ys ->
  exists st1 st2,
    Vector.scalar_prod (VRef a) (VRef b) st = (Ok (VNum (dot xs ys)), st1) /\
    Vector.scalar_prod (VRef b) (VRef a) st = (Ok (VNum (dot xs ys)), st2) /\
    heap st1 = heap st /\ heap st2 = heap st.
Proof.
  intros Hcomm Ha Hb Hlen.
  destruct (returns_scalar_prod (heap st) st a b xs ys)
    as (w1 & st1 & Hrun1 & Hh1 & ->); [done..|].
  destruct (returns_scalar_prod (heap st) st b a ys xs)
    as (w2 & st2 & Hrun2 & Hh2 & ->); [done..|].
  exists st1, st2. repeat split; [done | | done..].
  rewrite Hrun2. do 3 f_equal. unfold dot. symmetry. by apply dot_from_comm.
Qed.

(** X3.  Two [Vector]s of equal size, which may be one and the same object:
    [a += b] and [a -= b] return [a] itself, put [a[i] + b[i]] (or
    [a[i] - b[i]]) of the items found at the call into item [i] of [a],
    create no object and change no other one. *)
Theorem inplace_updates_left_operand (st : state S) (a b : loc) (xs ys : list S) :
  vec_at (heap st) a xs -> vec_at (heap st) b ys -> length xs = length ys ->
  (exists st',
     Vector.__iadd__ (VRef a) (VRef b) st = (Ok (VRef a), st') /\
     heap st' = <[a := Obj CVector (VNum <$> zip_with sadd xs ys)]> (heap st)) /\
  (exists st',
     Vector.__isub__ (VRef a) (VRef b) st = (Ok (VRef a), st') /\
     heap st' = <[a := Obj CVector (VNum <$> zip_with ssub xs ys)]> (heap st)).
Proof.
  intros Ha Hb Hlen. split.
  - destruct (returns_inplace sadd (heap st) st a b xs ys)
      as (w & st' & Hrun & -> & Hheap); [done..|]. by exists st'.
  - destruct (returns_inplace ssub (heap st) st a b xs ys)
      as (w & st' & Hrun & -> & Hheap); [done..|]. by exists st'.
Qed.

(** X4.  Two [Vector]s of unequal size: [a += b] and [a -= b] raise the
    [TypeError] of the length guard in the state they were called in, so no
    item of [a] has been overwritten. *)
Theorem inplace_unequal_sizes_raise_first (st : state S) (a b : loc)
    (ia ib : list (value S)) :
  heap st !! a = Some (Obj CVector ia) ->
  heap st !! b = Some (Obj CVector ib) ->
  length ia <> length ib ->
  Vector.__iadd__ (VRef a) (VRef b) st = (Raise (TypeError Vector.msg_length), st) /\
  Vector.__isub__ (VRef a) (VRef b) st = (Raise (TypeError Vector.msg_length), st).
Proof.
  intros Ha Hb Hne.
  assert (Vector._ensure_compatibility (VRef a) (VRef b) st
          = (Raise (TypeError Vector.msg_length), st)) as Hguard.
  { unfold Vector._ensure_compatibility.
    rewrite (bind_ok _ _ _ _ _ (isinstance_ref _ _ CVector _ Hb)). simpl.
    rewrite (bind_ok _ _ _ _ _ (py_len_ref _ _ _ Ha)).
    rewrite (bind_ok _ _ _ _ _ (py_len_ref _ _ _ Hb)). simpl.
    by rewrite decide_True. }
  unfold Vector.__iadd__, Vector.__isub__.
  by rewrite !(bind_raise _ _ _ _ _ Hguard).
Qed.

(** X5.  A [Vector] [a] and an operand [b] that is no [Vector] and holds
    fewer numbers than [a]: the guard lets [a += b] through, the loop
    overwrites the first [len(b)] items of [a] with the sums and then
    raises [IndexError]; [a] is left half updated. *)
Theorem iadd_shorter_operand_half_updates (st : state S) (a b : loc) (cb : cls)
    (xs ys : list S) :
  vec_at (heap st) a xs ->
  heap st !! b = Some (Obj cb (VNum <$> ys)) ->
  cb <> CVector ->
  length ys < length xs ->
  raises_with (Vector.__iadd__ (VRef a) (VRef b)) st IndexError
    (fun h' => h' = <[a := Obj CVector
                          (VNum <$> (zip_with sadd xs ys ++ drop (length ys) xs))]>
                      (heap st)).
Proof.
  intros Ha Hb Hcb Hlen. unfold Vector.__iadd__.
  apply raises_with_bind. unfold Vector._ensure_compatibility.
  apply returns_bind. eapply returns_isinstance; [done..|]. simpl.
  replace (cls_eqb cb CVector) with false by (by destruct cb).
  intros st1 Hst1. eapply returns_ret; [done|]. intros st2 Hst2.
  apply raises_with_bind. unfold Vector.size. eapply returns_len; [done..|].
  intros st3 Hst3. cbn [obj_items]. rewrite length_fmap.
  apply raises_with_first. unfold range.
  replace (length xs) with (length ys + (length xs - length ys)) at 1 by lia.
  rewrite seq_app. cbn [Nat.add].
  destruct (length xs - length ys) as [|rest] eqn:Hrest; [lia|].
  apply raises_with_foldM_app.
  eapply returns_mono.
  { apply (returns_inplace_rounds sadd (heap st) a b cb xs ys (length ys) Ha Hb 0 st3);
      [lia | lia |].
    rewrite Hst3. cbn [updated_prefix]. symmetry. apply list_insert_id.
    unfold vec_at in Ha. destruct xs; by destruct ys. }
  intros [] h' -> st4 Hst4. cbn [Nat.add] in *.
  assert (heap st4 !! a
          = Some (Obj CVector (VNum <$> updated_prefix sadd (length ys) xs ys))) as Ha4.
  { rewrite Hst4. apply list_lookup_insert_eq. by eapply lookup_lt_Some. }
  destruct (lookup_lt_is_Some_2 xs (length ys)) as [x Ex]; [lia|].
  assert (exists ob, heap st4 !! b = Some ob /\ obj_items ob !! length ys = None)
    as (ob & Hb4 & Hnone).
  { eexists. split.
    - rewrite Hst4. rewrite list_lookup_insert_ne; [exact Hb|].
      intros ->. unfold vec_at in Ha. rewrite Ha in Hb. by injection Hb as <-.
    - cbn [obj_items]. apply lookup_ge_None_2. by rewrite length_fmap. }
  cbn [seq foldM]. apply raises_with_first. apply raises_with_bind.
  eapply returns_getitem; [reflexivity | exact Ha4 | |].
  { cbn [obj_items].
    by rewrite list_lookup_fmap, updated_prefix_lookup_ge, Ex by lia. }
  intros st5 Hst5. apply raises_with_first.
  exists st5. split.
  - apply getitem_past_end with ob; [by rewrite Hst5 | done].
  - rewrite Hst5, Hst4. by rewrite updated_prefix_short by lia.
Qed.

End VectorExtras.

Lemma sub_elementwise_witness :
  let st : state Z :=
    State [Obj CVector [VNum 5%Z; VNum 7%Z]; Obj CVector [VNum 1%Z; VNum 10%Z]] [] in
  (vec_at (heap st) 0 [5%Z; 7%Z] /\ vec_at (heap st) 1 [1%Z; 10%Z] /\
   length [5%Z; 7%Z] = length [1%Z; 10%Z]) /\
  exists st',
    Vector.__sub__ (VRef 0) (VRef 1) st = (Ok (VRef (length (heap st))), st') /\
    heap st' = heap st ++ [Obj CVector (VNum <$> zip_with ssub [5%Z; 7%Z] [1%Z; 10%Z])].
Proof.
  intros st. split; [repeat split|].
  apply (sub_elementwise st 0 1 [5%Z; 7%Z] [1%Z; 10%Z]); reflexivity.
Defined.

Lemma scalar_prod_commutes_witness :
  let st : state Z :=
    State [Obj CVector [VNum 5%Z; VNum 7%Z]; Obj CVector [VNum 1%Z; VNum 10%Z]] [] in
  ((forall x y : Z, smul x y = smul y x) /\
   vec_at (heap st) 0 [5%Z; 7%Z] /\ vec_at (heap st) 1 [1%Z; 10%Z] /\
   length [5%Z; 7%Z] = length [1%Z; 10%Z]) /\
  exists st1 st2,
    Vector.scalar_prod (VRef 0) (VRef 1) st
    = (Ok (VNum (dot [5%Z; 7%Z] [1%Z; 10%Z])), st1) /\
    Vector.scalar_prod (VRef 1) (VRef 0) st
    = (Ok (VNum (dot [5%Z; 7%Z] [1%Z; 10%Z])), st2) /\
    heap st1 = heap st /\ heap st2 = heap st.
Proof.
  intros st. split.
  - split; [exact Z.mul_comm | repeat split].
  - apply (scalar_prod_commutes st 0 1 [5%Z; 7%Z] [1%Z; 10%Z]);
      [exact Z.mul_comm | reflexivity..].
Defined.

(** The two operands are one object here: [a += a] and [a -= a]. *)
Lemma inplace_updates_left_operand_witness :
  let st : state Z := State [Obj CVector [VNum 5%Z; VNum 7%Z]] [] in
  (vec_at (heap st) 0 [5%Z; 7%Z] /\ length [5%Z; 7%Z] = length [5%Z; 7%Z]) /\
  (exists st',
     Vector.__iadd__ (VRef 0) (VRef 0) st = (Ok (VRef 0), st') /\
     heap st' = <[0 := Obj CVector (VNum <$> zip_with sadd [5%Z; 7%Z] [5%Z; 7%Z])]>
                  (heap st)) /\
  (exists st',
     Vector.__isub__ (VRef 0) (VRef 0) st = (Ok (VRef 0), st') /\
     heap st' = <[0 := Obj CVector (VNum <$> zip_with ssub [5%Z; 7%Z] [5%Z; 7%Z])]>
                  (heap st)).
Proof.
  intros st. split; [repeat split|].
  apply (inplace_updates_left_operand st 0 0 [5%Z; 7%Z] [5%Z; 7%Z]); reflexivity.
Defined.

Lemma inplace_unequal_sizes_raise_first_witness :
  let st : state Z :=
    State [Obj CVector [VNum 1%Z; VNum 2%Z]; Obj CVector [VNum 3%Z]] [] in
  (heap st !! 0 = Some (Obj CVector [VNum 1%Z; VNum 2%Z]) /\
   heap st !! 1 = Some (Obj CVector [VNum 3%Z]) /\
   length [VNum 1%Z; VNum 2%Z] <> length [VNum 3%Z]) /\
  Vector.__iadd__ (VRef 0) (VRef 1) st = (Raise (TypeError Vector.msg_length), st) /\
  Vector.__isub__ (VRef 0) (VRef 1) st = (Raise (TypeError Vector.msg_length), st).
Proof.
  intros st. split.
  - repeat split; [simpl; lia].
  - apply (inplace_unequal_sizes_raise_first st 0 1 [VNum 1%Z; VNum 2%Z] [VNum 3%Z]);
      [reflexivity | reflexivity | simpl; lia].
Defined.

Lemma iadd_shorter_operand_half_updates_witness :
  let st : state Z :=
    State [Obj CVector [VNum 1%Z; VNum 2%Z]; Obj CList [VNum 10%Z]] [] in
  (vec_at (heap st) 0 [1%Z; 2%Z] /\
   heap st !! 1 = Some (Obj CList (VNum <$> [10%Z])) /\
   CList <> CVector /\ length [10%Z] < length [1%Z; 2%Z]) /\
  raises_with (Vector.__iadd__ (VRef 0) (VRef 1)) st IndexError
    (fun h' => h' = <[0 := Obj CVector
                          (VNum <$> (zip_with sadd [1%Z; 2%Z] [10%Z]
                                     ++ drop (length [10%Z]) [1%Z; 2%Z]))]>
                      (heap st)).
Proof.
  intros st. split.
  - split; [reflexivity|]. split; [reflexivity|]. split; [discriminate | simpl; lia].
  - apply (iadd_shorter_operand_half_updates st 0 1 CList [1%Z; 2%Z] [10%Z]);
      [reflexivity | reflexivity | discriminate | simpl; lia].
Defined.

(** ** Matrix: addition, subtraction and the guards *)

Section MatrixExtras.
Context {S : Type} `{Scalar S}.
Implicit Types (st : state S) (h : list (obj S)).

Lemma returns_ensure_addable h st a b (A B : list (list S)) r c Q :
  heap st = h -> mat_at h a A -> mat_at h b B ->
  shape r c A -> shape r c B -> 0 < c -> Q tt h ->
  returns (Matrix._ensure_addable (VRef a) (VRef b)) st Q.
Proof.
  intros Hst Ha Hb HA HB Hc HQ. unfold Matrix._ensure_addable.
  pose proof Hb as (lsb & Hob & _).
  apply returns_bind. eapply returns_isinstance; [done..|]. simpl.
  intros st1 Hst1. unfold Matrix._ensure_same_size.
  apply returns_bind. eapply returns_cols; [done..|]. intros st2 Hst2.
  apply returns_bind. eapply returns_cols; [done..|]. intros st3 Hst3.
  destruct HA as [HlenA HallA], HB as [HlenB HallB].
  rewrite decide_False by lia.
  apply returns_bind. eapply (returns_rows h st3 a A r c); [done.. | by split | done |].
  intros st4 Hst4.
  apply returns_bind. eapply (returns_rows h st4 b B r c); [done.. | by split | done |].
  intros st5 Hst5. rewrite decide_False by lia. by eapply returns_ret.
Qed.

(** [Matrix(v1 op v2 for v1, v2 in zip(self, other))], for an operation on
    columns that returns a new [Vector] of the [op] of the numbers. *)
Lemma returns_zip_columns (colop : value S -> value S -> M S (value S)) op
    h st a b (A B : list (list S)) r c :
  (forall h1 st1 l1 l2 xs ys,
     heap st1 = h1 -> vec_at h1 l1 xs -> vec_at h1 l2 ys -> length xs = length ys ->
     returns (colop (VRef l1) (VRef l2)) st1
             (fun v h2 => v = VRef (length h1) /\
                          h2 = h1 ++ [Obj CVector (VNum <$> zip_with op xs ys)])) ->
  heap st = h -> mat_at h a A -> mat_at h b B ->
  shape r c A -> shape r c B ->
  returns (items <- zip_mapM colop (VRef a) (VRef b) ;; new CMatrix items) st
          (fun v h' => h `prefix_of` h' /\
                       exists p, v = VRef p /\ length h <= p /\
                                 mat_at h' p (zip_with (zip_with op) A B)).
Proof.
  intros Hcol Hst Ha Hb HA HB. unfold zip_mapM.
  pose proof HA as [HlenA _]. pose proof HB as [HlenB _].
  apply returns_bind. apply returns_bind.
  eapply (returns_cols h st a A); [done..|]. intros st1 Hst1.
  apply returns_bind. eapply (returns_cols h st1 b B); [done..|]. intros st2 Hst2.
  rewrite HlenA, HlenB, Nat.min_id.
  apply returns_bind.
  eapply returns_mono.
  { apply (returns_mapM_grow _
             (fun i v h' => exists l, v = VRef l /\ length h <= l /\
                vec_at h' l (zip_with op (nth i A []) (nth i B []))) _ h).
    - intros i v h1 h2 (l & -> & Hl & Hv) Hext. exists l.
      repeat split; [done|]. by eapply vec_at_grow.
    - intros i st3 Hi%elem_of_seq Hst3.
      destruct (shape_lookup r c A i HA) as (xs & Hxs & Hlx); [lia|].
      destruct (shape_lookup r c B i HB) as (ys & Hys & Hly); [lia|].
      apply returns_bind. unfold zip_next. apply returns_bind.
      eapply returns_column; [reflexivity | by eapply mat_at_grow | exact Hxs |].
      intros l1 Hl1 st4 Hst4. apply returns_bind.
      eapply returns_column;
        [exact Hst4 | eapply mat_at_grow; [exact Hb | done] | exact Hys |].
      intros l2 Hl2 st5 Hst5. eapply returns_ret; [done|].
      intros st6 Hst6. cbn [fst snd].
      eapply returns_mono.
      { apply (Hcol (heap st3) st6 l1 l2 xs ys); [done.. | lia]. }
      intros v h2 [-> ->]. split; [by apply prefix_app_r|].
      exists (length (heap st3)). split; [done|]. split.
      + by apply prefix_length.
      + rewrite (nth_lookup_Some _ _ _ _ Hxs), (nth_lookup_Some _ _ _ _ Hys).
        apply vec_at_new.
    - by rewrite Hst2. }
  intros items h1 [Hext Hitems] st3 Hst3. rewrite Hst2 in Hext.
  apply Forall2_vectors in Hitems as (ls & -> & Hcols & Hfresh).
  apply returns_bind. unfold zip_stop. rewrite decide_False by lia.
  eapply returns_ret; [done|]. intros st4 Hst4.
  eapply returns_ret; [done|]. intros st5 Hst5.
  eapply returns_new; [done|]. split.
  - etrans; [done|]. by apply prefix_app_r.
  - exists (length h1). repeat split; [by apply prefix_length|].
    exists ls. split; [by rewrite lookup_app_r, Nat.sub_diag|].
    rewrite (zip_with_by_index (zip_with op) [] [] A B c) by done.
    eapply Forall2_impl; [exact Hcols|]. intros l col Hl.
    eapply vec_at_grow; [done|]. by apply prefix_app_r.
Qed.

Lemma returns_add_columns h st l1 l2 (xs ys : list S) :
  heap st = h -> vec_at h l1 xs -> vec_at h l2 ys -> length xs = length ys ->
  returns (Matrix.add_columns (VRef l1) (VRef l2)) st
          (fun v h' => v = VRef (length h) /\
                       h' = h ++ [Obj CVector (VNum <$> zip_with sadd xs ys)]).
Proof.
  intros Hst Hl1 Hl2 Hlen. unfold Matrix.add_columns.
  apply returns_bind. eapply returns_isinstance; [done..|]. simpl.
  intros st1 Hst1. by eapply returns_add.
Qed.

Lemma returns_sub_columns h st l1 l2 (xs ys : list S) :
  heap st = h -> vec_at h l1 xs -> vec_at h l2 ys -> length xs = length ys ->
  returns (Matrix.sub_columns (VRef l1) (VRef l2)) st
          (fun v h' => v = VRef (length h) /\
                       h' = h ++ [Obj CVector (VNum <$> zip_with ssub xs ys)]).
Proof.
  intros Hst Hl1 Hl2 Hlen. unfold Matrix.sub_columns.
  apply returns_bind. eapply returns_isinstance; [done..|]. simpl.
  intros st1 Hst1. by eapply returns_sub.
Qed.


End MatrixExtras.

Section GuardExtras.
Context {S : Type} `{Scalar S}.
Implicit Types (st : state S) (h : list (obj S)).

Lemma raises_with_raise {A} e st (Q : list (obj S) -> Prop) :
  Q (heap st) -> raises_with (raise e : M S A) st e Q.
Proof. intros HQ. by exists st. Qed.

(** X7.  The guard of the four additive operations of [Matrix].  When it
    raises, [+], [-], [+=] and [-=] raise the same exception in the same
    state.  It raises [TypeError] in the state of the call for a right
    operand that is no [Matrix] and for a [Matrix] with another number of
    columns; with the same number of columns and columns of another length
    it raises [TypeError] with the store unchanged; and for two matrices
    without columns it raises [IndexError]. *)
Theorem matrix_addable_guard (st : state S) (a : loc) (ia : list (value S)) :
  heap st !! a = Some (Obj CMatrix ia) ->
  (forall w e st',
     Matrix._ensure_addable (VRef a) w st = (Raise e, st') ->
     Matrix.__add__ (VRef a) w st = (Raise e, st') /\
     Matrix.__sub__ (VRef a) w st = (Raise e, st') /\
     Matrix.__iadd__ (VRef a) w st = (Raise e, st') /\
     Matrix.__isub__ (VRef a) w st = (Raise e, st')) /\
  (forall w,
     isinstance w CMatrix st = (Ok false, st) ->
     Matrix._ensure_addable (VRef a) w st = (Raise (TypeError Matrix.msg_matrix), st)) /\
  (forall b ib,
     heap st !! b = Some (Obj CMatrix ib) -> length ia <> length ib ->
     Matrix._ensure_addable (VRef a) (VRef b) st
     = (Raise (TypeError Matrix.msg_sizes), st)) /\
  (forall b A B r r' c,
     mat_at (heap st) a A -> mat_at (heap st) b B ->
     shape r c A -> shape r' c B -> 0 < c -> r <> r' ->
     raises_with (Matrix._ensure_addable (VRef a) (VRef b)) st
       (TypeError Matrix.msg_sizes) (fun h' => h' = heap st)) /\
  (forall b,
     ia = [] -> heap st !! b = Some (Obj CMatrix []) ->
     Matrix._ensure_addable (VRef a) (VRef b) st = (Raise IndexError, st)).
Proof.
  intros Ha. split; [|split; [|split; [|split]]].
  - intros w e st' Hguard.
    unfold Matrix.__add__, Matrix.__sub__, Matrix.__iadd__, Matrix.__isub__.
    by rewrite !(bind_raise _ _ _ _ _ Hguard).
  - intros w Hw. unfold Matrix._ensure_addable.
    by rewrite (bind_ok _ _ _ _ _ Hw).
  - intros b ib Hb Hne. unfold Matrix._ensure_addable, Matrix._ensure_same_size.
    rewrite (bind_ok _ _ _ _ _ (isinstance_ref _ _ CMatrix _ Hb)). cbn [obj_cls cls_eqb negb].
    unfold Matrix.cols.
    rewrite (bind_ok _ _ _ _ _ (py_len_ref _ _ _ Ha)).
    rewrite (bind_ok _ _ _ _ _ (py_len_ref _ _ _ Hb)). cbn [obj_items].
    by rewrite decide_True.
  - intros b A B r r' c HA HB HsA HsB Hc Hne.
    pose proof HB as (lsb & Hob & _).
    unfold Matrix._ensure_addable. apply raises_with_bind.
    eapply returns_isinstance; [done..|]. simpl. intros st1 Hst1.
    unfold Matrix._ensure_same_size.
    apply raises_with_bind. eapply returns_cols; [done..|]. intros st2 Hst2.
    apply raises_with_bind. eapply returns_cols; [done..|]. intros st3 Hst3.
    destruct HsA as [HlenA HallA], HsB as [HlenB HallB].
    rewrite decide_False by lia.
    apply raises_with_bind.
    eapply (returns_rows _ st3 a A r c); [done.. | by split | done |].
    intros st4 Hst4. apply raises_with_bind.
    eapply (returns_rows _ st4 b B r' c); [done.. | by split | done |].
    intros st5 Hst5. rewrite decide_True by done. by apply raises_with_raise.
  - intros b -> Hb. unfold Matrix._ensure_addable, Matrix._ensure_same_size.
    rewrite (bind_ok _ _ _ _ _ (isinstance_ref _ _ CMatrix _ Hb)). cbn [obj_cls cls_eqb negb].
    unfold Matrix.cols.
    rewrite (bind_ok _ _ _ _ _ (py_len_ref _ _ _ Ha)).
    rewrite (bind_ok _ _ _ _ _ (py_len_ref _ _ _ Hb)). cbn [obj_items length].
    rewrite decide_False by (intros Hne; by apply Hne).
    unfold Matrix.rows.
    by rewrite (bind_raise _ _ _ _ _
                  (bind_raise _ _ _ _ _ (getitem_past_end _ _ 0 _ Ha eq_refl))).
Qed.

(** X8.  [m * v] for a [Matrix] of [r] rows and [c >= 1] columns and a
    [Vector] of [c] numbers returns a [Vector] of [r] numbers that was not
    in the store before; item [i] is the scalar product of row [i] of [m]
    with [v].  No object that was in the store has changed. *)
Theorem matrix_times_vector (st : state S) (m v : loc) (A : list (list S))
    (xs : list S) (r c : nat) :
  mat_at (heap st) m A -> shape r c A -> 0 < c ->
  vec_at (heap st) v xs -> length xs = c ->
  exists l zs st',
    Matrix.__mul__ (VRef m) (VRef v) st = (Ok (VRef l), st') /\
    heap st !! l = None /\ heap st `prefix_of` heap st' /\
    vec_at (heap st') l zs /\ length zs = r /\
    forall i, i < r -> zs !! i = Some (dot (row A i) xs).
Proof.
  intros Hm Hs Hc Hv Hlen.
  destruct (returns_mul_vector (heap st) st m v A xs r c)
    as (w & st' & Hrun & Hext & l & -> & Hl & Hvec); [done..|].
  exists l, (mat_vec r A xs), st'.
  repeat split; [done | by apply lookup_ge_None_2 | done | done | apply length_mat_vec |].
  intros i Hi. unfold mat_vec. by rewrite list_lookup_fmap, lookup_seq_lt.
Qed.

(** X9.  The guard of the multiplication.  When it raises, [self * other]
    raises the same exception in the same state.  A right operand that is
    neither a [Matrix] nor a [Vector] and a [Vector] whose size is not the
    number of columns of [self] are turned down with [TypeError] in the
    state of the call; a [Matrix] whose columns do not have as many items
    as [self] has columns is turned down with [TypeError] before anything
    is created. *)
Theorem multiplication_guard (st : state S) (a : loc) (ia : list (value S)) :
  heap st !! a = Some (Obj CMatrix ia) ->
  (forall w e st',
     Matrix._ensure_multiplicable (VRef a) w st = (Raise e, st') ->
     Matrix.__mul__ (VRef a) w st = (Raise e, st')) /\
  (forall w,
     isinstance w CMatrix st = (Ok false, st) ->
     isinstance w CVector st = (Ok false, st) ->
     Matrix._ensure_multiplicable (VRef a) w st
     = (Raise (TypeError Matrix.msg_operand), st)) /\
  (forall v iv,
     heap st !! v = Some (Obj CVector iv) -> length ia <> length iv ->
     Matrix._ensure_multiplicable (VRef a) (VRef v) st
     = (Raise (TypeError Matrix.msg_shape), st)) /\
  (forall b B r k,
     mat_at (heap st) b B -> shape r k B -> 0 < k -> length ia <> r ->
     raises_with (Matrix._ensure_multiplicable (VRef a) (VRef b)) st
       (TypeError Matrix.msg_shape) (fun h' => h' = heap st)).
Proof.
  intros Ha. split; [|split; [|split]].
  - intros w e st' Hguard. unfold Matrix.__mul__.
    by rewrite (bind_raise _ _ _ _ _ Hguard).
  - intros w Hm Hv. unfold Matrix._ensure_multiplicable.
    rewrite (bind_ok _ _ _ _ _ Hm).
    by rewrite (bind_raise _ _ _ _ _ (bind_ok _ _ _ _ _ Hv)).
  - intros v iv Hv Hne. unfold Matrix._ensure_multiplicable.
    rewrite (bind_ok _ _ _ _ _ (isinstance_ref _ _ CMatrix _ Hv)). cbn [obj_cls cls_eqb].
    assert ((bv <- isinstance (VRef v) CVector ;;
             if bv then Vector.size (VRef v)
             else raise (TypeError Matrix.msg_operand)) st
            = (Ok (length iv), st)) as Hsize.
    { rewrite (bind_ok _ _ _ _ _ (isinstance_ref _ _ CVector _ Hv)). cbn [obj_cls cls_eqb].
      unfold Vector.size. by rewrite (py_len_ref _ _ _ Hv). }
    rewrite (bind_ok _ _ _ _ _ Hsize). unfold Matrix.cols.
    rewrite (bind_ok _ _ _ _ _ (py_len_ref _ _ _ Ha)). cbn [obj_items].
    by rewrite decide_True.
  - intros b B r k HB Hs Hk Hne. pose proof HB as (lsb & Hob & _).
    unfold Matrix._ensure_multiplicable. apply raises_with_bind.
    eapply returns_isinstance; [done..|]. simpl. intros st1 Hst1.
    apply raises_with_bind. eapply returns_rows; [done..|]. intros st2 Hst2.
    apply raises_with_bind. unfold Matrix.cols. eapply returns_len; [done..|].
    intros st3 Hst3. simpl. rewrite decide_True by done. by apply raises_with_raise.
Qed.

End GuardExtras.


Lemma matrix_addable_guard_witness :
  let st : state Z :=
    State [Obj CVector [VNum 1%Z; VNum 2%Z]; Obj CVector [VNum 3%Z; VNum 4%Z];
           Obj CMatrix [VRef 0; VRef 1];
           Obj CVector [VNum 5%Z; VNum 6%Z]; Obj CMatrix [VRef 3];
           Obj CVector [VNum 1%Z; VNum 2%Z; VNum 3%Z];
           Obj CVector [VNum 4%Z; VNum 5%Z; VNum 6%Z];
           Obj CMatrix [VRef 5; VRef 6];
           Obj CMatrix []] [] in
  (heap st !! 2 = Some (Obj CMatrix [VRef 0; VRef 1]) /\
   heap st !! 8 = Some (Obj CMatrix [])) /\
  Matrix.__add__ (VRef 2) (VRef 0) st = (Raise (TypeError Matrix.msg_matrix), st) /\
  Matrix.__iadd__ (VRef 2) (VRef 4) st = (Raise (TypeError Matrix.msg_sizes), st) /\
  raises_with (Matrix._ensure_addable (VRef 2) (VRef 7)) st
    (TypeError Matrix.msg_sizes) (fun h' => h' = heap st) /\
  Matrix.__sub__ (VRef 8) (VRef 8) st = (Raise IndexError, st).
Proof.
  intros st. split; [split; reflexivity|].
  destruct (matrix_addable_guard st 2 [VRef 0; VRef 1] eq_refl)
    as (Hops & Hclass & Hcols & Hrows & _).
  destruct (matrix_addable_guard st 8 [] eq_refl) as (Hops' & _ & _ & _ & Hempty).
  split; [apply Hops, Hclass; reflexivity|].
  split; [apply Hops, (Hcols 4 [VRef 3]); [reflexivity | simpl; lia]|].
  split.
  - apply (Hrows 7 [[1; 2]; [3; 4]]%Z [[1; 2; 3]; [4; 5; 6]]%Z 2 3 2).
    + exists [0; 1]. split; [reflexivity | repeat constructor].
    + exists [5; 6]. split; [reflexivity | repeat constructor].
    + split; [reflexivity | repeat constructor].
    + split; [reflexivity | repeat constructor].
    + lia.
    + lia.
  - apply Hops', Hempty; reflexivity.
Defined.

Lemma matrix_times_vector_witness :
  let st : state Z :=
    State [Obj CVector [VNum 1%Z; VNum 2%Z]; Obj CVector [VNum 3%Z; VNum 4%Z];
           Obj CMatrix [VRef 0; VRef 1]; Obj CVector [VNum 5%Z; VNum 6%Z]] [] in
  let A := [[1%Z; 2%Z]; [3%Z; 4%Z]] in
  (mat_at (heap st) 2 A /\ shape 2 2 A /\ 0 < 2 /\
   vec_at (heap st) 3 [5%Z; 6%Z] /\ length [5%Z; 6%Z] = 2) /\
  exists l zs st',
    Matrix.__mul__ (VRef 2) (VRef 3) st = (Ok (VRef l), st') /\
    heap st !! l = None /\ heap st `prefix_of` heap st' /\
    vec_at (heap st') l zs /\ length zs = 2 /\
    forall i, i < 2 -> zs !! i = Some (dot (row A i) [5%Z; 6%Z]).
Proof.
  intros st A.
  assert (mat_at (heap st) 2 A) as Ha.
  { exists [0; 1]. split; [reflexivity | repeat constructor]. }
  assert (shape 2 2 A) as HA.
  { split; [reflexivity | repeat constructor]. }
  split; [split; [exact Ha | split; [exact HA | split; [lia | split; reflexivity]]]|].
  apply (matrix_times_vector st 2 3 A [5%Z; 6%Z] 2 2);
    first [assumption | lia | reflexivity].
Defined.

Lemma multiplication_guard_witness :
  let st : state Z :=
    State [Obj CVector [VNum 1%Z; VNum 2%Z]; Obj CVector [VNum 3%Z; VNum 4%Z];
           Obj CMatrix [VRef 0; VRef 1];
           Obj CVector [VNum 1%Z; VNum 2%Z; VNum 3%Z]; Obj CMatrix [VRef 3];
           Obj CList [VNum 1%Z; VNum 2%Z]] [] in
  heap st !! 2 = Some (Obj CMatrix [VRef 0; VRef 1]) /\
  Matrix.__mul__ (VRef 2) (VRef 5) st = (Raise (TypeError Matrix.msg_operand), st) /\
  Matrix.__mul__ (VRef 2) (VNum 3%Z) st = (Raise (TypeError Matrix.msg_operand), st) /\
  Matrix.__mul__ (VRef 2) (VRef 3) st = (Raise (TypeError Matrix.msg_shape), st) /\
  raises_with (Matrix._ensure_multiplicable (VRef 2) (VRef 4)) st
    (TypeError Matrix.msg_shape) (fun h' => h' = heap st).
Proof.
  intros st. split; [reflexivity|].
  destruct (multiplication_guard st 2 [VRef 0; VRef 1] eq_refl)
    as (Hmul & Hclass & Hsize & Hrows).
  split; [apply Hmul, Hclass; reflexivity|].
  split; [apply Hmul, Hclass; reflexivity|].
  split.
  - apply Hmul, (Hsize 3 [VNum 1%Z; VNum 2%Z; VNum 3%Z]); [reflexivity | simpl; lia].
  - apply (Hrows 4 [[1; 2; 3]]%Z 3 1).
    + exists [3]. split; [reflexivity | repeat constructor].
    + split; [reflexivity | repeat constructor].
    + lia.
    + simpl. lia.
Defined.

(** ** Operations that leave the store as it is *)

Section FrameExtras.
Context {S : Type} `{Scalar S}.
Implicit Types (st : state S) (a b : value S).

Create HintDb keeps.
Create HintDb quiet.

#[local] Hint Resolve grows_ret grows_raise grows_unmodelled grows_deref grows_log
  grows_new grows_isinstance grows_len grows_getitem grows_arith
  grows_vector_add grows_mul : keeps.

#[local] Hint Resolve silent_ret silent_raise silent_unmodelled silent_deref
  silent_new silent_isinstance silent_len silent_getitem silent_arith
  silent_vector_add silent_mul : quiet.

Ltac frame_steps :=
  split;
  [ repeat first
      [ progress intros | apply grows_bind | apply grows_if | apply grows_decide
      | apply grows_mapM | apply grows_foldM | solve [auto with keeps] ]
  | repeat first
      [ progress intros | apply silent_bind | apply silent_if | apply silent_decide
      | apply silent_mapM | apply silent_foldM | solve [auto with quiet] ] ].

Lemma frame_vector_sub a b : frame (Vector.__sub__ a b).
Proof. unfold Vector.__sub__, zip_mapM, zip_next, zip_stop. frame_steps. Qed.

Lemma frame_scalar_prod a b : frame (Vector.scalar_prod a b).
Proof. unfold Vector.scalar_prod, zip_sumM, zip_next, zip_stop. frame_steps. Qed.

Lemma frame_matrix_sub a b : frame (Matrix.__sub__ a b).
Proof.
  pose proof (frame_vector_sub) as Hsub.
  unfold Matrix.__sub__, Matrix.sub_columns, zip_mapM, zip_next, zip_stop.
  frame_steps; apply Hsub.
Qed.

Lemma frame_rmul a b : frame (Matrix.__rmul__ a b).
Proof. unfold Matrix.__rmul__. frame_steps. Qed.

Lemma frame_identity size : frame (Matrix.identity size : M S (value S)).
Proof. unfold Matrix.identity. frame_steps. Qed.

(** X10.  The operations that build their result, [+], [-] and
    [scalar_prod] of [Vector], [+], [-], [*] and the reflected [*] of
    [Matrix], and [Matrix.identity], change no object that is in the store
    and assign to no item, whatever their operands are and however they
    end. *)
Theorem building_operations_frame (a b : value S) (size : Z) :
  frame (Vector.__add__ a b) /\ frame (Vector.__sub__ a b) /\
  frame (Vector.scalar_prod a b) /\
  frame (Matrix.__add__ a b) /\ frame (Matrix.__sub__ a b) /\
  frame (Matrix.__mul__ a b) /\ frame (Matrix.__rmul__ a b) /\
  frame (Matrix.identity size : M S (value S)).
Proof.
  split; [split; [apply grows_vector_add | apply silent_vector_add]|].
  split; [apply frame_vector_sub|].
  split; [apply frame_scalar_prod|].
  split; [split; [apply grows_matrix_add | apply silent_matrix_add]|].
  split; [apply frame_matrix_sub|].
  split; [split; [apply grows_mul | apply silent_mul]|].
  split; [apply frame_rmul | apply frame_identity].
Qed.

End FrameExtras.

(** ** The identity matrix, object by object *)

Section IdentityExtras.
Context {S : Type} `{Scalar S}.
Implicit Types (st : state S).

Lemma mapM_ret {A B} (g : A -> B) xs st :
  mapM (fun x => ret (g x)) xs st = (Ok (g <$> xs), st).
Proof.
  induction xs as [|x xs IH]; [done|]. cbn [mapM].
  rewrite (bind_ok _ _ _ _ _ (eq_refl : ret (g x) st = (Ok (g x), st))).
  by rewrite (bind_ok _ _ _ _ _ IH).
Qed.

(** A loop that creates one [Vector] per round from items that need no
    evaluation. *)
Lemma mapM_new_vectors {A} (e : nat -> A -> value S) (js : list A) ks :
  forall st,
    mapM (fun i => col <- mapM (fun j => ret (e i j)) js ;; new CVector col) ks st
    = (Ok (VRef <$> seq (length (heap st)) (length ks)),
       State (heap st ++ ((fun i => Obj CVector (e i <$> js)) <$> ks))
             (trace st ++ (EvNew <$> seq (length (heap st)) (length ks)))).
Proof.
  induction ks as [|k ks IH]; intros st.
  - simpl. rewrite !app_nil_r. by destruct st.
  - cbn [mapM].
    assert ((col <- mapM (fun j => ret (e k j)) js ;; new CVector col) st
            = (Ok (VRef (length (heap st))),
               State (heap st ++ [Obj CVector (e k <$> js)])
                     (trace st ++ [EvNew (length (heap st))]))) as Hcol.
    { by rewrite (bind_ok _ _ _ _ _ (mapM_ret (e k) js st)). }
    rewrite (bind_ok _ _ _ _ _ Hcol), (bind_ok _ _ _ _ _ (IH _)).
    cbn [heap trace ret]. rewrite length_app, Nat.add_1_r, <- !app_assoc.
    reflexivity.
Qed.

(** X11.  [Matrix.identity(size)] returns for every integer [size].  With
    [n] the larger of [size] and [0], it appends to the store [n] new
    [Vector]s, the columns of the identity of order [n] in their order, and
    then the [Matrix] that refers to them, which it returns; for
    [size <= 0] that is a [Matrix] without columns. *)
Theorem identity_any_size (st : state S) (size : Z) :
  exists st',
    Matrix.identity size st
    = (Ok (VRef (length (heap st) + Z.to_nat size)), st') /\
    heap st'
    = heap st
      ++ ((fun col => Obj CVector (VNum <$> col)) <$> identity_cols (Z.to_nat size))
      ++ [Obj CMatrix (VRef <$> seq (length (heap st)) (Z.to_nat size))] /\
    mat_at (heap st') (length (heap st) + Z.to_nat size)
           (identity_cols (Z.to_nat size)) /\
    ((size <= 0)%Z -> heap st' = heap st ++ [Obj CMatrix []]).
Proof.
  set (n := Z.to_nat size).
  set (cols := (fun col : list S => Obj CVector (VNum <$> col)) <$> identity_cols n).
  assert (length cols = n) as Hcols.
  { unfold cols. by rewrite length_fmap, length_identity_cols. }
  eexists. split; [|split; [|split]].
  - unfold Matrix.identity. fold n. unfold range.
    rewrite (bind_ok _ _ _ _ _
               (mapM_new_vectors
                  (fun i j => VNum (of_int (if decide (j = i) then 1 else 0)%Z))
                  (seq 0 n) (seq 0 n) st)).
    unfold new. cbn [heap trace]. rewrite !length_seq, length_app, length_fmap, length_seq.
    reflexivity.
  - cbn [heap]. rewrite <- app_assoc. do 2 f_equal.
    unfold cols, identity_cols. rewrite <- list_fmap_compose.
    apply list_fmap_ext. intros _ i _. simpl. by rewrite <- list_fmap_compose.
  - cbn [heap]. exists (seq (length (heap st)) n). split.
    + rewrite lookup_app_r by (rewrite length_app, length_fmap, length_seq; lia).
      rewrite length_app, length_fmap, length_seq, Nat.sub_diag. done.
    + apply Forall2_same_length_lookup_2.
      { by rewrite length_seq, length_identity_cols. }
      intros i l col Hl Hcol. apply lookup_seq in Hl as [-> Hi].
      unfold vec_at. rewrite <- app_assoc, lookup_app_r by lia.
      replace (length (heap st) + i - length (heap st)) with i by lia.
      rewrite lookup_app_l by (rewrite length_fmap, length_seq; lia).
      rewrite list_lookup_fmap.
      unfold identity_cols in Hcol. rewrite list_lookup_fmap in Hcol.
      destruct (seq 0 n !! i) as [k|]; [|done]. simpl in *.
      injection Hcol as <-. by rewrite <- list_fmap_compose.
  - intros Hsize. cbn [heap].
    replace n with 0 by (unfold n; lia). simpl. by rewrite app_nil_r.
Qed.

End IdentityExtras.

(** ** The loop of [main]: the square, and what the loop leaves alone *)

Section MainLoopExtras.
Context {S : Type} `{Scalar S}.
Implicit Types (st : state S) (X : list loc).

Lemma changes_only_grows {A} X (m : M S A) : grows m -> changes_only X m.
Proof. intros Hm st l o _ Hl. eapply prefix_lookup_Some; [exact Hl | apply Hm]. Qed.

Lemma changes_only_bind {A B} X (m : M S A) (k : A -> M S B) :
  changes_only X m -> (forall a, changes_only X (k a)) -> changes_only X (bind m k).
Proof.
  intros Hm Hk st l o Hl Ho. unfold bind. specialize (Hm st l o Hl Ho).
  destruct (m st) as [[a| |] st1]; simpl in *; [|done..].
  by apply Hk.
Qed.

Lemma changes_only_foldM {A B} X (f : B -> A -> M S B) xs b :
  (forall b x, changes_only X (f b x)) -> changes_only X (foldM f b xs).
Proof.
  intros Hf. revert b. induction xs as [|x xs IH]; intros b; simpl.
  - by intros st l o _ Hl.
  - apply changes_only_bind; [done|]. intros b'. apply IH.
Qed.

Lemma changes_only_setitem X (v : loc) i (x : value S) :
  v ∈ X -> changes_only X (setitem (VRef v) i x).
Proof.
  intros Hv st l o Hl Ho. unfold setitem, bind, deref.
  destruct (heap st !! v) as [ov|]; [|done].
  destruct (decide _); [|done]. simpl.
  rewrite list_lookup_insert_ne; [done|]. by intros ->.
Qed.

Lemma changes_only_convert_range X (v : loc) lo hi (m dv : value S) :
  v ∈ X -> changes_only X (convert_range (VRef v) lo hi m dv).
Proof.
  intros Hv. unfold convert_range. apply changes_only_foldM. intros _ i.
  apply changes_only_bind; [apply changes_only_grows, grows_getitem|]. intros p.
  apply changes_only_bind; [apply changes_only_grows, grows_convert|]. intros q.
  by apply changes_only_setitem.
Qed.

Lemma changes_only_main_loop (figure dots : loc) (m dv : value S) :
  changes_only [figure; dots] (main_loop (VRef figure) (VRef dots) m dv).
Proof.
  unfold main_loop. apply changes_only_foldM. intros _ step.
  apply changes_only_bind; [apply changes_only_grows, grows_len|]. intros n.
  apply changes_only_bind; [|intros _]; apply changes_only_convert_range.
  - by left.
  - by right; left.
Qed.

(** X12.  The loop of [main] changes two objects at most, the lists
    [figure] and [dots]: every other object that is in the store when the
    loop starts is found as it was when the loop ends, be it by returning
    or by an exception.  No [Vector] and no [Matrix] is ever updated in
    place. *)
Theorem main_loop_changes_only_lists (st : state S) (figure dots : loc)
    (m dv : value S) (l : loc) (o : obj S) :
  l <> figure -> l <> dots ->
  heap st !! l = Some o ->
  heap (main_loop (VRef figure) (VRef dots) m dv st).2 !! l = Some o.
Proof.
  intros Hf Hd Hl. apply changes_only_main_loop; [|done]. intros Hin.
  apply elem_of_cons in Hin as [->|Hin]; [done|].
  by apply list_elem_of_singleton in Hin.
Qed.


End MainLoopExtras.

Lemma main_loop_changes_only_lists_witness :
  8 <> 2 /\ 17 <> 2 /\
  heap (main_loop (VRef 8) (VRef 17) (VRef 2) (VRef 3) demo_scene).2 !! 2
  = Some (Obj CMatrix [VRef 0; VRef 1]).
Proof.
  split; [lia|]. split; [lia|].
  apply (main_loop_changes_only_lists demo_scene 8 17 (VRef 2) (VRef 3) 2);
    [lia | lia | reflexivity].
Defined.


(** ** Drawing *)

Section DrawingProofs.
Context {S : Type} `{Scalar S}.
Implicit Types (st : state S) (h : list (obj S)) (ps : list (list S)).

Lemma lookup_concat_pairs {A B} (f g : A -> B) (xs : list A) j :
  concat ((fun x => [f x; g x]) <$> xs) !! (2 * j) = f <$> xs !! j /\
  concat ((fun x => [f x; g x]) <$> xs) !! (2 * j + 1) = g <$> xs !! j.
Proof.
  revert j. induction xs as [|x xs IH]; intros j; [done|].
  destruct j as [|j]; [done|].
  replace (2 * Datatypes.S j) with (Datatypes.S (Datatypes.S (2 * j))) by lia.
  apply IH.
Qed.

Lemma length_concat_pairs {A B} (f g : A -> B) (xs : list A) :
  length (concat ((fun x => [f x; g x]) <$> xs)) = 2 * length xs.
Proof.
  induction xs as [|x xs IH]; [done|].
  rewrite fmap_cons. cbn [concat app length]. rewrite IH. simpl. lia.
Qed.

Lemma length_graphic_coords ps : length (graphic_coords ps) = 2 * length ps.
Proof. apply length_concat_pairs. Qed.

Lemma lookup_graphic_coords ps k p :
  ps !! k = Some p ->
  graphic_coords ps !! (2 * k) = Some (graphic_x p) /\
  graphic_coords ps !! (2 * k + 1) = Some (graphic_y p).
Proof.
  intros Hp. unfold graphic_coords.
  destruct (lookup_concat_pairs graphic_x graphic_y ps k) as [-> ->].
  by rewrite Hp.
Qed.

Lemma returns_to_graphic_coords h st pos p :
  heap st = h -> vec_at h pos p -> 2 <= length p ->
  returns (to_graphic_coords (VRef pos)) st
          (fun r h' => h' = h /\ r = (VNum (graphic_x p), VNum (graphic_y p))).
Proof.
  intros Hst Hp Hlen. destruct p as [|x [|y rest]]; simpl in Hlen; try lia.
  unfold to_graphic_coords, int.
  apply returns_bind. eapply returns_getitem; [exact Hst | exact Hp | reflexivity |].
  intros st1 Hst1. apply returns_bind. eapply returns_arith; [exact Hst1|].
  intros st2 Hst2. apply returns_bind.
  eapply returns_getitem; [exact Hst2 | exact Hp | reflexivity |].
  intros st3 Hst3. apply returns_bind. eapply returns_ret; [exact Hst3|].
  intros st4 Hst4. apply returns_bind. eapply returns_arith; [exact Hst4|].
  intros st5 Hst5. eapply returns_ret; [exact Hst5|]. by split.
Qed.

Lemma graphic_pairs ps :
  concat ((fun p : value S * value S => [p.1; p.2])
            <$> ((fun p => (VNum (graphic_x p), VNum (graphic_y p))) <$> ps))
  = VNum <$> graphic_coords ps.
Proof.
  unfold graphic_coords. induction ps as [|p ps IH]; [done|].
  rewrite !fmap_cons. cbn [concat app fst snd]. by rewrite !fmap_cons, IH.
Qed.

Lemma returns_convert_figure_for_draw h st fig ps :
  heap st = h -> points_at h fig ps -> Forall (fun p => 2 <= length p) ps ->
  returns (convert_figure_for_draw (VRef fig)) st
          (fun cs h' => h' = h /\ cs = VNum <$> graphic_coords ps).
Proof.
  intros Hst (ls & Hobj & Hps) Hall. unfold convert_figure_for_draw.
  apply returns_bind. eapply returns_len; [exact Hst | exact Hobj |].
  intros st1 Hst1. cbn [obj_items]. rewrite length_fmap.
  apply returns_bind. eapply returns_mono.
  { apply (returns_mapM_pure _
             (fun i => (VNum (graphic_x (nth i ps [])), VNum (graphic_y (nth i ps []))))
             _ h); [|exact Hst1].
    intros i st2 Hi%elem_of_seq Hst2.
    destruct (lookup_lt_is_Some_2 ls i) as [l Hl]; [lia|].
    destruct (Forall2_lookup_l _ _ _ _ _ Hps Hl) as (p & Hp & Hvec).
    apply returns_bind. eapply returns_getitem; [exact Hst2 | exact Hobj | |].
    { cbn [obj_items]. by rewrite list_lookup_fmap, Hl. }
    intros st3 Hst3. rewrite (nth_lookup_Some _ _ _ _ Hp).
    eapply returns_to_graphic_coords; [exact Hst3 | exact Hvec |].
    rewrite Forall_lookup in Hall. by eapply Hall. }
  intros pairs h' [-> ->] st2 Hst2. eapply returns_ret; [exact Hst2|].
  split; [done|]. unfold range. rewrite (Forall2_length _ _ _ Hps).
  rewrite <- (fmap_by_index
                (fun p => (VNum (graphic_x p), VNum (graphic_y p))) [] ps).
  apply graphic_pairs.
Qed.

Lemma tuple_item_nat {A} (t : list A) n x st :
  t !! n = Some x -> tuple_item t (Z.of_nat n) st = (Ok x, st).
Proof.
  intros Hx. unfold tuple_item. cbv zeta.
  rewrite (decide_False (P := (Z.of_nat n < 0)%Z)) by lia.
  rewrite (decide_False (P := (Z.of_nat n < 0)%Z)) by lia.
  by rewrite Nat2Z.id, Hx.
Qed.

Lemma shifted_ok op (coords : list (value S)) n c st :
  coords !! n = Some (VNum c) ->
  shifted op coords (Z.of_nat n) st = (Ok (VNum (op c (of_int THICKNESS))), st).
Proof.
  intros Hc. unfold shifted.
  by rewrite (bind_ok _ _ _ _ _ (tuple_item_nat _ _ _ _ Hc)).
Qed.

Lemma color_lookup k : COLORS !! (k mod length COLORS) = Some (color_of k).
Proof.
  unfold color_of.
  destruct (lookup_lt_is_Some_2 COLORS (k mod length COLORS)) as [c Hc].
  { apply Nat.mod_upper_bound. discriminate. }
  by rewrite (nth_lookup_Some _ _ _ _ Hc).
Qed.

Lemma color_item k st :
  tuple_item COLORS (Z.of_nat k `mod` Z.of_nat (length COLORS)) st
  = (Ok (color_of k), st).
Proof.
  rewrite <- Nat2Z.inj_mod. apply tuple_item_nat, color_lookup.
Qed.

(** The colour of a line is the colour of the dot it starts from, also
    where [color_i - 1] is [-1]. *)
Lemma color_before k st :
  tuple_item COLORS (Z.of_nat (Datatypes.S k) `mod` Z.of_nat (length COLORS) - 1) st
  = (Ok (color_of k), st).
Proof.
  rewrite <- Nat2Z.inj_mod.
  pose proof (color_lookup k) as Hk.
  pose proof (Nat.div_mod_eq k (length COLORS)) as E1.
  pose proof (Nat.div_mod_eq (Datatypes.S k) (length COLORS)) as E2.
  pose proof (Nat.mod_upper_bound k (length COLORS)) as B1.
  pose proof (Nat.mod_upper_bound (Datatypes.S k) (length COLORS)) as B2.
  change (length COLORS) with 9 in *.
  specialize (B1 ltac:(lia)). specialize (B2 ltac:(lia)).
  destruct (decide (Datatypes.S k mod 9 = 0)) as [E0|E0].
  - rewrite E0. unfold tuple_item.
    rewrite (decide_True (P := (Z.of_nat 0 - 1 < 0)%Z)) by lia.
    change (length COLORS) with 9.
    rewrite (decide_False (P := (Z.of_nat 0 - 1 + Z.of_nat 9 < 0)%Z)) by lia.
    replace (Z.to_nat (Z.of_nat 0 - 1 + Z.of_nat 9)) with (k mod 9) by lia.
    by rewrite Hk.
  - replace (Z.of_nat (Datatypes.S k mod 9) - 1)%Z with (Z.of_nat (k mod 9)) by lia.
    by apply tuple_item_nat.
Qed.

Lemma oval_at_ok ps k p (canvas : list (command S)) st :
  ps !! k = Some p ->
  oval_at (VNum <$> graphic_coords ps) (Z.of_nat (2 * k))
          (Z.of_nat k `mod` Z.of_nat (length COLORS)) canvas st
  = (Ok (canvas ++ [oval_around p (color_of k)]), st).
Proof.
  intros Hp. destruct (lookup_graphic_coords ps k p Hp) as [Hx Hy].
  assert ((VNum <$> graphic_coords ps) !! (2 * k) = Some (VNum (graphic_x p)))
    as Hx' by (by rewrite list_lookup_fmap, Hx).
  assert ((VNum <$> graphic_coords ps) !! (2 * k + 1) = Some (VNum (graphic_y p)))
    as Hy' by (by rewrite list_lookup_fmap, Hy).
  unfold oval_at.
  replace (Z.of_nat (2 * k) + 1)%Z with (Z.of_nat (2 * k + 1)) by lia.
  rewrite (bind_ok _ _ _ _ _ (shifted_ok ssub _ _ _ st Hx')).
  rewrite (bind_ok _ _ _ _ _ (shifted_ok ssub _ _ _ st Hy')).
  rewrite (bind_ok _ _ _ _ _ (shifted_ok sadd _ _ _ st Hx')).
  rewrite (bind_ok _ _ _ _ _ (shifted_ok sadd _ _ _ st Hy')).
  by rewrite !(bind_ok _ _ _ _ _ (color_item k st)).
Qed.

End DrawingProofs.

Section DrawingExtras.
Context {S : Type} `{Scalar S}.
Implicit Types (st : state S) (h : list (obj S)) (ps : list (list S)).

Lemma shiftr_double j : Z.shiftr (Z.of_nat (2 + 2 * j)) 1 = Z.of_nat (Datatypes.S j).
Proof.
  rewrite Z.shiftr_div_pow2 by lia. change (2 ^ 1)%Z with 2%Z.
  symmetry. apply (Z.div_unique _ 2 _ 0); lia.
Qed.

(** The rounds [k + 1 .. k + m] of the loop of [draw_dots]. *)
Lemma draw_dots_rounds ps m :
  forall k (canvas : list (command S)) st,
    k + m < length ps ->
    foldM (fun canvas n =>
             let i := Z.of_nat n in
             let color_i := (Z.shiftr i 1 `mod` Z.of_nat (length COLORS))%Z in
             x0 <- shifted ssub (VNum <$> graphic_coords ps) (i - 2) ;;
             y0 <- shifted ssub (VNum <$> graphic_coords ps) (i - 1) ;;
             x1 <- shifted sadd (VNum <$> graphic_coords ps) i ;;
             y1 <- shifted sadd (VNum <$> graphic_coords ps) (i + 1) ;;
             fill <- tuple_item COLORS (color_i - 1) ;;
             oval_at (VNum <$> graphic_coords ps) i color_i
                     (canvas ++ [create_line x0 y0 x1 y1 fill]))
          canvas ((fun j => 2 + 2 * j) <$> seq k m) st
    = (Ok (canvas ++ concat (dot_round ps <$> seq k m)), st).
Proof.
  induction m as [|m IH]; intros k canvas st Hk.
  - simpl. by rewrite app_nil_r.
  - cbn [seq]. rewrite !fmap_cons. cbn [foldM concat].
    destruct (lookup_lt_is_Some_2 ps k) as [p Hp]; [lia|].
    destruct (lookup_lt_is_Some_2 ps (Datatypes.S k)) as [q Hq]; [lia|].
    destruct (lookup_graphic_coords ps k p Hp) as [Hpx Hpy].
    destruct (lookup_graphic_coords ps (Datatypes.S k) q Hq) as [Hqx Hqy].
    assert (forall n c, graphic_coords ps !! n = Some c ->
              (VNum <$> graphic_coords ps) !! n = Some (VNum c)) as Hnum.
    { intros n c Hn. by rewrite list_lookup_fmap, Hn. }
    apply Hnum in Hpx, Hpy, Hqx, Hqy.
    erewrite bind_ok; cycle 1.
    cbv zeta. rewrite shiftr_double.
    replace (Z.of_nat (2 + 2 * k) - 2)%Z with (Z.of_nat (2 * k)) by lia.
    replace (Z.of_nat (2 + 2 * k) - 1)%Z with (Z.of_nat (2 * k + 1)) by lia.
    replace (Z.of_nat (2 + 2 * k) + 1)%Z
      with (Z.of_nat (2 * Datatypes.S k + 1)) by lia.
    replace (Z.of_nat (2 + 2 * k)) with (Z.of_nat (2 * Datatypes.S k)) by lia.
    rewrite (bind_ok _ _ _ _ _ (shifted_ok ssub _ _ _ st Hpx)).
    rewrite (bind_ok _ _ _ _ _ (shifted_ok ssub _ _ _ st Hpy)).
    rewrite (bind_ok _ _ _ _ _ (shifted_ok sadd _ _ _ st Hqx)).
    rewrite (bind_ok _ _ _ _ _ (shifted_ok sadd _ _ _ st Hqy)).
    rewrite (bind_ok _ _ _ _ _ (color_before k st)).
    apply (oval_at_ok ps (Datatypes.S k) q _ st Hq).
    rewrite IH by lia. unfold dot_round at 2.
    rewrite (nth_lookup_Some _ _ _ _ Hp), (nth_lookup_Some _ _ _ _ Hq).
    by rewrite <- !app_assoc.
Qed.

Lemma lookup_dot_rounds ps n j :
  j < n ->
  concat (dot_round ps <$> seq 0 n) !! (2 * j)
  = Some (line_between (nth j ps []) (nth (Datatypes.S j) ps []) (color_of j)) /\
  concat (dot_round ps <$> seq 0 n) !! (2 * j + 1)
  = Some (oval_around (nth (Datatypes.S j) ps []) (color_of (Datatypes.S j))).
Proof.
  intros Hj.
  destruct (lookup_concat_pairs
              (fun k => line_between (nth k ps []) (nth (Datatypes.S k) ps [])
                                     (color_of k))
              (fun k => oval_around (nth (Datatypes.S k) ps [])
                                    (color_of (Datatypes.S k)))
              (seq 0 n) j) as [E1 E2].
  unfold dot_round. rewrite E1, E2, lookup_seq_lt by done. done.
Qed.

(** X14.  [to_graphic_coords(pos)] for a [Vector] of numbers: with two
    items or more it returns the pair of [pos[0] + (MAX_W >> 1)] and
    [-pos[1] + (MAX_H >> 1)] and leaves the store alone; with fewer it
    raises [IndexError]. *)
Theorem to_graphic_coords_point (st : state S) (pos : loc) (p : list S) :
  vec_at (heap st) pos p ->
  (2 <= length p ->
   exists st',
     to_graphic_coords (VRef pos) st
     = (Ok (VNum (graphic_x p), VNum (graphic_y p)), st') /\
     heap st' = heap st) /\
  (length p < 2 ->
   raises_with (to_graphic_coords (VRef pos)) st IndexError
     (fun h' => h' = heap st)).
Proof.
  intros Hp. split.
  - intros Hlen.
    destruct (returns_to_graphic_coords (heap st) st pos p eq_refl Hp Hlen)
      as (r & st' & Hrun & Hheap & ->).
    by exists st'.
  - intros Hlen. unfold to_graphic_coords.
    destruct p as [|x [|y rest]]; simpl in Hlen; [| |lia].
    + apply raises_with_first. exists st. split; [|done].
      by apply getitem_past_end with (Obj CVector []).
    + apply raises_with_bind.
      eapply returns_getitem; [reflexivity | exact Hp | reflexivity |].
      intros st1 Hst1. apply raises_with_bind. unfold int.
      eapply returns_arith; [exact Hst1|]. intros st2 Hst2.
      apply raises_with_first. exists st2. split; [|done].
      apply getitem_past_end with (Obj CVector [VNum x]); [|done].
      by rewrite Hst2.
Qed.

(** X15.  [draw_figure] on a list of points with two numbers or more each
    creates one item on the canvas, after those that are there: a polygon
    outlined in [color] and filled with [BG_COLOR], with two coordinates
    per point, the graphic coordinates of point [k] in places [2 k] and
    [2 k + 1].  The store is left alone. *)
Theorem draw_figure_polygon (st : state S) (fig : loc) (ps : list (list S))
    (color : string) (canvas : list (command S)) :
  points_at (heap st) fig ps -> Forall (fun p => 2 <= length p) ps ->
  exists st',
    draw_figure (VRef fig) color canvas st
    = (Ok (canvas ++ [create_polygon (VNum <$> graphic_coords ps) color BG_COLOR]),
       st') /\
    heap st' = heap st /\
    length (graphic_coords ps) = 2 * length ps /\
    forall k p, ps !! k = Some p ->
      graphic_coords ps !! (2 * k) = Some (graphic_x p) /\
      graphic_coords ps !! (2 * k + 1) = Some (graphic_y p).
Proof.
  intros Hfig Hall.
  destruct (returns_convert_figure_for_draw (heap st) st fig ps eq_refl Hfig Hall)
    as (cs & st' & Hrun & Hheap & ->).
  exists st'. split; [|split; [done|split]].
  - unfold draw_figure. by rewrite (bind_ok _ _ _ _ _ Hrun).
  - apply length_graphic_coords.
  - apply lookup_graphic_coords.
Qed.

Lemma dots_commands_cons (p0 : list S) qs :
  dots_commands (p0 :: qs)
  = oval_around p0 (color_of 0)
      :: concat (dot_round (p0 :: qs) <$> seq 0 (length qs)).
Proof. unfold dots_commands. cbn [length]. by rewrite Nat.sub_1_r. Qed.

Lemma returns_draw_dots h st dots ps (canvas : list (command S)) :
  heap st = h -> points_at h dots ps -> Forall (fun p => 2 <= length p) ps ->
  ps <> [] ->
  returns (draw_dots (VRef dots) canvas) st
          (fun c h' => h' = h /\ c = canvas ++ dots_commands ps).
Proof.
  intros Hst Hdots Hall Hne.
  destruct (returns_convert_figure_for_draw h st dots ps Hst Hdots Hall)
    as (cs & st' & Hrun & Hheap & ->).
  destruct ps as [|p0 qs]; [done|].
  exists (canvas ++ dots_commands (p0 :: qs)), st'. split; [|done].
  unfold draw_dots. rewrite (bind_ok _ _ _ _ _ Hrun).
  rewrite (bind_ok _ _ _ _ _ (oval_at_ok (p0 :: qs) 0 p0 canvas st' eq_refl)).
  unfold range_step. rewrite length_fmap, length_graphic_coords. cbn [length].
  replace ((2 * Datatypes.S (length qs) - 2 + 2 - 1) / 2) with (length qs)
    by (apply (Nat.div_unique _ 2 _ 1); lia).
  rewrite (draw_dots_rounds (p0 :: qs) (length qs) 0 _ st') by (simpl; lia).
  by rewrite <- app_assoc, dots_commands_cons.
Qed.

Lemma length_dots_commands ps : length (dots_commands ps) = 2 * length ps - 1.
Proof.
  destruct ps as [|p0 qs]; [done|]. rewrite dots_commands_cons. unfold dot_round.
  cbn [length]. rewrite length_concat_pairs, length_seq. lia.
Qed.

Lemma lookup_dots_commands ps :
  (forall k p, ps !! k = Some p ->
     dots_commands ps !! (2 * k) = Some (oval_around p (color_of k))) /\
  (forall k p q, ps !! k = Some p -> ps !! Datatypes.S k = Some q ->
     dots_commands ps !! (2 * k + 1) = Some (line_between p q (color_of k))).
Proof.
  destruct ps as [|p0 qs]; [by split|]. rewrite dots_commands_cons.
  split.
  - intros k p Hp. destruct k as [|k].
    + by injection Hp as <-.
    + replace (2 * Datatypes.S k) with (Datatypes.S (2 * k + 1)) by lia.
      pose proof (lookup_lt_Some _ _ _ Hp) as Hk. simpl in Hk.
      destruct (lookup_dot_rounds (p0 :: qs) (length qs) k) as [_ E]; [lia|].
      rewrite (nth_lookup_Some _ _ _ _ Hp) in E. exact E.
  - intros k p q Hp Hq.
    replace (2 * k + 1) with (Datatypes.S (2 * k)) by lia.
    pose proof (lookup_lt_Some _ _ _ Hq) as Hk. simpl in Hk.
    destruct (lookup_dot_rounds (p0 :: qs) (length qs) k) as [E _]; [lia|].
    rewrite (nth_lookup_Some _ _ _ _ Hp), (nth_lookup_Some _ _ _ _ Hq) in E.
    exact E.
Qed.

(** X16.  [draw_dots] on a list of [n] points with two numbers or more
    each.  For [n = 0] it raises [IndexError].  For [n >= 1] it creates
    [2 n - 1] items after those that are on the canvas: the oval around dot
    [k] in place [2 k], in the colour [COLORS[k % len(COLORS)]], and the
    line from dot [k] to dot [k + 1] in place [2 k + 1], in the colour of
    dot [k], the one it starts from.  The store is left alone. *)
Theorem draw_dots_commands (st : state S) (dots : loc) (ps : list (list S))
    (canvas : list (command S)) :
  points_at (heap st) dots ps -> Forall (fun p => 2 <= length p) ps ->
  (ps = [] ->
   raises_with (draw_dots (VRef dots) canvas) st IndexError
     (fun h' => h' = heap st)) /\
  (ps <> [] ->
   exists cmds st',
     draw_dots (VRef dots) canvas st = (Ok (canvas ++ cmds), st') /\
     heap st' = heap st /\
     length cmds = 2 * length ps - 1 /\
     (forall k p, ps !! k = Some p ->
        cmds !! (2 * k) = Some (oval_around p (color_of k))) /\
     (forall k p q, ps !! k = Some p -> ps !! Datatypes.S k = Some q ->
        cmds !! (2 * k + 1) = Some (line_between p q (color_of k)))).
Proof.
  intros Hdots Hall. split.
  - intros ->.
    destruct (returns_convert_figure_for_draw (heap st) st dots [] eq_refl Hdots Hall)
      as (cs & st' & Hrun & Hheap & ->).
    exists st'. split; [|done]. unfold draw_dots.
    by rewrite (bind_ok _ _ _ _ _ Hrun).
  - intros Hne.
    destruct (returns_draw_dots (heap st) st dots ps canvas eq_refl Hdots Hall Hne)
      as (c & st' & Hrun & Hheap & ->).
    exists (dots_commands ps), st'.
    split; [done|]. split; [done|]. split; [apply length_dots_commands|].
    apply lookup_dots_commands.
Qed.

End DrawingExtras.

Lemma construct_figure_run {S : Type} `{Scalar S} (st : state S) (xsize ysize : Z) :
  let n := length (heap st) in
  let xs := Z.shiftr xsize 1 in
  let ys := Z.shiftr ysize 1 in
  construct_figure xsize ysize st
  = (Ok (VRef (n + 4)),
     State (heap st
              ++ [Obj CVector [int xs; int ys]; Obj CVector [int (- xs); int ys];
                  Obj CVector [int (- xs); int (- ys)];
                  Obj CVector [int xs; int (- ys)];
                  Obj CList [VRef n; VRef (n + 1); VRef (n + 2); VRef (n + 3)]])
           (trace st ++ [EvNew n; EvNew (n + 1); EvNew (n + 2); EvNew (n + 3);
                         EvNew (n + 4)])).
Proof.
  intros n xs ys. unfold construct_figure, bind, new. cbn [heap trace].
  rewrite !length_app. cbn [length]. rewrite <- !app_assoc. cbn [app].
  fold n xs ys.
  replace (n + 1 + 1) with (n + 2) by lia.
  replace (n + 2 + 1) with (n + 3) by lia.
  replace (n + 3 + 1) with (n + 4) by lia.
  reflexivity.
Qed.


Lemma to_graphic_coords_point_witness :
  let st : state Z :=
    State [Obj CVector [VNum 3%Z; VNum 4%Z]; Obj CVector [VNum 7%Z]] [] in
  (vec_at (heap st) 0 [3%Z; 4%Z] /\ vec_at (heap st) 1 [7%Z]) /\
  (exists st',
     to_graphic_coords (VRef 0) st
     = (Ok (VNum (graphic_x [3%Z; 4%Z]), VNum (graphic_y [3%Z; 4%Z])), st') /\
     heap st' = heap st) /\
  raises_with (to_graphic_coords (VRef 1)) st IndexError (fun h' => h' = heap st).
Proof.
  intros st. split; [split; reflexivity|]. split.
  - apply (proj1 (to_graphic_coords_point st 0 [3%Z; 4%Z] eq_refl)). simpl. lia.
  - apply (proj2 (to_graphic_coords_point st 1 [7%Z] eq_refl)). simpl. lia.
Defined.

Lemma draw_figure_polygon_witness :
  (points_at (heap demo_scene) 8 demo_square /\
   Forall (fun p => 2 <= length p) demo_square) /\
  exists st',
    draw_figure (VRef 8) "red" [] demo_scene
    = (Ok ([] ++ [create_polygon (VNum <$> graphic_coords demo_square) "red" BG_COLOR]),
       st') /\
    heap st' = heap demo_scene /\
    length (graphic_coords demo_square) = 2 * length demo_square /\
    forall k p, demo_square !! k = Some p ->
      graphic_coords demo_square !! (2 * k) = Some (graphic_x p) /\
      graphic_coords demo_square !! (2 * k + 1) = Some (graphic_y p).
Proof.
  assert (points_at (heap demo_scene) 8 demo_square) as Hfig.
  { exists [4; 5; 6; 7]. split; [reflexivity | repeat constructor]. }
  assert (Forall (fun p : list Z => 2 <= length p) demo_square) as Hall.
  { repeat constructor. }
  split; [by split|].
  apply (draw_figure_polygon demo_scene 8 demo_square "red" [] Hfig Hall).
Defined.

Lemma draw_dots_commands_witness :
  let empty : state Z := State [Obj CList []] [] in
  (points_at (heap demo_scene) 17 demo_dots /\
   Forall (fun p => 2 <= length p) demo_dots /\ demo_dots <> [] /\
   points_at (heap empty) 0 []) /\
  raises_with (draw_dots (VRef 0) []) empty IndexError (fun h' => h' = heap empty) /\
  exists cmds st',
    draw_dots (VRef 17) [] demo_scene = (Ok ([] ++ cmds), st') /\
    heap st' = heap demo_scene /\
    length cmds = 2 * length demo_dots - 1 /\
    (forall k p, demo_dots !! k = Some p ->
       cmds !! (2 * k) = Some (oval_around p (color_of k))) /\
    (forall k p q, demo_dots !! k = Some p -> demo_dots !! Datatypes.S k = Some q ->
       cmds !! (2 * k + 1) = Some (line_between p q (color_of k))).
Proof.
  intros empty.
  assert (points_at (heap demo_scene) 17 demo_dots) as Hdots.
  { exists [9; 10; 11; 12; 13; 14; 15; 16].
    split; [reflexivity | repeat constructor]. }
  assert (Forall (fun p : list Z => 2 <= length p) demo_dots) as Hall.
  { repeat constructor. }
  assert (points_at (heap empty) 0 []) as Hempty.
  { exists []. split; [reflexivity | constructor]. }
  split; [split; [exact Hdots | split; [exact Hall | split; [discriminate | exact Hempty]]]|].
  split.
  - apply (proj1 (draw_dots_commands empty 0 [] [] Hempty (List.Forall_nil _))).
    reflexivity.
  - apply (proj2 (draw_dots_commands demo_scene 17 demo_dots [] Hdots Hall)).
    discriminate.
Defined.


(** ** [Matrix] in place *)

Section MatrixInPlace.
Context {S : Type} `{Scalar S}.
Implicit Types (st : state S).

Variables (h : list (obj S)) (a b : loc) (la lb : list loc) (A B : list (list S)).
Variables (r c : nat).
Hypothesis Ha : h !! a = Some (Obj CMatrix (VRef <$> la)).
Hypothesis Hb : h !! b = Some (Obj CMatrix (VRef <$> lb)).
Hypothesis HA : Forall2 (vec_at h) la A.
Hypothesis HB : Forall2 (vec_at h) lb B.
Hypothesis HsA : shape r c A.
Hypothesis HsB : shape r c B.
Hypothesis Hdistinct : NoDup la.
Hypothesis Halias : forall i j l, la !! j = Some l -> lb !! i = Some l -> i = j.

(** The operation on two columns: it updates the left one and returns
    it. *)
Variable colop : value S -> value S -> M S (value S).
Variable op : S -> S -> S.
Hypothesis Hcolop :
  forall h1 st l1 l2 (xs ys : list S),
    heap st = h1 -> vec_at h1 l1 xs -> vec_at h1 l2 ys -> length xs = length ys ->
    returns (colop (VRef l1) (VRef l2)) st
            (fun w h2 => w = VRef l1 /\
                         h2 = <[l1 := Obj CVector (VNum <$> zip_with op xs ys)]> h1).

Lemma column_is_vector l : l ∈ la -> exists xs, h !! l = Some (Obj CVector (VNum <$> xs)).
Proof.
  intros (i & Hi)%list_elem_of_lookup_1.
  destruct (Forall2_lookup_l _ _ _ _ _ HA Hi) as (xs & _ & Hxs). by exists xs.
Qed.

Lemma matrix_is_no_column m items : h !! m = Some (Obj CMatrix items) -> m ∉ la.
Proof. intros Hm (xs & Hxs)%column_is_vector. congruence. Qed.

Lemma returns_matrix_inplace_rounds m :
  forall k st,
    k + m = c -> columns_updated op h la A B k (heap st) ->
    returns (foldM (fun (_ : unit) i =>
                      x <- getitem (VRef a) i ;;
                      y <- getitem (VRef b) i ;;
                      z <- colop x y ;;
                      setitem (VRef a) i z)
                   tt (seq k m)) st
            (fun _ h' => columns_updated op h la A B (k + m) h').
Proof.
  destruct HsA as [HlenA HrowsA], HsB as [HlenB HrowsB].
  pose proof (Forall2_length _ _ _ HA) as HlA.
  pose proof (Forall2_length _ _ _ HB) as HlB.
  induction m as [|m IH]; intros k st Hk (Hlen & Hrest & Hcols).
  - eapply returns_ret; [done|]. by rewrite Nat.add_0_r.
  - destruct (lookup_lt_is_Some_2 la k) as [l1 Hl1]; [lia|].
    destruct (lookup_lt_is_Some_2 lb k) as [l2 Hl2]; [lia|].
    destruct (Forall2_lookup_l _ _ _ _ _ HA Hl1) as (xs & Hxs & Hvx).
    destruct (Forall2_lookup_l _ _ _ _ _ HB Hl2) as (ys & Hys & Hvy).
    assert (length xs = length ys) as Hxy.
    { rewrite Forall_lookup in HrowsA, HrowsB.
      by rewrite (HrowsA _ _ Hxs), (HrowsB _ _ Hys). }
    assert (heap st !! a = Some (Obj CMatrix (VRef <$> la))) as Ha1.
    { rewrite Hrest; [done|]. by eapply matrix_is_no_column. }
    assert (heap st !! b = Some (Obj CMatrix (VRef <$> lb))) as Hb1.
    { rewrite Hrest; [done|]. by eapply matrix_is_no_column. }
    assert (vec_at (heap st) l1 xs) as Hv1.
    { specialize (Hcols k l1 Hl1). rewrite decide_False in Hcols by lia.
      by rewrite (nth_lookup_Some _ _ _ _ Hxs) in Hcols. }
    assert (vec_at (heap st) l2 ys) as Hv2.
    { destruct (decide (l2 ∈ la)) as [Hin|Hout].
      - apply list_elem_of_lookup_1 in Hin as (j & Hj).
        pose proof (Halias k j l2 Hj Hl2) as ->.
        rewrite Hl1 in Hj. injection Hj as ->.
        unfold vec_at in Hvx, Hvy. rewrite Hvx in Hvy. injection Hvy as Hitems.
        apply fmap_VNum_inj in Hitems. by subst ys.
      - unfold vec_at. by rewrite Hrest. }
    cbn [seq foldM]. apply returns_bind. apply returns_bind.
    eapply returns_getitem; [reflexivity | exact Ha1 | |].
    { cbn [obj_items]. by rewrite list_lookup_fmap, Hl1. }
    intros st1 Hst1. apply returns_bind.
    eapply returns_getitem; [exact Hst1 | exact Hb1 | |].
    { cbn [obj_items]. by rewrite list_lookup_fmap, Hl2. }
    intros st2 Hst2. apply returns_bind.
    eapply returns_mono; [by apply (Hcolop (heap st) st2 l1 l2 xs ys)|].
    intros w h1 [-> ->] st3 Hst3.
    assert (a <> l1) as Hne.
    { intros ->. eapply matrix_is_no_column; [exact Ha|].
      by eapply list_elem_of_lookup_2. }
    eapply returns_setitem; [exact Hst3 | | |].
    { rewrite list_lookup_insert_ne by done. exact Ha1. }
    { cbn [obj_items]. rewrite length_fmap. lia. }
    cbn [obj_cls obj_items]. intros st4 Hst4.
    eapply returns_mono.
    { apply (IH (Datatypes.S k) st4); [lia|].
      rewrite Hst4.
      rewrite (list_insert_id (VRef <$> la))
        by (by rewrite list_lookup_fmap, Hl1).
      rewrite (list_insert_id _ a)
        by (by rewrite list_lookup_insert_ne by done).
      split; [by rewrite length_insert|]. split.
      - intros l Hl. rewrite list_lookup_insert_ne; [by apply Hrest|].
        intros <-. apply Hl. by eapply list_elem_of_lookup_2.
      - intros i l Hi. destruct (decide (i = k)) as [->|Hik].
        + rewrite Hl1 in Hi. injection Hi as <-.
          rewrite decide_True by lia. unfold vec_at.
          rewrite list_lookup_insert_eq by (by eapply lookup_lt_Some).
          by rewrite (nth_lookup_Some _ _ _ _ Hxs), (nth_lookup_Some _ _ _ _ Hys).
        + unfold vec_at. rewrite list_lookup_insert_ne.
          * specialize (Hcols i l Hi). unfold vec_at in Hcols.
            destruct (decide (i < k)), (decide (i < Datatypes.S k)); try lia; done.
          * intros <-. apply Hik. by eapply (NoDup_lookup la). }
    intros [] h'. by replace (k + Datatypes.S m) with (Datatypes.S k + m) by lia.
Qed.

Lemma returns_matrix_inplace st :
  heap st = h -> 0 < c ->
  returns (Matrix._ensure_addable (VRef a) (VRef b) ;;;
           n <- Matrix.cols (VRef a) ;;
           foldM (fun (_ : unit) i =>
                    x <- getitem (VRef a) i ;;
                    y <- getitem (VRef b) i ;;
                    z <- colop x y ;;
                    setitem (VRef a) i z)
                 tt (range n) ;;;
           ret (VRef a : value S)) st
          (fun w h' => w = VRef a /\
                       mat_at h' a (zip_with (zip_with op) A B) /\
                       h' !! a = h !! a /\ length h' = length h /\
                       forall l, l ∉ la -> h' !! l = h !! l).
Proof.
  intros Hst Hc.
  assert (mat_at h a A) as Hma by (by exists la).
  assert (mat_at h b B) as Hmb by (by exists lb).
  pose proof HsA as [HlenA _]. pose proof HsB as [HlenB _].
  pose proof (Forall2_length _ _ _ HA) as HlA.
  apply returns_bind.
  eapply (returns_ensure_addable h st a b A B r c); [done..|].
  intros st1 Hst1. apply returns_bind.
  eapply returns_cols; [exact Hst1 | exact Hma |]. intros st2 Hst2.
  apply returns_bind. rewrite HlenA. unfold range.
  eapply returns_mono.
  { apply (returns_matrix_inplace_rounds c 0 st2); [done|].
    rewrite Hst2. split; [done|]. split; [done|].
    intros i l Hi. rewrite decide_False by lia.
    destruct (Forall2_lookup_l _ _ _ _ _ HA Hi) as (xs & Hxs & Hvx).
    by rewrite (nth_lookup_Some _ _ _ _ Hxs). }
  intros [] h' (Hlen & Hrest & Hcols) st3 Hst3. cbn [Nat.add] in Hcols.
  eapply returns_ret; [exact Hst3|].
  assert (h' !! a = h !! a) as Hsame.
  { apply Hrest. by eapply matrix_is_no_column. }
  split; [done|]. split; [|done].
  exists la. split; [by rewrite Hsame|].
  rewrite (zip_with_by_index (zip_with op) [] [] A B c) by done.
  apply Forall2_same_length_lookup_2.
  { rewrite length_fmap, length_seq. lia. }
  intros i l col Hi Hcol. rewrite list_lookup_fmap in Hcol.
  pose proof (lookup_lt_Some _ _ _ Hi) as Hlt.
  rewrite lookup_seq_lt in Hcol by lia. injection Hcol as <-.
  specialize (Hcols i l Hi). by rewrite decide_True in Hcols by lia.
Qed.

End MatrixInPlace.

Section MatrixInPlaceExtras.
Context {S : Type} `{Scalar S}.
Implicit Types (st : state S).

Lemma returns_iadd_columns h1 st l1 l2 (xs ys : list S) :
  heap st = h1 -> vec_at h1 l1 xs -> vec_at h1 l2 ys -> length xs = length ys ->
  returns (Matrix.iadd_columns (VRef l1) (VRef l2)) st
          (fun w h2 => w = VRef l1 /\
                       h2 = <[l1 := Obj CVector (VNum <$> zip_with sadd xs ys)]> h1).
Proof.
  intros Hst Hl1 Hl2 Hlen. unfold Matrix.iadd_columns.
  apply returns_bind. eapply returns_isinstance; [done..|]. simpl.
  intros st1 Hst1. by apply (returns_inplace sadd h1 st1 l1 l2 xs ys).
Qed.

Lemma returns_isub_columns h1 st l1 l2 (xs ys : list S) :
  heap st = h1 -> vec_at h1 l1 xs -> vec_at h1 l2 ys -> length xs = length ys ->
  returns (Matrix.isub_columns (VRef l1) (VRef l2)) st
          (fun w h2 => w = VRef l1 /\
                       h2 = <[l1 := Obj CVector (VNum <$> zip_with ssub xs ys)]> h1).
Proof.
  intros Hst Hl1 Hl2 Hlen. unfold Matrix.isub_columns.
  apply returns_bind. eapply returns_isinstance; [done..|]. simpl.
  intros st1 Hst1. by apply (returns_inplace ssub h1 st1 l1 l2 xs ys).
Qed.

(** X18.  Two matrices of the same shape with at least one column, where
    the columns of [a] are different objects and a column of [b] is no
    column of [a] other than the one in the same place (as when [b] is [a]
    itself, or shares nothing with [a]): [a += b] and [a -= b] return [a]
    itself, whose columns are the same [Vector] objects and now hold the
    sums (the differences) of the numbers; no object is created and none
    but the columns of [a] is changed. *)
Theorem matrix_inplace_updates_columns (st : state S) (a b : loc)
    (la lb : list loc) (A B : list (list S)) (r c : nat) :
  heap st !! a = Some (Obj CMatrix (VRef <$> la)) ->
  heap st !! b = Some (Obj CMatrix (VRef <$> lb)) ->
  Forall2 (vec_at (heap st)) la A -> Forall2 (vec_at (heap st)) lb B ->
  shape r c A -> shape r c B -> 0 < c ->
  NoDup la ->
  (forall i j l, la !! j = Some l -> lb !! i = Some l -> i = j) ->
  (exists st',
     Matrix.__iadd__ (VRef a) (VRef b) st = (Ok (VRef a), st') /\
     mat_at (heap st') a (zip_with (zip_with sadd) A B) /\
     heap st' !! a = heap st !! a /\ length (heap st') = length (heap st) /\
     forall l, l ∉ la -> heap st' !! l = heap st !! l) /\
  (exists st',
     Matrix.__isub__ (VRef a) (VRef b) st = (Ok (VRef a), st') /\
     mat_at (heap st') a (zip_with (zip_with ssub) A B) /\
     heap st' !! a = heap st !! a /\ length (heap st') = length (heap st) /\
     forall l, l ∉ la -> heap st' !! l = heap st !! l).
Proof.
  intros Ha Hb HA HB HsA HsB Hc Hdistinct Halias. split.
  - destruct (returns_matrix_inplace (heap st) a b la lb A B r c Ha Hb HA HB HsA HsB
                Hdistinct Halias Matrix.iadd_columns sadd returns_iadd_columns
                st eq_refl Hc) as (w & st' & Hrun & -> & Hrest).
    by exists st'.
  - destruct (returns_matrix_inplace (heap st) a b la lb A B r c Ha Hb HA HB HsA HsB
                Hdistinct Halias Matrix.isub_columns ssub returns_isub_columns
                st eq_refl Hc) as (w & st' & Hrun & -> & Hrest).
    by exists st'.
Qed.

End MatrixInPlaceExtras.

Lemma matrix_inplace_updates_columns_witness :
  let st : state Z :=
    State [Obj CVector [VNum 1%Z; VNum 2%Z]; Obj CVector [VNum 3%Z; VNum 4%Z];
           Obj CMatrix [VRef 0; VRef 1];
           Obj CVector [VNum 10%Z; VNum 20%Z]; Obj CVector [VNum 30%Z; VNum 40%Z];
           Obj CMatrix [VRef 3; VRef 4]] [] in
  let A := [[1; 2]; [3; 4]]%Z in
  let B := [[10; 20]; [30; 40]]%Z in
  (Forall2 (vec_at (heap st)) [0; 1] A /\ Forall2 (vec_at (heap st)) [3; 4] B /\
   shape 2 2 A /\ shape 2 2 B /\ NoDup [0; 1]) /\
  (exists st',
     Matrix.__iadd__ (VRef 2) (VRef 5) st = (Ok (VRef 2), st') /\
     mat_at (heap st') 2 (zip_with (zip_with Z.add) A B) /\
     mat_at (heap st') 5 B) /\
  (exists st',
     Matrix.__iadd__ (VRef 2) (VRef 2) st = (Ok (VRef 2), st') /\
     mat_at (heap st') 2 (zip_with (zip_with Z.add) A A)).
Proof.
  intros st A B.
  assert (Forall2 (vec_at (heap st)) [0; 1] A) as HA by (repeat constructor).
  assert (Forall2 (vec_at (heap st)) [3; 4] B) as HB by (repeat constructor).
  assert (shape 2 2 A) as HsA by (split; [reflexivity | repeat constructor]).
  assert (shape 2 2 B) as HsB by (split; [reflexivity | repeat constructor]).
  assert (NoDup [0; 1]) as Hdistinct.
  { constructor; [|constructor; [|constructor]].
    - intros Hin%list_elem_of_singleton. lia.
    - intros Hin. inversion Hin. }
  assert (forall l, 2 <= l -> l ∉ [0; 1]) as Hout.
  { intros l Hl Hin. apply elem_of_cons in Hin as [->|Hin]; [lia|].
    apply list_elem_of_singleton in Hin. lia. }
  split.
  { split; [exact HA|]. split; [exact HB|]. split; [exact HsA|].
    split; [exact HsB | exact Hdistinct]. }
  split.
  - destruct (proj1 (matrix_inplace_updates_columns st 2 5 [0; 1] [3; 4] A B 2 2
                       eq_refl eq_refl HA HB HsA HsB ltac:(lia) Hdistinct
                       ltac:(intros [|[|?]] [|[|?]] l ? ?; by simplify_eq/=)))
      as (st' & Hrun & Hmat & _ & _ & Hrest).
    exists st'. split; [exact Hrun|]. split; [exact Hmat|].
    exists [3; 4]. split.
    + rewrite Hrest; [reflexivity|]. apply Hout. lia.
    + repeat constructor; unfold vec_at;
        (rewrite Hrest; [reflexivity | apply Hout; lia]).
  - destruct (proj1 (matrix_inplace_updates_columns st 2 2 [0; 1] [0; 1] A A 2 2
                       eq_refl eq_refl HA HA HsA HsA ltac:(lia) Hdistinct
                       ltac:(intros [|[|?]] [|[|?]] l ? ?; by simplify_eq/=)))
      as (st' & Hrun & Hmat & _).
    by exists st'.
Defined.

(** ** The identity matrix as a right operand *)

Section RightIdentity.
Context {S : Type} `{ScalarLaws S}.
Hypothesis Hcomm : forall x y : S, smul x y = smul y x.

Lemma identity_col_row n k :
  k < n -> (identity_cols n : list (list S)) !! k = Some (row (identity_cols n) k).
Proof.
  intros Hk. rewrite row_identity by done. unfold identity_cols.
  rewrite list_lookup_fmap, lookup_seq_lt by done. simpl. f_equal.
  apply list_fmap_ext. intros _ j _.
  by destruct (decide (j = k)), (decide (k = j)); try congruence.
Qed.

Lemma mat_vec_unit r n (cs : list (list S)) k col :
  shape r n cs -> cs !! k = Some col ->
  mat_vec r cs (row (identity_cols n) k) = col.
Proof.
  intros [Hlen Hrows] Hcol. pose proof (lookup_lt_Some _ _ _ Hcol) as Hk.
  assert (length col = r) as Hr.
  { rewrite Forall_lookup in Hrows. by eapply Hrows. }
  unfold mat_vec.
  transitivity (fmap (M:=list) (@Datatypes.id S) col); [|apply list_fmap_id].
  rewrite (fmap_by_index (@Datatypes.id S) (of_int 0%Z) col), Hr.
  apply list_fmap_ext. intros _ i _. unfold dot.
  rewrite dot_from_comm by done. fold (dot (row (identity_cols n) k) (row cs i)).
  rewrite dot_unit; [| by rewrite length_row | lia].
  unfold row. erewrite nth_lookup_Some; [done|].
  by rewrite list_lookup_fmap, Hcol.
Qed.

Lemma mat_mul_identity_r r n (cs : list (list S)) :
  shape r n cs -> mat_mul r cs (identity_cols n) = cs.
Proof.
  intros Hs. pose proof Hs as [Hlen _]. unfold mat_mul.
  apply list_eq. intros k. rewrite list_lookup_fmap.
  destruct (decide (k < n)) as [Hk|Hk].
  - rewrite identity_col_row by done. simpl.
    destruct (lookup_lt_is_Some_2 cs k) as [col Hcol]; [lia|].
    by rewrite Hcol, (mat_vec_unit r n cs k col).
  - rewrite !lookup_ge_None_2; [done | lia |].
    rewrite length_identity_cols. lia.
Qed.

(** X19.  For numbers whose multiplication commutes and that obey
    [ScalarLaws], as Python's [int] does: for every [Matrix] [m] of [n >= 1]
    columns, [m * Matrix.identity(n)] returns an object that was not in the
    store before: for [n >= 2] a [Matrix] with the columns of [m], equal to
    [m]; for [n = 1] the bare [Vector] that holds the numbers of the only
    column of [m]. *)
Theorem matrix_mul_identity_right (st : state S) (n r : nat) (m : loc)
    (cs : list (list S)) :
  1 <= n -> mat_at (heap st) m cs -> shape r n cs ->
  exists w st',
    times_identity (VRef m) (Z.of_nat n) st = (Ok (VRef w), st') /\
    heap st !! w = None /\
    (2 <= n -> mat_at (heap st') w cs /\ py_eq (heap st') (VRef w) (VRef m)) /\
    (n = 1 -> vec_at (heap st') w (nth 0 cs [])).
Proof.
  intros Hn Hm Hs.
  assert (returns (times_identity (VRef m) (Z.of_nat n)) st
            (fun w h' => heap st `prefix_of` h' /\
               exists p ls, length (heap st) <= p /\
                 Forall (fun l => length (heap st) <= l) ls /\
                 h' !! p = Some (Obj CMatrix (VRef <$> ls)) /\
                 Forall2 (vec_at h') ls cs /\
                 w = if decide (n = 1) then nth 0 (VRef <$> ls) (VRef p) else VRef p))
    as (w & st' & Hrun & Hext & p & ls & Hp & Hfresh & Hobj & Hcols & ->).
  { unfold times_identity. apply returns_bind.
    eapply returns_mono; [by apply returns_identity|].
    intros i h1 (Hext & l & -> & Hl & Hi) st1 Hst1.
    eapply returns_mono.
    { eapply (returns_mul_matrix h1 st1 m l cs (identity_cols n) r n n);
        [done | by eapply mat_at_grow | done | lia | done
        | apply shape_identity_cols | lia]. }
    intros w h2 (Hext2 & p & ls & Hp & Hfresh & Hobj & Hcols & ->).
    split; [by etrans|]. exists p, ls.
    rewrite mat_mul_identity_r in Hcols by done.
    apply prefix_length in Hext.
    repeat split; [lia | | done | done].
    eapply Forall_impl; [exact Hfresh|]. simpl. lia. }
  destruct (decide (n = 1)) as [->|Hn1].
  - destruct Hs as [Hlen _].
    destruct cs as [|col [|? ?]]; [simpl in Hlen; lia | | simpl in Hlen; lia].
    inversion Hcols as [|l0 ? ls0 ? Hl0 Hrest]; subst. inversion Hrest; subst.
    simpl in *. exists l0, st'. split; [done|]. split.
    { apply lookup_ge_None_2. by inversion Hfresh. }
    split; [intros ?; lia | by intros _].
  - exists p, st'. split; [done|]. split; [by apply lookup_ge_None_2|].
    split; [|done]. intros _.
    assert (mat_at (heap st') p cs) as Hmat by (by exists ls).
    split; [done|]. eapply py_eq_matrices; [done|]. by eapply mat_at_grow.
Qed.

End RightIdentity.

Lemma matrix_mul_identity_right_witness :
  let st : state Z :=
    State [Obj CVector [VNum 1%Z; VNum 2%Z; VNum 3%Z];
           Obj CVector [VNum 4%Z; VNum 5%Z; VNum 6%Z];
           Obj CMatrix [VRef 0; VRef 1]] [] in
  let cs := [[1; 2; 3]; [4; 5; 6]]%Z in
  ((forall x y : Z, smul x y = smul y x) /\ mat_at (heap st) 2 cs /\ shape 3 2 cs) /\
  exists w st',
    times_identity (VRef 2) 2 st = (Ok (VRef w), st') /\
    heap st !! w = None /\
    mat_at (heap st') w cs /\ py_eq (heap st') (VRef w) (VRef 2).
Proof.
  intros st cs.
  assert (mat_at (heap st) 2 cs) as Hm.
  { exists [0; 1]. split; [reflexivity | repeat constructor]. }
  assert (shape 3 2 cs) as Hs.
  { split; [reflexivity | repeat constructor]. }
  assert (forall x y : Z, smul x y = smul y x) as Hcomm by exact Z.mul_comm.
  split; [split; [exact Hcomm | split; [exact Hm | exact Hs]]|].
  destruct (matrix_mul_identity_right Hcomm st 2 3 2 cs ltac:(lia) Hm Hs)
    as (w & st' & Hrun & Hfresh & Hmat & _).
  exists w, st'. split; [exact Hrun|]. split; [exact Hfresh|].
  apply Hmat. lia.
Defined.

(** ** What [main] draws *)

Section MainDrawing.
Context {S : Type} `{Scalar S}.
Implicit Types (st : state S) (h : list (obj S)).

(** A loop that carries a value, with an invariant [I] over the value and
    what the loop has made of [c] so far. *)
Lemma returns_foldM_val {A B C} (f : B -> A -> M S B) (g : C -> A -> C)
    (I : C -> B -> list (obj S) -> Prop) (xs : list A) :
  (forall c b x st, x ∈ xs -> I c b (heap st) ->
     returns (f b x) st (fun b' h' => I (g c x) b' h')) ->
  forall c b st, I c b (heap st) ->
    returns (foldM f b xs) st (fun b' h' => I (fold_left g xs c) b' h').
Proof.
  induction xs as [|x xs IH]; intros Hf c b st Hc.
  - by eapply returns_ret.
  - simpl. apply returns_bind.
    eapply returns_mono; [apply Hf; [left | done] |].
    intros b' h' Hg st1 Hst1. apply IH; [|by rewrite Hst1].
    intros c' b'' y st2 Hy. apply Hf. by right.
Qed.

Lemma returns_color k h st (Q : string -> list (obj S) -> Prop) :
  heap st = h -> Q (color_of k) h ->
  returns (tuple_item COLORS (Z.of_nat k `mod` Z.of_nat (length COLORS))) st Q.
Proof. intros <- HQ. exists (color_of k), st. split; [apply color_item | done]. Qed.

Lemma returns_draw_figure h st fig ps color (canvas : list (command S)) :
  heap st = h -> points_at h fig ps -> Forall (fun p => 2 <= length p) ps ->
  returns (draw_figure (VRef fig) color canvas) st
          (fun c h' => h' = h /\ c = canvas ++ [polygon ps color]).
Proof.
  intros Hst Hfig Hall. unfold draw_figure. apply returns_bind.
  eapply returns_mono; [by apply returns_convert_figure_for_draw|].
  intros cs h' [-> ->] st1 Hst1. by eapply returns_ret.
Qed.

Lemma fold_drawing_steps (f : list S -> list S) total len :
  forall s fs ps (cmds : list (command S)),
    fold_left (drawing_step f total) (seq s len) (fs, ps, cmds)
    = (Nat.iter len f <$> fs,
       fold_left (fun acc step => apply_range f step total acc) (seq s len) ps,
       cmds ++ ((fun j => polygon (Nat.iter (Datatypes.S j) f <$> fs) (color_of (s + j)))
                  <$> seq 0 len)).
Proof.
  induction len as [|len IH]; intros s fs ps cmds.
  - simpl. by rewrite app_nil_r, list_fmap_id.
  - cbn [seq fold_left].
    assert (drawing_step f total (fs, ps, cmds) s
            = (f <$> fs, apply_range f s total ps,
               cmds ++ [polygon (f <$> fs) (color_of s)])) as ->.
    { unfold drawing_step. cbn [fst snd]. by rewrite apply_range_all. }
    rewrite IH. f_equal; [f_equal|].
    + rewrite <- list_fmap_compose. apply list_fmap_ext. intros _ x _.
      exact (eq_sym (Nat.iter_succ_r len f x)).
    + rewrite <- app_assoc. f_equal. rewrite fmap_cons. cbn [app].
      rewrite Nat.add_0_r. f_equal. rewrite <- fmap_S_seq, <- list_fmap_compose.
      apply list_fmap_ext. intros _ j _. cbn [compose].
      replace (Datatypes.S s + j) with (s + Datatypes.S j) by lia. f_equal.
      rewrite <- list_fmap_compose. apply list_fmap_ext. intros _ x _.
      exact (eq_sym (Nat.iter_succ_r (Datatypes.S j) f x)).
Qed.

Lemma length_stagger {A} (f : A -> A) total (xs : list A) :
  length (stagger f total xs) = length xs.
Proof.
  unfold stagger. generalize (seq 1 (total - 1)). intros ks. revert xs.
  induction ks as [|k ks IH]; intros xs; [done|].
  simpl. by rewrite IH, length_apply_range.
Qed.

Lemma returns_main_drawing h st figure dots m dv (cs : list (list S)) ds fs ps n
    (canvas : list (command S)) :
  heap st = h ->
  mat_at h m cs -> shape n n cs -> 2 <= n ->
  vec_at h dv ds -> length ds = n ->
  points_at h figure fs -> Forall (fun p => length p = n) fs ->
  points_at h dots ps -> Forall (fun p => length p = n) ps ->
  length ps = TOTAL_STEPS -> figure <> dots ->
  returns (main_drawing (VRef figure) (VRef dots) (VRef m) (VRef dv) canvas) st
          (fun c _ =>
             c = canvas
                 ++ ((fun k => polygon (Nat.iter k (affine n cs ds) <$> fs) (color_of k))
                       <$> seq 0 TOTAL_STEPS)
                 ++ dots_commands (stagger (affine n cs ds) TOTAL_STEPS ps)).
Proof.
  intros Hst Hm Hs Hn Hdv Hds Hfig Hfs Hdots Hps Hlen Hne.
  assert (0 < n) as Hn0 by lia.
  assert (forall qs : list (list S),
            Forall (fun p => length p = n) qs -> Forall (fun p => 2 <= length p) qs)
    as Hwide.
  { intros qs Hqs. eapply Forall_impl; [exact Hqs|]. simpl. lia. }
  unfold main_drawing.
  apply returns_bind. eapply (returns_color 0); [exact Hst|]. intros st0 Hst0.
  apply returns_bind.
  eapply returns_mono; [by eapply returns_draw_figure; [exact Hst0 | exact Hfig | apply Hwide]|].
  intros c0 h0 [-> ->] st1 Hst1.
  apply returns_bind.
  eapply returns_mono.
  { apply (returns_foldM_val _ (drawing_step (affine n cs ds) TOTAL_STEPS)
             (fun c b h' => scene n m dv cs ds figure dots c.1.2 c.1.1 h' /\
                            Forall (fun p => length p = n) c.1.2 /\
                            length c.1.2 = TOTAL_STEPS /\
                            b = canvas ++ c.2))
      with (c := (fs, ps, [polygon fs (color_of 0)])).
    - intros [[fs1 ps1] cmds1] b step sta _ (Hscene & Hall & Hlen1 & ->).
      cbn [fst snd] in *.
      pose proof Hscene as (_ & _ & (lsf & Hobj & Hcols) & _).
      apply returns_bind. eapply returns_len; [done | exact Hobj |].
      intros stb Hstb. cbn [obj_items].
      rewrite length_fmap, (Forall2_length _ _ _ Hcols).
      apply returns_bind.
      eapply returns_mono;
        [by eapply (returns_convert_range n m dv cs ds Hs Hn0 Hds _ stb
                      figure dots fs1 ps1 0 (length fs1))|].
      intros [] h1 (Hm1 & Hdv1 & Hfig1 & Hdots1 & Hall1) stc Hstc.
      apply returns_bind.
      eapply returns_mono.
      { eapply (returns_convert_range n m dv cs ds Hs Hn0 Hds h1 stc
                  dots figure ps1 _ step TOTAL_STEPS);
          [done | by repeat split | done | lia]. }
      intros [] h2 (Hm2 & Hdv2 & Hdots2 & Hfig2 & Hall2) std Hstd.
      apply returns_bind. eapply (returns_color step); [exact Hstd|].
      intros ste Hste.
      eapply returns_mono;
        [by eapply returns_draw_figure; [exact Hste | exact Hfig2 | apply Hwide]|].
      intros c h3 [-> ->]. unfold drawing_step. cbn [fst snd].
      split; [by repeat split|]. split; [done|].
      split; [by rewrite length_apply_range|]. by rewrite <- app_assoc.
    - cbn [fst snd]. rewrite Hst1. by repeat split. }
  intros c h1 Hinv st2 Hst2. rewrite fold_drawing_steps in Hinv.
  cbn [fst snd] in Hinv.
  destruct Hinv as ((_ & _ & _ & Hdots' & _) & Hall' & Hlen' & ->).
  eapply returns_mono.
  { eapply (returns_draw_dots h1 st2 dots); [exact Hst2 | exact Hdots' | by apply Hwide |].
    intros Hnil. rewrite Hnil in Hlen'. discriminate. }
  intros c h2 [-> ->]. rewrite <- !app_assoc. f_equal.
  rewrite <- (list_fmap_id fs) at 1. reflexivity.
Qed.

(** X20.  What [main] draws, from its first [draw_figure] to [draw_dots],
    for a transform of dimension [n >= 2], a list [figure] of points and a
    list [dots] of [TOTAL_STEPS] points: [TOTAL_STEPS] polygons, the one in
    place [k] through the points of [figure] after [k] applications of
    [m * v + dv], in the colour [COLORS[k % len(COLORS)]]; then the items of
    [draw_dots], where dot [i] is drawn after [i] applications. *)
Theorem main_drawing_canvas (st : state S) (figure dots m dv : loc)
    (cs : list (list S)) (ds : list S) (fs ps : list (list S)) (n : nat)
    (canvas : list (command S)) :
  mat_at (heap st) m cs -> shape n n cs -> 2 <= n ->
  vec_at (heap st) dv ds -> length ds = n ->
  points_at (heap st) figure fs -> Forall (fun p => length p = n) fs ->
  points_at (heap st) dots ps -> Forall (fun p => length p = n) ps ->
  length ps = TOTAL_STEPS -> figure <> dots ->
  exists cmds st',
    main_drawing (VRef figure) (VRef dots) (VRef m) (VRef dv) canvas st
    = (Ok (canvas ++ cmds), st') /\
    length cmds = TOTAL_STEPS + (2 * TOTAL_STEPS - 1) /\
    (forall k, k < TOTAL_STEPS ->
       cmds !! k
       = Some (polygon (Nat.iter k (affine n cs ds) <$> fs) (color_of k))) /\
    (forall i p, ps !! i = Some p ->
       cmds !! (TOTAL_STEPS + 2 * i)
       = Some (oval_around (Nat.iter i (affine n cs ds) p) (color_of i))) /\
    (forall i p q, ps !! i = Some p -> ps !! Datatypes.S i = Some q ->
       cmds !! (TOTAL_STEPS + 2 * i + 1)
       = Some (line_between (Nat.iter i (affine n cs ds) p)
                            (Nat.iter (Datatypes.S i) (affine n cs ds) q)
                            (color_of i))).
Proof.
  intros Hm Hs Hn Hdv Hds Hfig Hfs Hdots Hps Hlen Hne.
  destruct (returns_main_drawing (heap st) st figure dots m dv cs ds fs ps n canvas)
    as (c & st' & Hrun & ->); [done..|].
  set (f := affine n cs ds) in *.
  set (polys := (fun k => polygon (Nat.iter k f <$> fs) (color_of k))
                  <$> seq 0 TOTAL_STEPS).
  assert (length polys = TOTAL_STEPS) as Hpolys.
  { unfold polys. by rewrite length_fmap, length_seq. }
  assert (length (stagger f TOTAL_STEPS ps) = TOTAL_STEPS) as Hstag
    by (by rewrite length_stagger).
  exists (polys ++ dots_commands (stagger f TOTAL_STEPS ps)), st'.
  destruct (lookup_dots_commands (stagger f TOTAL_STEPS ps)) as [Hoval Hline].
  split; [done|]. split; [|split; [|split]].
  - rewrite length_app, Hpolys, length_dots_commands, Hstag. done.
  - intros k Hk. rewrite lookup_app_l by lia. unfold polys.
    by rewrite list_lookup_fmap, lookup_seq_lt.
  - intros i p Hp. rewrite lookup_app_r by lia.
    replace (TOTAL_STEPS + 2 * i - length polys) with (2 * i) by lia.
    apply Hoval. by apply lookup_stagger.
  - intros i p q Hp Hq. rewrite lookup_app_r by lia.
    replace (TOTAL_STEPS + 2 * i + 1 - length polys) with (2 * i + 1) by lia.
    apply Hline; by apply lookup_stagger.
Qed.

End MainDrawing.

Lemma main_drawing_canvas_witness :
  (mat_at (heap demo_scene) 2 [[1; 0]; [0; 1]]%Z /\
   shape 2 2 [[1; 0]; [0; 1]]%Z /\
   vec_at (heap demo_scene) 3 [1; 0]%Z /\
   points_at (heap demo_scene) 8 demo_square /\
   Forall (fun p => length p = 2) demo_square /\
   points_at (heap demo_scene) 17 demo_dots /\
   Forall (fun p => length p = 2) demo_dots /\
   length demo_dots = TOTAL_STEPS) /\
  let f := affine 2 [[1; 0]; [0; 1]]%Z [1; 0]%Z in
  exists cmds st',
    main_drawing (VRef 8) (VRef 17) (VRef 2) (VRef 3) [] demo_scene
    = (Ok ([] ++ cmds), st') /\
    length cmds = TOTAL_STEPS + (2 * TOTAL_STEPS - 1) /\
    (forall k, k < TOTAL_STEPS ->
       cmds !! k = Some (polygon (Nat.iter k f <$> demo_square) (color_of k))) /\
    (forall i p, demo_dots !! i = Some p ->
       cmds !! (TOTAL_STEPS + 2 * i)
       = Some (oval_around (Nat.iter i f p) (color_of i))) /\
    (forall i p q, demo_dots !! i = Some p -> demo_dots !! Datatypes.S i = Some q ->
       cmds !! (TOTAL_STEPS + 2 * i + 1)
       = Some (line_between (Nat.iter i f p) (Nat.iter (Datatypes.S i) f q)
                            (color_of i))).
Proof.
  assert (mat_at (heap demo_scene) 2 [[1; 0]; [0; 1]]%Z) as Hm.
  { exists [0; 1]. split; [reflexivity | repeat constructor]. }
  assert (shape 2 2 [[1; 0]; [0; 1]]%Z) as Hs.
  { split; [reflexivity | repeat constructor]. }
  assert (points_at (heap demo_scene) 8 demo_square) as Hfig.
  { exists [4; 5; 6; 7]. split; [reflexivity | repeat constructor]. }
  assert (Forall (fun p : list Z => length p = 2) demo_square) as Hfs.
  { repeat constructor. }
  assert (points_at (heap demo_scene) 17 demo_dots) as Hdots.
  { exists [9; 10; 11; 12; 13; 14; 15; 16].
    split; [reflexivity | repeat constructor]. }
  assert (Forall (fun p : list Z => length p = 2) demo_dots) as Hps.
  { repeat constructor. }
  split.
  - split; [exact Hm|]. split; [exact Hs|]. split; [reflexivity|].
    split; [exact Hfig|]. split; [exact Hfs|]. split; [exact Hdots|].
    split; [exact Hps | reflexivity].
  - apply (main_drawing_canvas demo_scene 8 17 2 3
             [[1; 0]; [0; 1]]%Z [1; 0]%Z demo_square demo_dots 2 []);
      first [assumption | lia | reflexivity].
Defined.

(** ** Adding and taking away again *)

Section RoundTrip.
Context {S : Type} `{Scalar S}.
Hypothesis Hcancel : forall x y : S, ssub (sadd x y) y = x.

Lemma zip_add_sub (xs ys : list S) :
  length xs = length ys -> zip_with ssub (zip_with sadd xs ys) ys = xs.
Proof.
  revert ys. induction xs as [|x xs IH]; intros [|y ys] Hlen; try done.
  simpl in *. rewrite Hcancel, IH; [done | lia].
Qed.

(** X21.  For numbers with [(x + y) - y = x], as Python's [int] has them,
    and two [Vector]s [a], [b] of equal size: [(a + b) - b] returns a
    [Vector] that was not in the store before, holds the numbers of [a] and
    is equal to [a]; and when [a] and [b] are two objects, [a += b]
    followed by [a -= b] returns [a] and leaves the store as it was. *)
Theorem add_then_sub_restores (st : state S) (a b : loc) (xs ys : list S) :
  vec_at (heap st) a xs -> vec_at (heap st) b ys -> length xs = length ys ->
  (exists w st',
     add_then_sub (VRef a) (VRef b) st = (Ok (VRef w), st') /\
     heap st !! w = None /\
     vec_at (heap st') w xs /\ py_eq (heap st') (VRef w) (VRef a)) /\
  (a <> b ->
   exists st',
     iadd_then_isub (VRef a) (VRef b) st = (Ok (VRef a), st') /\
     heap st' = heap st).
Proof.
  intros Ha Hb Hlen. split.
  - assert (returns (add_then_sub (VRef a) (VRef b)) st
              (fun r h' => r = VRef (Datatypes.S (length (heap st))) /\
                 heap st `prefix_of` h' /\
                 vec_at h' (Datatypes.S (length (heap st))) xs))
      as (r & st' & Hrun & -> & Hext & Hw).
    { unfold add_then_sub. apply returns_bind.
      eapply returns_mono; [by eapply returns_add|].
      intros s h1 [-> ->] st1 Hst1.
      eapply returns_mono.
      { eapply (returns_sub _ st1 (length (heap st)) b (zip_with sadd xs ys) ys);
          [exact Hst1 | apply vec_at_new | |].
        - eapply vec_at_grow; [exact Hb | by apply prefix_app_r].
        - rewrite length_zip_with. lia. }
      intros r h2 [-> ->]. rewrite length_app, Nat.add_1_r. split; [done|].
      rewrite zip_add_sub by done. split.
      - rewrite <- app_assoc. by apply prefix_app_r.
      - replace (Datatypes.S (length (heap st)))
          with (length (heap st ++ [Obj CVector (VNum <$> zip_with sadd xs ys)]))
          by (rewrite length_app; simpl; lia).
        apply vec_at_new. }
    exists (Datatypes.S (length (heap st))), st'.
    split; [done|]. split; [apply lookup_ge_None_2; lia|]. split; [done|].
    eapply py_eq_vectors; [done|]. by eapply vec_at_grow.
  - intros Hne.
    assert (returns (iadd_then_isub (VRef a) (VRef b)) st
              (fun r h' => r = VRef a /\ h' = heap st))
      as (r & st' & Hrun & -> & Hheap).
    { unfold iadd_then_isub. apply returns_bind.
      eapply returns_mono; [by apply (returns_inplace sadd (heap st) st a b xs ys)|].
      intros r h1 [-> ->] st1 Hst1.
      eapply returns_mono.
      { eapply (returns_inplace ssub _ st1 a b (zip_with sadd xs ys) ys);
          [exact Hst1 | | |].
        - unfold vec_at. apply list_lookup_insert_eq. by eapply lookup_lt_Some.
        - unfold vec_at. by rewrite list_lookup_insert_ne.
        - rewrite length_zip_with. lia. }
      intros r h2 [-> ->]. split; [done|].
      rewrite list_insert_insert_eq, zip_add_sub by done.
      by apply list_insert_id. }
    by exists st'.
Qed.

End RoundTrip.

Lemma add_then_sub_restores_witness :
  let st : state Z :=
    State [Obj CVector [VNum 1%Z; VNum 2%Z]; Obj CVector [VNum 10%Z; VNum 20%Z]] [] in
  ((forall x y : Z, ssub (sadd x y) y = x) /\
   vec_at (heap st) 0 [1%Z; 2%Z] /\ vec_at (heap st) 1 [10%Z; 20%Z] /\ 0 <> 1) /\
  (exists w st',
     add_then_sub (VRef 0) (VRef 1) st = (Ok (VRef w), st') /\
     heap st !! w = None /\
     vec_at (heap st') w [1%Z; 2%Z] /\ py_eq (heap st') (VRef w) (VRef 0)) /\
  (exists st',
     iadd_then_isub (VRef 0) (VRef 1) st = (Ok (VRef 0), st') /\
     heap st' = heap st).
Proof.
  intros st.
  assert (forall x y : Z, ssub (sadd x y) y = x) as Hcancel.
  { intros x y. simpl. lia. }
  split; [split; [exact Hcancel | split; [reflexivity | split; [reflexivity | lia]]]|].
  destruct (add_then_sub_restores Hcancel st 0 1 [1%Z; 2%Z] [10%Z; 20%Z]
              eq_refl eq_refl eq_refl) as [Hnew Hinplace].
  split; [exact Hnew | apply Hinplace; lia].
Defined.

(** ** [convert] on operands that do not fit *)

Section ConvertErrors.
Context {S : Type} `{Scalar S}.
Implicit Types (st : state S).

Lemma mul_vector_wrong_size st m v (im iv : list (value S)) :
  heap st !! m = Some (Obj CMatrix im) ->
  heap st !! v = Some (Obj CVector iv) ->
  length im <> length iv ->
  Matrix.__mul__ (VRef m) (VRef v) st = (Raise (TypeError Matrix.msg_shape), st).
Proof.
  intros Hm Hv Hne. unfold Matrix.__mul__.
  apply bind_raise. unfold Matrix._ensure_multiplicable.
  rewrite (bind_ok _ _ _ _ _ (isinstance_ref _ _ CMatrix _ Hv)). cbn [obj_cls cls_eqb].
  assert ((bv <- isinstance (VRef v) CVector ;;
           if bv then Vector.size (VRef v)
           else raise (TypeError Matrix.msg_operand)) st
          = (Ok (length iv), st)) as Hsize.
  { rewrite (bind_ok _ _ _ _ _ (isinstance_ref _ _ CVector _ Hv)). cbn [obj_cls cls_eqb].
    unfold Vector.size. by rewrite (py_len_ref _ _ _ Hv). }
  rewrite (bind_ok _ _ _ _ _ Hsize). unfold Matrix.cols.
  rewrite (bind_ok _ _ _ _ _ (py_len_ref _ _ _ Hm)). cbn [obj_items].
  by rewrite decide_True.
Qed.


End ConvertErrors.


(** ** A product of products *)

Section Associativity.
Context {S : Type} `{Scalar S}.
Implicit Types (st : state S) (f g : nat -> S) (l : list nat).

Hypothesis add_assoc : forall x y z : S, sadd x (sadd y z) = sadd (sadd x y) z.
Hypothesis add_comm : forall x y : S, sadd x y = sadd y x.
Hypothesis add_0_l : forall x : S, sadd (of_int 0) x = x.
Hypothesis mul_assoc : forall x y z : S, smul x (smul y z) = smul (smul x y) z.
Hypothesis mul_add_l : forall x y z : S, smul x (sadd y z) = sadd (smul x y) (smul x z).
Hypothesis mul_add_r : forall x y z : S, smul (sadd x y) z = sadd (smul x z) (smul y z).
Hypothesis mul_0_l : forall x : S, smul (of_int 0) x = of_int 0.
Hypothesis mul_0_r : forall x : S, smul x (of_int 0) = of_int 0.

Lemma fold_sum_acc f l (a : S) :
  fold_left (fun acc j => sadd acc (f j)) l a = sadd a (sum_over f l).
Proof.
  unfold sum_over. revert a. induction l as [|x l IH]; intros a.
  - simpl. by rewrite add_comm, add_0_l.
  - simpl. rewrite (IH (sadd a (f x))), (IH (sadd (of_int 0) (f x))).
    by rewrite add_0_l, add_assoc.
Qed.

Lemma sum_cons f x l : sum_over f (x :: l) = sadd (f x) (sum_over f l).
Proof.
  unfold sum_over at 1. simpl. by rewrite fold_sum_acc, add_0_l.
Qed.

Lemma sum_ext f g l :
  (forall j, j ∈ l -> f j = g j) -> sum_over f l = sum_over g l.
Proof.
  intros Hfg. unfold sum_over. apply fold_left_ext_in.
  intros acc j Hj. by rewrite Hfg.
Qed.

Lemma sum_zero l : sum_over (fun _ => of_int 0) l = of_int 0.
Proof. induction l as [|x l IH]; [done|]. by rewrite sum_cons, IH, add_0_l. Qed.

Lemma sum_mul_l (c : S) f l :
  smul c (sum_over f l) = sum_over (fun j => smul c (f j)) l.
Proof.
  induction l as [|x l IH]; [apply mul_0_r|].
  by rewrite !sum_cons, mul_add_l, IH.
Qed.

Lemma sum_mul_r (c : S) f l :
  smul (sum_over f l) c = sum_over (fun j => smul (f j) c) l.
Proof.
  induction l as [|x l IH]; [apply mul_0_l|].
  by rewrite !sum_cons, mul_add_r, IH.
Qed.

Lemma sum_add f g l :
  sum_over (fun j => sadd (f j) (g j)) l = sadd (sum_over f l) (sum_over g l).
Proof.
  induction l as [|x l IH]; [by rewrite add_0_l|].
  rewrite !sum_cons, IH.
  rewrite <- (add_assoc (f x)), (add_assoc (g x)), (add_comm (g x)).
  by rewrite <- (add_assoc (sum_over f l)), (add_assoc (f x)).
Qed.

Lemma sum_exchange (F : nat -> nat -> S) l1 l2 :
  sum_over (fun t => sum_over (fun j => F t j) l2) l1
  = sum_over (fun j => sum_over (fun t => F t j) l1) l2.
Proof.
  induction l1 as [|t l1 IH].
  - exact (eq_sym (sum_zero l2)).
  - rewrite sum_cons, IH, <- sum_add. apply sum_ext. intros j _.
    by rewrite sum_cons.
Qed.

Lemma dot_by_index (xs ys : list S) n :
  length xs = n -> length ys = n ->
  dot xs ys
  = sum_over (fun j => smul (nth j xs (of_int 0)) (nth j ys (of_int 0))) (seq 0 n).
Proof.
  intros Hx Hy. unfold dot, sum_over.
  exact (fold_zip_by_index (fun acc x y => sadd acc (smul x y))
           (of_int 0) (of_int 0) xs ys n (of_int 0) Hx Hy).
Qed.

Lemma nth_mat_vec r (A : list (list S)) ys i :
  i < r -> nth i (mat_vec r A ys) (of_int 0) = dot (row A i) ys.
Proof.
  intros Hi. unfold mat_vec. erewrite nth_lookup_Some; [done|].
  by rewrite list_lookup_fmap, lookup_seq_lt.
Qed.

Lemma nth_row (M : list (list S)) i t :
  t < length M -> nth t (row M i) (of_int 0) = nth i (nth t M []) (of_int 0).
Proof.
  intros Ht. destruct (lookup_lt_is_Some_2 M t Ht) as [col Hcol].
  unfold row. erewrite nth_lookup_Some; [|by rewrite list_lookup_fmap, Hcol].
  by rewrite (nth_lookup_Some _ _ _ _ Hcol).
Qed.

Lemma nth_mat_mul r (A B : list (list S)) t :
  t < length B -> nth t (mat_mul r A B) [] = mat_vec r A (nth t B []).
Proof.
  intros Ht. destruct (lookup_lt_is_Some_2 B t Ht) as [col Hcol].
  unfold mat_mul. erewrite nth_lookup_Some; [|by rewrite list_lookup_fmap, Hcol].
  by rewrite (nth_lookup_Some _ _ _ _ Hcol).
Qed.

Lemma mat_vec_assoc r c k (A B : list (list S)) (xs : list S) :
  shape r c A -> shape c k B -> length xs = k ->
  mat_vec r (mat_mul r A B) xs = mat_vec r A (mat_vec c B xs).
Proof.
  intros [HlenA HrowsA] [HlenB HrowsB] Hxs.
  unfold mat_vec at 1 2. apply list_fmap_ext. intros i x Hi.
  apply lookup_seq in Hi as [-> Hi]. cbn [Nat.add].
  rewrite (dot_by_index (row (mat_mul r A B) i) xs k);
    [| by unfold mat_mul; rewrite length_row, length_fmap | done].
  rewrite (dot_by_index (row A i) (mat_vec c B xs) c);
    [| by rewrite length_row | apply length_mat_vec].
  transitivity
    (sum_over (fun t =>
       sum_over (fun j =>
         smul (smul (nth j (row A i) (of_int 0))
                    (nth j (nth t B []) (of_int 0)))
              (nth t xs (of_int 0))) (seq 0 c)) (seq 0 k)).
  - apply sum_ext. intros t Ht%elem_of_seq.
    rewrite (nth_row (mat_mul r A B) i t)
      by (unfold mat_mul; rewrite length_fmap; lia).
    rewrite nth_mat_mul, nth_mat_vec by lia.
    rewrite (dot_by_index (row A i) (nth t B []) c); [| by rewrite length_row |].
    + apply sum_mul_r.
    + destruct (lookup_lt_is_Some_2 B t) as [col Hcol]; [lia|].
      rewrite (nth_lookup_Some _ _ _ _ Hcol).
      rewrite Forall_lookup in HrowsB. by eapply HrowsB.
  - rewrite sum_exchange. apply sum_ext. intros j Hj%elem_of_seq.
    rewrite nth_mat_vec by lia.
    rewrite (dot_by_index (row B j) xs k); [| by rewrite length_row | done].
    rewrite sum_mul_l. apply sum_ext. intros t Ht%elem_of_seq.
    rewrite (nth_row B j t) by lia. by rewrite mul_assoc.
Qed.

Lemma returns_py_mul_matrix h st a items (w : value S) Q :
  heap st = h -> h !! a = Some (Obj CMatrix items) ->
  (forall st', heap st' = h -> returns (Matrix.__mul__ (VRef a) w) st' Q) ->
  returns (py_mul (VRef a) w) st Q.
Proof.
  intros Hst Ha Hmul. unfold py_mul. apply returns_bind.
  eapply returns_isinstance; [exact Hst | exact Ha |]. exact Hmul.
Qed.

(** X23.  For numbers that form a semiring, as Python's [int] does: with
    [a] a [Matrix] of [r] rows and [c >= 1] columns, [b] a [Matrix] of [c]
    rows and [k >= 2] columns and [v] a [Vector] of [k] numbers,
    [(a * b) * v] and [a * (b * v)] both return a new [Vector], and the two
    hold the same numbers. *)
Theorem product_of_products (st : state S) (a b v : loc)
    (A B : list (list S)) (xs : list S) (r c k : nat) :
  mat_at (heap st) a A -> shape r c A -> 0 < c ->
  mat_at (heap st) b B -> shape c k B -> 2 <= k ->
  vec_at (heap st) v xs -> length xs = k ->
  exists w1 st1 w2 st2,
    mul_mul (VRef a) (VRef b) (VRef v) st = (Ok (VRef w1), st1) /\
    mul_of_mul (VRef a) (VRef b) (VRef v) st = (Ok (VRef w2), st2) /\
    heap st !! w1 = None /\ heap st !! w2 = None /\
    vec_at (heap st1) w1 (mat_vec r A (mat_vec c B xs)) /\
    vec_at (heap st2) w2 (mat_vec r A (mat_vec c B xs)).
Proof.
  intros Ha HsA Hc Hb HsB Hk Hv Hxs.
  pose proof Ha as (la & Hoa & _). pose proof Hb as (lb & Hob & _).
  assert (returns (mul_mul (VRef a) (VRef b) (VRef v)) st
            (fun w h' => exists z : loc, w = VRef z /\ length (heap st) <= z /\
                                   vec_at h' z (mat_vec r (mat_mul r A B) xs)))
    as (w1 & st1 & Hrun1 & l1 & -> & Hl1 & Hw1).
  { unfold mul_mul. apply returns_bind.
    eapply returns_py_mul_matrix; [reflexivity | exact Hoa |]. intros st0 Hst0.
    eapply returns_mono.
    { eapply (returns_mul_matrix (heap st) st0 a b A B r c k); [done.. | lia]. }
    intros w h1 (Hext & p & ls & Hp & Hfresh & Hobj & Hcols & ->) sta Hsta.
    rewrite decide_False by lia.
    eapply returns_py_mul_matrix; [exact Hsta | exact Hobj |]. intros stb Hstb.
    eapply returns_mono.
    { eapply (returns_mul_vector h1 stb p v (mat_mul r A B) xs r k);
        [exact Hstb | by exists ls | | lia | by eapply vec_at_grow | done].
      destruct HsB as [HlenB _]. split.
      - unfold mat_mul. by rewrite length_fmap.
      - apply Forall_forall. intros col Hcol. unfold mat_mul in Hcol.
        apply list_elem_of_fmap in Hcol as (y & -> & _). apply length_mat_vec. }
    intros w h2 (Hext2 & l & -> & Hl & Hvec). exists l. split; [done|].
    split; [|done]. apply prefix_length in Hext. lia. }
  assert (returns (mul_of_mul (VRef a) (VRef b) (VRef v)) st
            (fun w h' => exists z : loc, w = VRef z /\ length (heap st) <= z /\
                                   vec_at h' z (mat_vec r A (mat_vec c B xs))))
    as (w2 & st2 & Hrun2 & l2 & -> & Hl2 & Hw2).
  { unfold mul_of_mul. apply returns_bind.
    eapply returns_py_mul_matrix; [reflexivity | exact Hob |]. intros st0 Hst0.
    eapply returns_mono.
    { eapply (returns_mul_vector (heap st) st0 b v B xs c k); [done.. | lia | done | done]. }
    intros w h1 (Hext & l & -> & Hl & Hvec) sta Hsta.
    eapply returns_py_mul_matrix;
      [exact Hsta | by eapply prefix_lookup_Some |]. intros stb Hstb.
    eapply returns_mono.
    { eapply (returns_mul_vector h1 stb a l A (mat_vec c B xs) r c);
        [exact Hstb | by eapply mat_at_grow | done | done | done
        | apply length_mat_vec]. }
    intros w h2 (Hext2 & l' & -> & Hl' & Hvec'). exists l'. split; [done|].
    split; [|done]. apply prefix_length in Hext. lia. }
  rewrite (mat_vec_assoc r c k) in Hw1 by done.
  exists l1, st1, l2, st2.
  repeat split; [done | done | by apply lookup_ge_None_2..| done | done].
Qed.

End Associativity.

Lemma product_of_products_witness :
  let st : state Z :=
    State [Obj CVector [VNum 1%Z; VNum 2%Z]; Obj CVector [VNum 3%Z; VNum 4%Z];
           Obj CMatrix [VRef 0; VRef 1];
           Obj CVector [VNum 0%Z; VNum 1%Z]; Obj CVector [VNum 5%Z; VNum 6%Z];
           Obj CMatrix [VRef 3; VRef 4];
           Obj CVector [VNum 7%Z; VNum 8%Z]] [] in
  let A := [[1; 2]; [3; 4]]%Z in
  let B := [[0; 1]; [5; 6]]%Z in
  (mat_at (heap st) 2 A /\ shape 2 2 A /\ mat_at (heap st) 5 B /\ shape 2 2 B /\
   vec_at (heap st) 6 [7; 8]%Z) /\
  exists w1 st1 w2 st2,
    mul_mul (VRef 2) (VRef 5) (VRef 6) st = (Ok (VRef w1), st1) /\
    mul_of_mul (VRef 2) (VRef 5) (VRef 6) st = (Ok (VRef w2), st2) /\
    heap st !! w1 = None /\ heap st !! w2 = None /\
    vec_at (heap st1) w1 (mat_vec 2 A (mat_vec 2 B [7; 8]%Z)) /\
    vec_at (heap st2) w2 (mat_vec 2 A (mat_vec 2 B [7; 8]%Z)).
Proof.
  intros st A B.
  assert (mat_at (heap st) 2 A) as Ha.
  { exists [0; 1]. split; [reflexivity | repeat constructor]. }
  assert (mat_at (heap st) 5 B) as Hb.
  { exists [3; 4]. split; [reflexivity | repeat constructor]. }
  assert (shape 2 2 A) as HsA by (split; [reflexivity | repeat constructor]).
  assert (shape 2 2 B) as HsB by (split; [reflexivity | repeat constructor]).
  split; [split; [exact Ha | split; [exact HsA | split; [exact Hb | split;
            [exact HsB | reflexivity]]]]|].
  assert (forall x y z : Z, sadd x (sadd y z) = sadd (sadd x y) z) as L1
    by exact Z.add_assoc.
  assert (forall x y : Z, sadd x y = sadd y x) as L2 by exact Z.add_comm.
  assert (forall x : Z, sadd (of_int 0) x = x) as L3 by exact Z.add_0_l.
  assert (forall x y z : Z, smul x (smul y z) = smul (smul x y) z) as L4
    by exact Z.mul_assoc.
  assert (forall x y z : Z, smul x (sadd y z) = sadd (smul x y) (smul x z)) as L5
    by exact Z.mul_add_distr_l.
  assert (forall x y z : Z, smul (sadd x y) z = sadd (smul x z) (smul y z)) as L6
    by exact Z.mul_add_distr_r.
  assert (forall x : Z, smul (of_int 0) x = of_int 0) as L7 by exact Z.mul_0_l.
  assert (forall x : Z, smul x (of_int 0) = of_int 0) as L8 by exact Z.mul_0_r.
  apply (product_of_products L1 L2 L3 L4 L5 L6 L7 L8 st 2 5 6 A B [7; 8]%Z 2 2 2);
    first [assumption | lia | reflexivity].
Defined.
